(** * Verification of the [stu] repository: SFTP tree synchronisation and quicksort

    Shallow embedding of [src/sftp_tool.py] (path joining, remote directory
    materialisation, upload and download engines) and of
    [src/src/quicksort.py] (functional and in-place quicksort), followed by
    the properties the specification states about them. *)

From Stdlib Require Import Ascii String.
From Stdlib Require QArith.
From stdpp Require Import gmap strings list sorting pretty.

Open Scope Z_scope.

(** ** Part I: [quicksort.py] *)

Module Quicksort.

(** Python's rich-comparison protocol, as the four operators the two
    quicksorts use: [<], [<=], [>] and [==]. *)
Class PyOrd (A : Type) := {
  py_lt : A → A → bool;
  py_le : A → A → bool;
  py_gt : A → A → bool;
  py_eq : A → A → bool
}.

(** "Mutually comparable" elements: the operators describe one strict total
    order whose [==] is identity of values. *)
Class PyTotalOrd (A : Type) `{PyOrd A} := {
  py_eq_true x y : py_eq x y = true ↔ x = y;
  py_lt_irrefl x : py_lt x x = false;
  py_lt_trans x y z : py_lt x y = true → py_lt y z = true → py_lt x z = true;
  py_lt_total x y : py_lt x y = true ∨ x = y ∨ py_lt y x = true;
  py_gt_lt x y : py_gt x y = py_lt y x;
  py_le_lt x y : py_le x y = py_lt x y || py_eq x y
}.

#[export] Instance Z_PyOrd : PyOrd Z :=
  {| py_lt := Z.ltb; py_le := Z.leb; py_gt := Z.gtb; py_eq := Z.eqb |}.

(** What a call can end in besides a value.  [IndexError] is the exception of
    an out-of-range subscript; [OutOfFuel] is not a Python outcome, it marks
    a recursion that the fuel given to the model did not cover. *)
Inductive exn := IndexError | OutOfFuel.

Inductive res (T : Type) := Ok (v : T) | Raise (e : exn).
Arguments Ok {T} v.
Arguments Raise {T} e.

#[export] Instance res_bind : MBind res := λ T U k m,
  match m with
  | Ok v => k v
  | Raise e => Raise e
  end.

Section Code.
Context {A : Type} `{PyOrd A}.

(** [arr[i]] with Python's subscript rule: a negative index counts from the
    end, anything outside [-len, len) raises. *)
Definition py_index (arr : list A) (i : Z) : res nat :=
  let n := Z.of_nat (length arr) in
  if bool_decide (0 ≤ i < n) then Ok (Z.to_nat i)
  else if bool_decide (- n ≤ i < 0) then Ok (Z.to_nat (i + n))
  else Raise IndexError.

Definition py_getitem (arr : list A) (i : Z) : res A :=
  k ← py_index arr i;
  match arr !! k with
  | Some x => Ok x
  | None => Raise IndexError
  end.

Definition py_setitem (arr : list A) (i : Z) (x : A) : res (list A) :=
  k ← py_index arr i; Ok (<[k := x]> arr).

(** [quicksort(arr)], the value computed from the contents of [arr].
    [[x for x in arr if c]] is a filter that keeps the order;
    [arr[len(arr) // 2]] is always in range on this path. *)
Fixpoint quicksort_fuel (fuel : nat) (arr : list A) : res (list A) :=
  match fuel with
  | O => Raise OutOfFuel
  | S fuel' =>
      if bool_decide (length arr ≤ 1)%nat then Ok arr
      else
        pivot ← py_getitem arr (Z.of_nat (length arr) `div` 2);
        let left := filter (λ x, py_lt x pivot = true) arr in
        let middle := filter (λ x, py_eq x pivot = true) arr in
        let right := filter (λ x, py_gt x pivot = true) arr in
        l ← quicksort_fuel fuel' left;
        r ← quicksort_fuel fuel' right;
        Ok (l ++ middle ++ r)
  end.

(** List objects, by identity.  A name that was never bound reads as the
    empty list; the code never meets one. *)
Definition deref (σ : gmap nat (list A)) (r : nat) : list A :=
  default [] (σ !! r).

(** A list display, a comprehension or [+] builds a new object. *)
Definition new_list (v : list A) (σ : gmap nat (list A))
  : nat * gmap nat (list A) :=
  let r := fresh (dom σ) in (r, <[r := v]> σ).

(** [quicksort(arr)] on objects: which list object is returned and what
    the store holds afterwards.  A list of at most one element is returned
    as it is, the very object that was passed in; otherwise three
    comprehensions and two concatenations each build a new list, and
    [quicksort(left) + middle] is built before [quicksort(right)] runs. *)
Fixpoint quicksort (fuel : nat) (arr : nat) (σ : gmap nat (list A))
  : res (nat * gmap nat (list A)) :=
  match fuel with
  | O => Raise OutOfFuel
  | S fuel' =>
      let xs := deref σ arr in
      if bool_decide (length xs ≤ 1)%nat then Ok (arr, σ)
      else
        pivot ← py_getitem xs (Z.of_nat (length xs) `div` 2);
        let '(left_, σ1) := new_list (filter (λ x, py_lt x pivot = true) xs) σ in
        let '(middle, σ2) := new_list (filter (λ x, py_eq x pivot = true) xs) σ1 in
        let '(right_, σ3) := new_list (filter (λ x, py_gt x pivot = true) xs) σ2 in
        '(l, σ4) ← quicksort fuel' left_ σ3;
        let '(lm, σ5) := new_list (deref σ4 l ++ deref σ4 middle) σ4 in
        '(r, σ6) ← quicksort fuel' right_ σ5;
        Ok (new_list (deref σ6 lm ++ deref σ6 r) σ6)
  end.

(** [arr[i], arr[j] = arr[j], arr[i]]: the right-hand tuple is read first,
    then [arr[i]] and [arr[j]] are stored in that order. *)
Definition swap (arr : list A) (i j : Z) : res (list A) :=
  x ← py_getitem arr j;
  y ← py_getitem arr i;
  arr1 ← py_setitem arr i x;
  py_setitem arr1 j y.

(** The [for j in range(low, high)] loop of [_partition], threading the
    list and the counter [i]. *)
Fixpoint partition_loop (pivot : A) (js : list Z) (arr : list A) (i : Z)
  : res (list A * Z) :=
  match js with
  | [] => Ok (arr, i)
  | j :: js' =>
      x ← py_getitem arr j;
      if py_le x pivot then
        let i' := i + 1 in
        arr' ← swap arr i' j;
        partition_loop pivot js' arr' i'
      else partition_loop pivot js' arr i
  end.

Definition _partition (arr : list A) (low high : Z) : res (list A * Z) :=
  pivot ← py_getitem arr high;
  let i := low - 1 in
  '(arr1, i1) ← partition_loop pivot (seqZ low (high - low)) arr i;
  arr2 ← swap arr1 (i1 + 1) high;
  Ok (arr2, i1 + 1).

(** [quicksort_inplace(arr, low, high)] with [high] given. *)
Fixpoint quicksort_inplace_fuel (fuel : nat) (arr : list A) (low high : Z)
  : res (list A) :=
  match fuel with
  | O => Raise OutOfFuel
  | S fuel' =>
      if bool_decide (low < high) then
        '(arr1, pivot_index) ← _partition arr low high;
        arr2 ← quicksort_inplace_fuel fuel' arr1 low (pivot_index - 1);
        quicksort_inplace_fuel fuel' arr2 (pivot_index + 1) high
      else Ok arr
  end.

(** [quicksort_inplace(arr)]: [low = 0], [high = None] replaced by
    [len(arr) - 1]. *)
Definition quicksort_inplace (fuel : nat) (arr : list A) : res (list A) :=
  quicksort_inplace_fuel fuel arr 0 (Z.of_nat (length arr) - 1).

End Code.

(** *** Notions the properties are stated with *)

Section Notions.
Context {A : Type} `{PyOrd A}.

(** The non-strict order read off [<=]. *)
Definition le (x y : A) : Prop := py_le x y = true.

(** Shape left behind by the in-place sort: every slice longer than one
  element reads [small ++ pivot :: big], the pivot bounding [small] from
  above under [<=] and failing to bound anything in [big]. *)
Inductive pivot_ordered : list A → Prop :=
| po_short l : (length l ≤ 1)%nat → pivot_ordered l
| po_split small p big :
  Forall (λ x, py_le x p = true) small →
  Forall (λ x, py_le x p = false) big →
  pivot_ordered small → pivot_ordered big →
  pivot_ordered (small ++ p :: big).

End Notions.

End Quicksort.

(** ** Part II: [sftp_tool.py] *)

Module Sftp.

(** *** Paths

    Remote paths are strings, handled with [posixpath].  A local path is
    either the string the caller passed ([Raw]) or an absolute path as
    [os.path.abspath] and [Path.resolve] normalise it, kept as the list of
    its names below the root ([Abs]). *)

Inductive lpath :=
| Raw (s : string)
| Abs (names : list string).

Definition chars : string → list ascii := list_ascii_of_string.
Definition text : list ascii → string := string_of_list_ascii.

Definition is_sep (c : ascii) : bool := Ascii.eqb c "/".

Definition startswith_sep (s : string) : bool :=
  match s with
  | String c _ => is_sep c
  | EmptyString => false
  end.

Definition endswith_sep (s : string) : bool :=
  match reverse (chars s) with
  | c :: _ => is_sep c
  | [] => false
  end.

(** One round of the loop of [posixpath.join(a, *p)]. *)
Definition join_step (path b : string) : string :=
  if startswith_sep b then b
  else if bool_decide (path = "") || endswith_sep path then path +:+ b
  else path +:+ "/" +:+ b.

Definition posixpath_join (a : string) (p : list string) : string :=
  fold_left join_step p a.

(** [s.replace("\\", "/")]; the backslash is character 92. *)
Definition replace_backslash (s : string) : string :=
  text ((λ c, if Ascii.eqb c (ascii_of_nat 92) then "/"%char else c) <$> chars s).

(** [_join_remote] on the tuple of its arguments.  The callers pass strings only, so the [None]
    alternative of the filter never applies. *)
Definition _join_remote (parts : list string) : string :=
  let cleaned := filter (λ part, part ≠ "") parts in
  match cleaned with
  | [] => ""
  | a :: p => replace_backslash (posixpath_join a p)
  end.

Fixpoint drop_while (f : ascii → bool) (cs : list ascii) : list ascii :=
  match cs with
  | [] => []
  | c :: cs' => if f c then drop_while f cs' else cs
  end.

(** [posixpath.dirname(p)]: [head = p[:p.rfind('/') + 1]], stripped of its
    trailing slashes unless it consists of slashes only.  The computation
    runs on the reversed string. *)
Definition dirname (p : string) : string :=
  let rhead := drop_while (λ c, negb (is_sep c)) (reverse (chars p)) in
  if negb (bool_decide (rhead = [])) && negb (forallb is_sep rhead)
  then text (reverse (drop_while is_sep rhead))
  else text (reverse rhead).

(** [os.path.relpath(path, start)] on normalised absolute paths: drop the
    common prefix, climb out of what is left of [start], descend into what
    is left of [path]. *)
Fixpoint common_prefix_len (a b : list string) : nat :=
  match a, b with
  | x :: a', y :: b' =>
      if bool_decide (x = y) then S (common_prefix_len a' b') else O
  | _, _ => O
  end.

Definition os_path_relpath (path start : list string) : string :=
  let i := common_prefix_len start path in
  let rel_list := replicate (length start - i) ".." ++ drop i path in
  match rel_list with
  | [] => "."
  | a :: p => posixpath_join a p
  end.

(** Splits a path at its slashes, dropping empty names. *)
Fixpoint split_names (cur : list ascii) (cs : list ascii) : list string :=
  let flush := if bool_decide (cur = []) then [] else [text (reverse cur)] in
  match cs with
  | [] => flush
  | c :: cs' =>
      if is_sep c then flush ++ split_names [] cs'
      else split_names (c :: cur) cs'
  end.

Definition split_path (p : string) : list string := split_names [] (chars p).

(** [Path.parent]; the root is its own parent. *)
Definition parent (p : list string) : list string := removelast p.

(** The names [pathlib] keeps of a string: empty names and [.] go, [..]
    stays. *)
Definition pure_parts (s : string) : list string :=
  filter (λ n, n ≠ ".") (split_path s).

(** [base / name] for an absolute [base]: a [name] that begins with a
    slash replaces [base], any other is parsed and appended.  A path is the
    list of its names below the root, so [//x] and [/x] are one path. *)
Definition Path_div (base : list string) (name : string) : list string :=
  if startswith_sep name then pure_parts name else base ++ pure_parts name.

(** [str(p)] of an absolute path. *)
Definition path_str (p : list string) : string :=
  "/" +:+ String.concat "/" p.

(** [stat.S_ISDIR(mode)]: [(mode & 0o170000) == 0o040000]. *)
Definition S_ISDIR (st_mode : Z) : bool := Z.land st_mode 61440 =? 16384.

(** The two kinds of failure the engine tells apart in an [OSError]
    ([IOError] is the same class): [FileNotFoundError], and the rest. *)
Inductive os_error := ENOENT | EOTHER (msg : string).

(** *** The tree being copied

    During one transfer the source side is read, never written, and every
    directory of it is listed at most once: the tree is the record of what
    the listing calls of one run answer, failures included.

    A local entry is what [os.walk] learns of a name: [entry.is_dir()],
    which follows symbolic links, [os.path.islink], whether [os.scandir]
    on the entry raises [OSError] (which [os.walk] swallows), and the
    entries [os.scandir] lists in it.

    A remote entry is one [SFTPAttributes] of [listdir_attr], with what
    [listdir_attr] answers for the path of the entry itself: the error it
    raises, or its listing. *)

Set Warnings "-register-all".

Inductive lentry :=
  LEntry (name : string) (is_dir : bool) (is_symlink : bool)
         (unreadable : bool) (children : list lentry).

Inductive rentry :=
  REntry (filename : string) (st_mode : Z) (listdir_error : option os_error)
         (listing : list rentry).

Definition lname (e : lentry) : string := let 'LEntry n _ _ _ _ := e in n.
Definition lis_dir (e : lentry) : bool := let 'LEntry _ d _ _ _ := e in d.
Definition lis_symlink (e : lentry) : bool := let 'LEntry _ _ l _ _ := e in l.
Definition lunreadable (e : lentry) : bool := let 'LEntry _ _ _ u _ := e in u.

Definition lchildren (e : lentry) : list lentry :=
  let 'LEntry _ _ _ _ c := e in c.

(** The subdirectories [os.walk] goes into with [followlinks=False]:
    [dirs] holds every name whose [is_dir()] is true, and the walk skips
    those of them that are symbolic links. *)
Definition walks_into (e : lentry) : bool :=
  lis_dir e && negb (lis_symlink e).

(** [os.walk(top)], top-down with [onerror=None] and [followlinks=False],
    where [d] is what is found at [top]: nothing when [os.scandir(top)]
    raises; otherwise the triple of the directory, then the walks of the
    subdirectories it goes into, in the order [os.scandir] listed them. *)
Fixpoint os_walk (top : list string) (d : lentry) {struct d}
  : list (list string * list string * list string) :=
  match d with
  | LEntry _ _ _ unreadable entries =>
      if unreadable then []
      else
        (top,
         lname <$> filter (λ e, lis_dir e = true) entries,
         lname <$> filter (λ e, lis_dir e = false) entries)
        :: (fix subdirs (es : list lentry) :=
              match es with
              | [] => []
              | e :: es' =>
                  (if walks_into e then os_walk (top ++ [lname e]) e else [])
                  ++ subdirs es'
              end) entries
  end.

Record LocalView := {
  expanduser : string → string;
  abspath : string → list string;
  resolve : string → list string;
  (** what [os.path.exists], [os.path.isdir] and [os.scandir] see at a path *)
  local_lookup : string → option lentry;
  (** the remote directory being fetched: what [listdir_attr] answers for it
      and, entry by entry, below it *)
  remote_lookup : string → rentry
}.

(** *** Outcomes, events and the session *)

(** [Hang] stands for a loop that never ends. *)
Inductive exn :=
| OSError (e : os_error)
| SystemExit (msg : string)
| Hang.

Inductive res (T : Type) := Ok (v : T) | Raise (e : exn).
Arguments Ok {T} v.
Arguments Raise {T} e.

(** What a run does, in order.  [EvEnsureRemoteDir] marks the entry into
    [_ensure_remote_dir]; the others are the calls on [self.sftp] and on
    [pathlib], with what they answered. *)
Inductive event :=
| EvEnsureRemoteDir (remote_dir : string)
| EvStat (path : string) (r : os_error + Z)
| EvMkdir (path : string) (r : os_error + unit)
| EvPut (localpath : lpath) (remotepath : string) (r : os_error + unit)
| EvGet (remotepath : string) (localpath : lpath) (r : os_error + unit)
| EvListdirAttr (path : string) (r : os_error + unit)
| EvPathMkdir (path : list string) (r : os_error + unit).

(** Everything a transfer writes to, the remote server and the local disk,
    is one state [S]; [sftp_stat] reads it. *)
Record Session (S : Type) := {
  sftp_stat : string → S → os_error + Z;
  sftp_mkdir : string → S → os_error + S;
  sftp_put : lpath → string → S → os_error + S;
  sftp_get : string → lpath → S → os_error + S;
  (** [Path.mkdir(parents=True, exist_ok=True)] *)
  path_mkdir : list string → S → os_error + S
}.
Arguments sftp_stat {S}.
Arguments sftp_mkdir {S}.
Arguments sftp_put {S}.
Arguments sftp_get {S}.
Arguments path_mkdir {S}.

(** A computation: from a state to an outcome, the state left behind and the
    events emitted on the way. *)
Definition M (S T : Type) : Type := S → res T * S * list event.

Definition ret {S T} (v : T) : M S T := λ s, (Ok v, s, []).
Definition raise {S T} (e : exn) : M S T := λ s, (Raise e, s, []).
Definition emit {S} (ev : event) : M S unit := λ s, (Ok tt, s, [ev]).

Definition bind {S T U} (m : M S T) (k : T → M S U) : M S U := λ s,
  match m s with
  | (Ok v, s1, t1) => let '(r, s2, t2) := k v s1 in (r, s2, t1 ++ t2)
  | (Raise e, s1, t1) => (Raise e, s1, t1)
  end.

(** [try: m  except FileNotFoundError: h] *)
Definition except_FileNotFoundError {S T} (m h : M S T) : M S T := λ s,
  match m s with
  | (Raise (OSError ENOENT), s1, t1) =>
      let '(r, s2, t2) := h s1 in (r, s2, t1 ++ t2)
  | other => other
  end.

(** [for x in xs: body(x)] *)
Definition for_each {S X} (xs : list X) (body : X → M S unit) : M S unit :=
  (fix loop (xs : list X) : M S unit :=
     match xs with
     | [] => ret tt
     | x :: xs' => bind (body x) (λ _, loop xs')
     end) xs.

Notation "m1 ;; m2" := (bind m1 (λ _, m2))
  (at level 100, m2 at level 200, right associativity).
Notation "x ←M m1 ;; m2" := (bind m1 (λ x, m2))
  (at level 100, m1 at next level, m2 at level 200, right associativity).

Definition rfilename (e : rentry) : string := let 'REntry n _ _ _ := e in n.
Definition rst_mode (e : rentry) : Z := let 'REntry _ m _ _ := e in m.

Definition lift {T} (r : os_error + T) : res T :=
  match r with
  | inl e => Raise (OSError e)
  | inr v => Ok v
  end.

(** The loop of [_ensure_remote_dir] that collects [path] and its ancestors,
    leaf first.  [fuel] bounds the rounds; [None] when it runs out. *)
Fixpoint collect_parts (fuel : nat) (path : string) : option (list string) :=
  if bool_decide (path ∈ [""; "/"]) then Some []
  else match fuel with
       | O => None
       | S fuel' => (path ::.) <$> collect_parts fuel' (dirname path)
       end.

Section Engine.
Context {S : Type} (sftp : Session S) (fs : LocalView).

(** The calls on [self.sftp] and [pathlib]: each emits its event, and
    raises what the session answered when that is an error. *)
Definition stat (path : string) : M S Z := λ s,
  let r := sftp_stat sftp path s in (lift r, s, [EvStat path r]).

Definition effect (call : S → os_error + S) (ev : os_error + unit → event)
  : M S unit := λ s,
  match call s with
  | inl e => (Raise (OSError e), s, [ev (inl e)])
  | inr s' => (Ok tt, s', [ev (inr tt)])
  end.

Definition mkdir (path : string) : M S unit :=
  effect (sftp_mkdir sftp path) (EvMkdir path).

Definition put (localpath : lpath) (remotepath : string) : M S unit :=
  effect (sftp_put sftp localpath remotepath) (EvPut localpath remotepath).

Definition get (remotepath : string) (localpath : lpath) : M S unit :=
  effect (sftp_get sftp remotepath localpath) (EvGet remotepath localpath).

Definition Path_mkdir (path : list string) : M S unit :=
  effect (path_mkdir sftp path) (EvPathMkdir path).

Definition os_path_exists (p : string) : bool :=
  bool_decide (is_Some (local_lookup fs p)).

Definition os_path_isdir (p : string) : bool :=
  match local_lookup fs p with
  | Some d => lis_dir d
  | None => false
  end.

(** [Path(p).expanduser().resolve()]; an [Abs] path stands for its
    [str]. *)
Definition resolve_local (l : lpath) : list string :=
  match l with
  | Raw s => resolve fs s
  | Abs p => resolve fs (path_str p)
  end.

(** [self.sftp.listdir_attr(path)], whose answer the tree holds. *)
Definition listdir_attr (path : string) (answer : option os_error)
  : M S unit := λ s,
  match answer with
  | Some e => (Raise (OSError e), s, [EvListdirAttr path (inl e)])
  | None => (Ok tt, s, [EvListdirAttr path (inr tt)])
  end.

(** The length of the path is fuel enough for the loop whenever the loop
    ends at all ([collect_parts_hang]). *)
Definition _ensure_remote_dir (remote_dir : string) : M S unit :=
  emit (EvEnsureRemoteDir remote_dir);;
  if bool_decide (remote_dir ∈ [""; "."]) then ret tt
  else
    match collect_parts (String.length remote_dir) remote_dir with
    | None => raise Hang
    | Some parts =>
        for_each (reverse parts) (λ directory,
          except_FileNotFoundError (stat directory;; ret tt)
                                   (mkdir directory))
    end.

(** [os.walk] lists nothing when [local_dir] is not a directory. *)
Definition _upload_directory (local_dir remote_dir : string) : M S unit :=
  let walk :=
    match local_lookup fs local_dir with
    | Some d => if lis_dir d then os_walk (abspath fs local_dir) d else []
    | None => []
    end in
  let local_dir := abspath fs local_dir in
  for_each walk (λ '(root, dirs, files),
    let rel_root := os_path_relpath root local_dir in
    let rel_root := if bool_decide (rel_root = ".") then "" else rel_root in
    let remote_root := _join_remote [remote_dir; rel_root] in
    _ensure_remote_dir remote_root;;
    for_each files (λ filename,
      let local_file := Abs (root ++ [filename]) in
      let remote_file := _join_remote [remote_root; filename] in
      put local_file remote_file)).

Definition upload (local_path remote_path : string) : M S unit :=
  let local_path := expanduser fs local_path in
  if negb (os_path_exists local_path) then
    raise (SystemExit ("Local path does not exist: " +:+ local_path))
  else if os_path_isdir local_path then
    _upload_directory local_path remote_path
  else
    let remote_dir := dirname remote_path in
    (if bool_decide (remote_dir ≠ "") then _ensure_remote_dir remote_dir
     else ret tt);;
    put (Raw local_path) remote_path.

Definition _is_remote_dir (remote_path : string) : M S bool :=
  info ←M except_FileNotFoundError
            (stat remote_path)
            (raise (SystemExit ("Remote path does not exist: " +:+ remote_path)));;
  ret (S_ISDIR info).

(** [d] is what the remote side holds at [remote_dir]:
    [listdir_attr(remote_dir)] raises its error or answers its listing.
    [local_child] is [local_dir_path / entry.filename]; the recursive call
    and [get] receive [str(local_child)]. *)
Fixpoint _download_directory (remote_dir : string) (local_dir : lpath)
  (d : rentry) {struct d} : M S unit :=
  match d with
  | REntry _ _ answer listing =>
      let local_dir_path := resolve_local local_dir in
      Path_mkdir local_dir_path;;
      listdir_attr remote_dir answer;;
      for_each listing (λ entry,
        let remote_child := _join_remote [remote_dir; rfilename entry] in
        let local_child := Path_div local_dir_path (rfilename entry) in
        if S_ISDIR (rst_mode entry) then
          _download_directory remote_child (Abs local_child) entry
        else
          Path_mkdir (parent local_child);;
          get remote_child (Abs local_child))
  end.

Definition download (remote_path local_path : string) : M S unit :=
  isdir ←M _is_remote_dir remote_path;;
  if isdir then
    _download_directory remote_path (Raw local_path)
                        (remote_lookup fs remote_path)
  else
    let local_parent := parent (resolve fs local_path) in
    Path_mkdir local_parent;;
    get remote_path (Raw local_path).

End Engine.

(** *** A reference world

    A plain directory tree on each side, used to run the engine on concrete
    inputs: the remote side maps a path to its [st_mode], the local side an
    absolute path to whether it is a directory. *)

Record disk := {
  remote_fs : gmap string Z;
  local_fs : gmap (list string) bool
}.

Definition dir_mode : Z := 16877.
Definition file_mode : Z := 33188.

Definition names_of (l : lpath) : list string :=
  match l with
  | Raw s => split_path s
  | Abs p => p
  end.

Definition remote_is_dir (σ : gmap string Z) (p : string) : bool :=
  bool_decide (p ∈ [""; "."; "/"]) ||
  match σ !! p with
  | Some m => S_ISDIR m
  | None => false
  end.

Definition local_is_dir (σ : gmap (list string) bool) (p : list string) : bool :=
  bool_decide (p = []) || bool_decide (σ !! p = Some true).

Definition disk_stat (p : string) (d : disk) : os_error + Z :=
  match remote_fs d !! p with
  | Some m => inr m
  | None => inl ENOENT
  end.

Definition disk_mkdir (p : string) (d : disk) : os_error + disk :=
  if bool_decide (is_Some (remote_fs d !! p)) then inl (EOTHER "Failure")
  else if remote_is_dir (remote_fs d) (dirname p) then
    inr {| remote_fs := <[p := dir_mode]> (remote_fs d); local_fs := local_fs d |}
  else inl ENOENT.

Definition disk_put (l : lpath) (r : string) (d : disk) : os_error + disk :=
  if remote_is_dir (remote_fs d) r then inl (EOTHER "Failure")
  else if remote_is_dir (remote_fs d) (dirname r) then
    inr {| remote_fs := <[r := file_mode]> (remote_fs d); local_fs := local_fs d |}
  else inl ENOENT.

Definition disk_get (r : string) (l : lpath) (d : disk) : os_error + disk :=
  match remote_fs d !! r with
  | None => inl ENOENT
  | Some m =>
      if S_ISDIR m then inl (EOTHER "Failure")
      else if local_is_dir (local_fs d) (names_of l) then inl (EOTHER "IsADirectoryError")
      else if local_is_dir (local_fs d) (parent (names_of l)) then
        inr {| remote_fs := remote_fs d;
               local_fs := <[names_of l := false]> (local_fs d) |}
      else inl ENOENT
  end.

(** Every non-empty prefix of [p], shortest first. *)
Definition prefixes (p : list string) : list (list string) :=
  (λ n, take n p) <$> seq 1 (length p).

Definition disk_path_mkdir (p : list string) (d : disk) : os_error + disk :=
  if existsb (λ q, bool_decide (local_fs d !! q = Some false)) (prefixes p)
  then inl (EOTHER "FileExistsError")
  else inr {| remote_fs := remote_fs d;
              local_fs := foldr (λ q σ, <[q := true]> σ) (local_fs d) (prefixes p) |}.

Definition disk_session : Session disk := {|
  sftp_stat := disk_stat;
  sftp_mkdir := disk_mkdir;
  sftp_put := disk_put;
  sftp_get := disk_get;
  path_mkdir := disk_path_mkdir
|}.

Definition empty_disk : disk := {| remote_fs := ∅; local_fs := ∅ |}.

(** A local disk for the examples: the working directory [/work] holds
    [root], with [a.txt] and [sub/b.txt], and [project], with [main.py]
    and the empty directory [empty]; the remote directory [/r] to fetch
    holds [onefile.txt], an empty directory [void] and [docs/readme.txt]. *)
Definition file_entry (name : string) : lentry :=
  LEntry name false false false [].

Definition dir_entry (name : string) (entries : list lentry) : lentry :=
  LEntry name true false false entries.

Definition demo_local_tree : lentry :=
  dir_entry "root"
    [file_entry "a.txt";
     dir_entry "sub" [file_entry "b.txt"]].

Definition demo_project_tree : lentry :=
  dir_entry "project"
    [dir_entry "empty" [];
     file_entry "main.py"].

(** A regular file answers [listdir_attr] with an error; no run asks. *)
Definition remote_file (filename : string) : rentry :=
  REntry filename file_mode (Some (EOTHER "Failure")) [].

Definition remote_dir_entry (filename : string) (listing : list rentry)
  : rentry :=
  REntry filename dir_mode None listing.

Definition demo_remote_tree : rentry :=
  remote_dir_entry "r"
    [remote_file "onefile.txt";
     remote_dir_entry "void" [];
     remote_dir_entry "docs" [remote_file "readme.txt"]].

Definition demo_view : LocalView := {|
  expanduser := λ p, p;
  abspath := λ p, if startswith_sep p then split_path p
                  else "work" :: split_path p;
  resolve := λ p, if startswith_sep p then split_path p
                  else "work" :: split_path p;
  local_lookup := λ p, if bool_decide (p = "root") then Some demo_local_tree
                       else if bool_decide (p = "project")
                            then Some demo_project_tree
                       else None;
  remote_lookup := λ _, demo_remote_tree
|}.

(** The remote side of [demo_remote_tree], as the reference world holds it. *)
Definition demo_remote_disk : disk := {|
  remote_fs := list_to_map
    [("/r", dir_mode); ("/r/onefile.txt", file_mode); ("/r/void", dir_mode);
     ("/r/docs", dir_mode); ("/r/docs/readme.txt", file_mode)];
  local_fs := ∅
|}.

(** *** Notions the properties are stated with

    What the spec's words are measured against in Part IV: the reading of
    [joinRemote], well-behaved servers, and the schedules of steps that a
    transfer goes through. *)

(** The spec's reading of [joinRemote]: the non-empty fragments with one
    slash between neighbours, backslashes turned into slashes. *)
Definition joinRemote_spec (parts : list string) : string :=
  replace_backslash (String.concat "/" (filter (λ part, part ≠ "") parts)).

(** Fragments that [posixpath.join] merely concatenates: none after the
    first begins with a slash, none before the last ends with one. *)
Fixpoint plain_fragments (parts : list string) : bool :=
  match parts with
  | [] => true
  | a :: p =>
      match p with
      | [] => true
      | b :: _ => negb (endswith_sep a) && negb (startswith_sep b)
                  && plain_fragments p
      end
  end.

(** One round of the loop: [stat], and [mkdir] when it is not found. *)
Definition level {S : Type} (sftp : Session S) (directory : string)
  : M S unit :=
  except_FileNotFoundError (stat sftp directory;; ret tt)
                           (mkdir sftp directory).

(** A server that keeps what it has: a directory just made can be
    [stat]ed, and making a directory removes no path. *)
Class KeepsDirectories {S : Type} (sftp : Session S) : Prop := {
  mkdir_then_stat p s s' :
    sftp_mkdir sftp p s = inr s' → ∃ m, sftp_stat sftp p s' = inr m;
  mkdir_keeps p q s s' m :
    sftp_mkdir sftp p s = inr s' → sftp_stat sftp q s = inr m →
    ∃ m', sftp_stat sftp q s' = inr m'
}.

Definition mkdir_calls (t : list event) : list string :=
  omap (λ ev, match ev with EvMkdir p _ => Some p | _ => None end) t.

Inductive step :=
| EnsureRemote (remote_dir : string)
| PutFile (localpath : lpath) (remotepath : string)
| MakeLocal (path : list string)
| GetFile (remotepath : string) (localpath : lpath).

Definition shape (ev : event) : option step :=
  match ev with
  | EvEnsureRemoteDir d => Some (EnsureRemote d)
  | EvPut l r _ => Some (PutFile l r)
  | EvPathMkdir p _ => Some (MakeLocal p)
  | EvGet r l _ => Some (GetFile r l)
  | EvStat _ _ | EvMkdir _ _ | EvListdirAttr _ _ => None
  end.

Definition steps (t : list event) : list step := omap shape t.

(** [m] follows [plan]: from every state, the steps of the run are the
    first steps of [plan], and all of them when the run ends normally. *)
Definition follows {S T : Type} (m : M S T) (plan : list step) : Prop :=
  ∀ s, steps (m s).2 `prefix_of` plan
       ∧ (∀ v, (m s).1.1 = Ok v → steps (m s).2 = plan).

(** The remote directory a walked local directory is mapped to: lines
    151 to 153 of [_upload_directory]. *)
Definition mapped (remote_dir : string) (local_dir root : list string) : string :=
  let rel_root := os_path_relpath root local_dir in
  let rel_root := if bool_decide (rel_root = ".") then "" else rel_root in
  _join_remote [remote_dir; rel_root].

(** The steps for one triple of the walk: the mapped directory, then its
    files in the order listed. *)
Definition upload_block (remote_dir : string) (local_dir : list string)
  (t : list string * list string * list string) : list step :=
  EnsureRemote (mapped remote_dir local_dir t.1.1)
  :: ((λ filename,
         PutFile (Abs (t.1.1 ++ [filename]))
                 (_join_remote [mapped remote_dir local_dir t.1.1; filename]))
      <$> t.2).

(** The triples [os.walk] yields to [_upload_directory]. *)
Definition walked (fs : LocalView) (local_dir : string)
  : list (list string * list string * list string) :=
  match local_lookup fs local_dir with
  | Some d => if lis_dir d then os_walk (abspath fs local_dir) d else []
  | None => []
  end.

(** The walk is top-down: the triple of a directory below the top comes
    after the triple of the directory that holds it. *)
Definition topdown (top : list string)
  (walk : list (list string * list string * list string)) : Prop :=
  ∀ pre t post ds c,
    walk = pre ++ t :: post → t.1.1 = top ++ ds ++ [c] →
    ∃ t0, t0 ∈ pre ∧ t0.1.1 = top ++ ds.

(** The steps of a run of [_download_directory] on [d] in which no call
    fails: its local directory first, then entry by entry in listing
    order, a file fetched after the parent of its local path is made, a
    subdirectory descended into. *)
Fixpoint download_plan (fs : LocalView) (remote_dir : string)
  (local_dir : lpath) (d : rentry) {struct d} : list step :=
  match d with
  | REntry _ _ _ listing =>
      let local_dir_path := resolve_local fs local_dir in
      MakeLocal local_dir_path
      :: flat_map (λ entry,
           let remote_child := _join_remote [remote_dir; rfilename entry] in
           let local_child := Path_div local_dir_path (rfilename entry) in
           if S_ISDIR (rst_mode entry) then
             download_plan fs remote_child (Abs local_child) entry
           else
             [MakeLocal (parent local_child);
              GetFile remote_child (Abs local_child)]) listing
  end.

(** The same for listed names that are single path names and a local side
    where paths resolve to themselves: every local child lies directly in
    the local directory of the remote directory that lists it. *)
Fixpoint download_plan_plain (remote_dir : string)
  (local_dir_path : list string) (d : rentry) {struct d} : list step :=
  match d with
  | REntry _ _ _ listing =>
      MakeLocal local_dir_path
      :: flat_map (λ entry,
           let remote_child := _join_remote [remote_dir; rfilename entry] in
           let local_child := local_dir_path ++ [rfilename entry] in
           if S_ISDIR (rst_mode entry) then
             download_plan_plain remote_child local_child entry
           else
             [MakeLocal (parent local_child);
              GetFile remote_child (Abs local_child)]) listing
  end.

(** A single path name: not empty, not [.] or [..], without slash. *)
Definition plain_name (n : string) : bool :=
  negb (bool_decide (n ∈ [""; "."; ".."]))
  && forallb (λ c, negb (is_sep c)) (chars n).

(** A name that [_join_remote] leaves as it is: a single path name
    without backslash. *)
Definition portable_name (n : string) : bool :=
  plain_name n
  && forallb (λ c, negb (Ascii.eqb c (ascii_of_nat 92))) (chars n).

(** Every name listed in the remote tree is a single path name. *)
Fixpoint plain_listing (d : rentry) {struct d} : bool :=
  match d with
  | REntry _ _ _ listing =>
      forallb (λ e, plain_name (rfilename e) && plain_listing e) listing
  end.

(** Every name in the local tree is a single path name without
    backslash.  [os.scandir] lists single path names only; the backslash
    is what this asks for. *)
Fixpoint portable_tree (d : lentry) {struct d} : bool :=
  match d with
  | LEntry _ _ _ _ entries =>
      forallb (λ e, portable_name (lname e) && portable_tree e) entries
  end.

(** Nothing at or below [base] is a symbolic link: the [str] of a path
    of single names below [base] resolves to that path. *)
Definition resolves_to_itself (fs : LocalView) (base : list string) : Prop :=
  ∀ q, Forall (λ n, plain_name n = true) q →
       resolve fs (path_str (base ++ q)) = base ++ q.

(** A plan whose directories come parent first: a directory below [base]
    is made, and a file below [base] fetched, only after the directory that
    holds it was made. *)
Definition parents_first (base : list string) (plan : list step) : Prop :=
  ∀ pre st post ds c,
    plan = pre ++ st :: post →
    st = MakeLocal (base ++ ds ++ [c])
    ∨ (∃ r, st = GetFile r (Abs (base ++ ds ++ [c]))) →
    MakeLocal (base ++ ds) ∈ pre.

(** The directories of a local tree that can be listed and are reached
    without passing a symbolic link or a directory that cannot be listed,
    as paths below its top. *)
Fixpoint local_dirs (d : lentry) {struct d} : list (list string) :=
  match d with
  | LEntry _ _ _ unreadable entries =>
      if unreadable then []
      else
        [] :: flat_map (λ e, if walks_into e
                             then (lname e ::.) <$> local_dirs e
                             else []) entries
  end.

(** The directories of a remote tree, as paths of listed names below its
    top. *)
Fixpoint remote_dirs (d : rentry) {struct d} : list (list string) :=
  match d with
  | REntry _ _ _ listing =>
      [] :: flat_map (λ e, if S_ISDIR (rst_mode e)
                           then (rfilename e ::.) <$> remote_dirs e
                           else []) listing
  end.

(** What a directory is after [_ensure_remote_dir] ended normally: seen
    by [stat], or made by [mkdir]. *)
Definition materialised (remote_dir : string) (t : list event) : Prop :=
  (∃ st_mode, EvStat remote_dir (inr st_mode) ∈ t)
  ∨ EvMkdir remote_dir (inr tt) ∈ t.

End Sftp.

(** ** Part II-b: further notions about the SFTP engine *)

Module SftpMore.
Import Sftp.

(** The error of a call that failed in a way the engine does not handle:
    any failed [mkdir], [put], [get], [listdir_attr] or [Path.mkdir], and
    a [stat] that failed with something other than not-found. *)
Definition fatal (ev : event) : option os_error :=
  match ev with
  | EvStat _ (inl (EOTHER msg)) => Some (EOTHER msg)
  | EvMkdir _ (inl e) => Some e
  | EvPut _ _ (inl e) => Some e
  | EvGet _ _ (inl e) => Some e
  | EvListdirAttr _ (inl e) => Some e
  | EvPathMkdir _ (inl e) => Some e
  | _ => None
  end.

(** [m] stops at the first such failure and raises it. *)
Definition fail_fast {S T : Type} (m : M S T) : Prop :=
  ∀ s pre ev post e,
    (m s).2 = pre ++ ev :: post → fatal ev = Some e →
    post = [] ∧ (m s).1.1 = Raise (OSError e).

(** Every event of [m] satisfies [P]. *)
Definition only {S T : Type} (P : event → bool) (m : M S T) : Prop :=
  ∀ s ev, ev ∈ (m s).2 → P ev = true.

Definition remote_write_side (ev : event) : bool :=
  match ev with
  | EvEnsureRemoteDir _ | EvStat _ _ | EvMkdir _ _ | EvPut _ _ _ => true
  | EvGet _ _ _ | EvListdirAttr _ _ | EvPathMkdir _ _ => false
  end.

Definition remote_read_side (ev : event) : bool :=
  match ev with
  | EvStat _ _ | EvListdirAttr _ _ | EvGet _ _ _ | EvPathMkdir _ _ => true
  | EvEnsureRemoteDir _ | EvMkdir _ _ | EvPut _ _ _ => false
  end.

Definition stat_calls (t : list event) : list string :=
  omap (λ ev, match ev with EvStat p _ => Some p | _ => None end) t.

(** No occurrence of the character [c] in [s]. *)
Definition lacks (c : ascii) (s : string) : Prop := c ∉ chars s.

(** The local disk of the examples with one more entry, the regular file
    [notes.txt] in the working directory. *)
Definition demo_file_view : LocalView := {|
  expanduser := expanduser demo_view;
  abspath := abspath demo_view;
  resolve := resolve demo_view;
  local_lookup := λ p, if bool_decide (p = "notes.txt")
                       then Some (file_entry "notes.txt")
                       else local_lookup demo_view p;
  remote_lookup := remote_lookup demo_view
|}.

(** The files of a local tree that the walk meets, in its order: the
    names of a directory whose [is_dir()] is false as listed, then those of
    the subdirectories it goes into; none of a directory that cannot be
    listed, none below a symbolic link.  Each is the path of its directory
    below the top, and its name. *)
Fixpoint local_files (d : lentry) {struct d} : list (list string * string) :=
  match d with
  | LEntry _ _ _ unreadable entries =>
      if unreadable then []
      else
        ((λ e, ([], lname e)) <$> filter (λ e, lis_dir e = false) entries)
        ++ flat_map (λ e, if walks_into e
                          then (λ f, (lname e :: f.1, f.2)) <$> local_files e
                          else []) entries
  end.

(** The regular files of a remote tree in listing order, depth first, as
    paths below its top. *)
Fixpoint remote_files (d : rentry) {struct d} : list (list string) :=
  match d with
  | REntry _ _ _ listing =>
      flat_map (λ e, if S_ISDIR (rst_mode e)
                     then (rfilename e ::.) <$> remote_files e
                     else [[rfilename e]]) listing
  end.

(** The remote path reached from [remote_dir] by joining one name after
    the other, as [_download_directory] does on its way down. *)
Definition descend (remote_dir : string) (names : list string) : string :=
  fold_left (λ path name, _join_remote [path; name]) names remote_dir.

Definition put_calls (t : list event) : list (lpath * string) :=
  omap (λ ev, match ev with EvPut l r _ => Some (l, r) | _ => None end) t.

Definition get_calls (t : list event) : list (string * lpath) :=
  omap (λ ev, match ev with EvGet r l _ => Some (r, l) | _ => None end) t.

(** The same calls read off the steps of a plan. *)
Definition put_of (st : step) : option (lpath * string) :=
  match st with
  | PutFile l r => Some (l, r)
  | _ => None
  end.

Definition get_of (st : step) : option (string * lpath) :=
  match st with
  | GetFile r l => Some (r, l)
  | _ => None
  end.

(** [name] placed in the remote directory [m]; the empty [m] is the
    directory the session starts in. *)
Definition child_path (m name : string) : string :=
  if bool_decide (m = "") then name else m +:+ "/" +:+ name.

(** A local disk with a home directory: [~] is [/home/u]. *)
Definition expand_home (p : string) : string :=
  match p with
  | String "~" rest =>
      if bool_decide (rest = "") || startswith_sep rest
      then "/home/u" +:+ rest else p
  | _ => p
  end.

Definition demo_home_view : LocalView := {|
  expanduser := expand_home;
  abspath := abspath demo_view;
  resolve := λ p, resolve demo_view (expand_home p);
  local_lookup := local_lookup demo_view;
  remote_lookup := remote_lookup demo_view
|}.

(** A local directory [odd] that holds one file, named [a\b.txt]. *)
Definition backslash_name : string :=
  String "a" (String (ascii_of_nat 92) "b.txt").

Definition demo_odd_view : LocalView := {|
  expanduser := expanduser demo_view;
  abspath := abspath demo_view;
  resolve := resolve demo_view;
  local_lookup := λ p, if bool_decide (p = "odd")
                       then Some (dir_entry "odd" [file_entry backslash_name])
                       else local_lookup demo_view p;
  remote_lookup := remote_lookup demo_view
|}.

(** A server on which [/t] is a directory and [/t/empty] a regular
    file. *)
Definition demo_occupied_disk : disk := {|
  remote_fs := list_to_map [("/t", dir_mode); ("/t/empty", file_mode)];
  local_fs := ∅
|}.

(** A remote directory whose listing names a directory [a/b] before the
    directory [a]. *)
Definition demo_nested_names : rentry :=
  remote_dir_entry "r"
    [remote_dir_entry "a/b" []; remote_dir_entry "a" []].

Definition demo_nested_view : LocalView := {|
  expanduser := expanduser demo_view;
  abspath := abspath demo_view;
  resolve := resolve demo_view;
  local_lookup := local_lookup demo_view;
  remote_lookup := λ _, demo_nested_names
|}.

End SftpMore.

(** ** Part II-c: the client around the engine

    [SFTPClient]'s connection handling ([connect], [close], the [sftp]
    property, [__enter__] and [__exit__]) and the [with] block of [main]. *)

(** A Python float that is a number, as a rational; the engine only hands
    floats on. *)
Definition float : Type := QArith_base.Q.

Module Client.
Import Sftp.

(** [ConnectionConfig].  The timeout is a float that is only handed on to
    [connect]; it is a [float]. *)
Record ConnectionConfig := {
  host : string;
  port : Z;
  username : option string;
  password : option string;
  private_key : option string;
  passphrase : option string;
  known_hosts : option string;
  timeout : option float
}.

(** Truth value of an [Optional[str]]: [None] and the empty string are
    false. *)
Definition truthy (o : option string) : bool :=
  match o with
  | Some s => bool_decide (s ≠ "")
  | None => false
  end.

(** *** What paramiko answers

    A raised exception is named by its [str()].  [connect] tells apart
    [PasswordRequiredException] and [FileNotFoundError] when it loads the
    key, and [SSHException] when it connects; whatever else is raised
    passes through. *)
Inductive key_outcome :=
| KeyLoaded (pkey : string)
| PasswordRequiredException
| KeyFileNotFound
| KeyOtherError (exc : string).

Inductive connect_outcome :=
| Connected
| SSHException (exc : string)
| ConnectOtherError (exc : string).

(** The library acts on the same state [S] as the session of the engine.
    [close] on an SFTP channel or an SSH client does not raise. *)
Record Paramiko (S : Type) := {
  load_host_keys : string → S → option string;
  from_private_key_file : string → option string → S → key_outcome;
  ssh_connect : string → Z → option string → option string → option string
                → option float → S → connect_outcome * S;
  open_sftp : S → option string * S;
  sftp_close : S → S;
  ssh_close : S → S
}.
Arguments load_host_keys {S}.
Arguments from_private_key_file {S}.
Arguments ssh_connect {S}.
Arguments open_sftp {S}.
Arguments sftp_close {S}.
Arguments ssh_close {S}.

(** The two fields [__init__] sets to [None]. *)
Record client := {
  _ssh : option unit;
  _sftp : option unit
}.

Definition __init__ : client := {| _ssh := None; _sftp := None |}.

(** [Uncovered] is not a Python outcome: it marks a transfer started on a
    client that is not connected, which the model does not follow.  [main]
    never gets there. *)
Inductive exn :=
| SystemExit (msg : string)
| RuntimeError (msg : string)
| LibraryError (exc : string)
| Transfer (e : Sftp.exn)
| Uncovered.

Inductive res (T : Type) := Ok (v : T) | Raise (e : exn).
Arguments Ok {T} v.
Arguments Raise {T} e.

Inductive event :=
| EvSSHClient
| EvLoadHostKeys (filename : string) (r : option string)
| EvSetMissingHostKeyPolicy
| EvFromPrivateKeyFile (key_path : string) (password : option string)
    (r : key_outcome)
| EvConnect (host : string) (port : Z) (username password pkey : option string)
    (timeout : option float) (r : connect_outcome)
| EvOpenSftp (r : option string)
| EvSftpClose
| EvSshClose
| EvTransfer (ev : Sftp.event).

(** A method of the client: from the client's fields and the state to an
    outcome, the fields and state left behind, and the events emitted. *)
Definition CM (S T : Type) : Type :=
  client * S → res T * (client * S) * list event.

Definition cret {S T} (v : T) : CM S T := λ cs, (Ok v, cs, []).
Definition craise {S T} (e : exn) : CM S T := λ cs, (Raise e, cs, []).

Definition cbind {S T U} (m : CM S T) (k : T → CM S U) : CM S U := λ cs,
  match m cs with
  | (Ok v, cs1, t1) => let '(r, cs2, t2) := k v cs1 in (r, cs2, t1 ++ t2)
  | (Raise e, cs1, t1) => (Raise e, cs1, t1)
  end.

Notation "m1 ;;; m2" := (cbind m1 (λ _, m2))
  (at level 100, m2 at level 200, right associativity).
Notation "x ←C m1 ;;; m2" := (cbind m1 (λ x, m2))
  (at level 100, m1 at next level, m2 at level 200, right associativity).

Section Methods.
Context {S : Type} (lib : Paramiko S) (sftp : Session S) (fs : LocalView)
  (config : ConnectionConfig).

Definition set_ssh (v : option unit) : CM S unit := λ '(c, s),
  (Ok tt, ({| _ssh := v; _sftp := _sftp c |}, s), []).

Definition set_sftp (v : option unit) : CM S unit := λ '(c, s),
  (Ok tt, ({| _ssh := _ssh c; _sftp := v |}, s), []).

(** The [sftp] property. *)
Definition sftp_property : CM S unit := λ '(c, s),
  match _sftp c with
  | None => (Raise (RuntimeError "SFTP client is not connected"), (c, s), [])
  | Some h => (Ok h, (c, s), [])
  end.

Definition new_SSHClient : CM S unit := λ cs, (Ok tt, cs, [EvSSHClient]).

Definition set_missing_host_key_policy : CM S unit := λ cs,
  (Ok tt, cs, [EvSetMissingHostKeyPolicy]).

Definition call_load_host_keys (filename : string) : CM S unit := λ '(c, s),
  let r := load_host_keys lib filename s in
  (match r with Some exc => Raise (LibraryError exc) | None => Ok tt end,
   (c, s), [EvLoadHostKeys filename r]).

(** The [try] around [RSAKey.from_private_key_file] with its two
    handlers. *)
Definition load_key (key_path : string) : CM S (option string) := λ '(c, s),
  let r := from_private_key_file lib key_path (passphrase config) s in
  (match r with
   | KeyLoaded pkey => Ok (Some pkey)
   | PasswordRequiredException =>
       Raise (SystemExit "Private key requires a passphrase. Supply --passphrase or set it in the config file.")
   | KeyFileNotFound =>
       Raise (SystemExit ("Private key not found: " +:+ key_path))
   | KeyOtherError exc => Raise (LibraryError exc)
   end,
   (c, s), [EvFromPrivateKeyFile key_path (passphrase config) r]).

(** The [try] around [self._ssh.connect] with its handler. *)
Definition call_connect (pkey : option string) : CM S unit := λ '(c, s),
  let '(r, s') := ssh_connect lib (host config) (port config)
                    (username config) (password config) pkey
                    (timeout config) s in
  (match r with
   | Connected => Ok tt
   | SSHException exc =>
       Raise (SystemExit ("Unable to connect to " +:+ host config +:+ ":"
                          +:+ pretty (port config) +:+ " - " +:+ exc))
   | ConnectOtherError exc => Raise (LibraryError exc)
   end,
   (c, s'),
   [EvConnect (host config) (port config) (username config)
      (password config) pkey (timeout config) r]).

Definition call_open_sftp : CM S unit := λ '(c, s),
  let '(r, s') := open_sftp lib s in
  (match r with Some exc => Raise (LibraryError exc) | None => Ok tt end,
   (c, s'), [EvOpenSftp r]).

Definition connect : CM S unit := λ '(c, s),
  match _ssh c with
  | Some _ => (Ok tt, (c, s), [])
  | None =>
      (new_SSHClient;;;
       set_ssh (Some tt);;;
       (if truthy (known_hosts config)
        then call_load_host_keys (default "" (known_hosts config))
        else set_missing_host_key_policy);;;
       pkey ←C (if truthy (private_key config)
                then load_key (expanduser fs (default "" (private_key config)))
                else cret None);;;
       call_connect pkey;;;
       call_open_sftp;;;
       set_sftp (Some tt)) (c, s)
  end.

Definition close : CM S unit := λ '(c, s),
  let '(c1, s1, t1) :=
    match _sftp c with
    | Some _ => ({| _ssh := _ssh c; _sftp := None |}, sftp_close lib s,
                 [EvSftpClose])
    | None => (c, s, [])
    end in
  let '(c2, s2, t2) :=
    match _ssh c1 with
    | Some _ => ({| _ssh := None; _sftp := _sftp c1 |}, ssh_close lib s1,
                 [EvSshClose])
    | None => (c1, s1, [])
    end in
  (Ok tt, (c2, s2), t1 ++ t2).

Definition __enter__ : CM S unit := connect.

Definition __exit__ : CM S unit := close.

(** [with self as client: body].  When [__enter__] raises, [__exit__] is
    not called.  Otherwise [__exit__] runs after the body however the body
    ended; it returns [None], so what the body raised is raised again. *)
Definition with_client {T} (body : CM S T) : CM S T := λ cs,
  match __enter__ cs with
  | (Raise e, cs1, t1) => (Raise e, cs1, t1)
  | (Ok _, cs1, t1) =>
      let '(r, cs2, t2) := body cs1 in
      let '(r3, cs3, t3) := __exit__ cs2 in
      (match r3 with Raise e' => Raise e' | Ok _ => r end, cs3,
       t1 ++ t2 ++ t3)
  end.

(** A method of the engine, run by a connected client: every [self.sftp]
    in it finds [_sftp] set. *)
Definition transfer {T} (m : M S T) : CM S T := λ '(c, s),
  match _sftp c with
  | None => (Raise Uncovered, (c, s), [])
  | Some _ =>
      let '(r, s', t) := m s in
      (match r with
       | Sftp.Ok v => Ok v
       | Sftp.Raise e => Raise (Transfer e)
       end,
       (c, s'), EvTransfer <$> t)
  end.

Inductive action := Upload | Download.

(** [main], from the parsed arguments on: a new client, the [with] block,
    [return 0]. *)
Definition main (act : action) (local_path remote_path : string)
  : S → res Z * (client * S) * list event := λ s,
  (with_client
     (match act with
      | Upload => transfer (upload sftp fs local_path remote_path)
      | Download => transfer (download sftp fs remote_path local_path)
      end);;;
   cret 0) (__init__, s).

End Methods.

(** *** Notions the properties are stated with *)

Definition is_close (ev : event) : bool :=
  match ev with
  | EvSftpClose | EvSshClose => true
  | _ => false
  end.

Definition is_transfer (ev : event) : bool :=
  match ev with
  | EvTransfer _ => true
  | _ => false
  end.

Definition is_network (ev : event) : bool :=
  match ev with
  | EvConnect _ _ _ _ _ _ _ | EvOpenSftp _ => true
  | _ => false
  end.

(** A library that answers every call with success. *)
Definition demo_lib : Paramiko disk := {|
  load_host_keys := λ _ _, None;
  from_private_key_file := λ _ _ _, KeyLoaded "key";
  ssh_connect := λ _ _ _ _ _ _ s, (Connected, s);
  open_sftp := λ s, (None, s);
  sftp_close := λ s, s;
  ssh_close := λ s, s
|}.

(** A library whose server refuses the connection. *)
Definition refusing_lib : Paramiko disk := {|
  load_host_keys := λ _ _, None;
  from_private_key_file := λ _ _ _, PasswordRequiredException;
  ssh_connect := λ _ _ _ _ _ _ s, (SSHException "Authentication failed.", s);
  open_sftp := λ s, (None, s);
  sftp_close := λ s, s;
  ssh_close := λ s, s
|}.

Definition demo_config : ConnectionConfig := {|
  host := "example.org";
  port := 22;
  username := Some "u";
  password := Some "secret";
  private_key := None;
  passphrase := None;
  known_hosts := None;
  timeout := None
|}.

Definition demo_key_config : ConnectionConfig := {|
  host := "example.org";
  port := 2222;
  username := Some "u";
  password := None;
  private_key := Some "~/.ssh/id_rsa";
  passphrase := None;
  known_hosts := Some "~/.ssh/known_hosts";
  timeout := None
|}.

End Client.

(** ** Part II-d: merging the connection settings

    The dictionary [merged] that [parse_args] builds from the parsed
    command line and the JSON configuration file. *)

Module Config.

Set Warnings "-register-all".

(** What [json.loads] yields, and what [argparse] stores: [None], booleans,
    integers, floats, strings, arrays and objects. *)
Inductive value :=
| VNone
| VBool (b : bool)
| VInt (n : Z)
| VFloat (q : float)
| VStr (s : string)
| VArray (items : list value)
| VObject (items : list (string * value)).

(** Python's truth value. *)
Definition truthy (v : value) : bool :=
  match v with
  | VNone => false
  | VBool b => b
  | VInt n => negb (n =? 0)
  | VFloat q => negb (QArith_base.Qeq_bool q (QArith_base.Qmake 0 1))
  | VStr s => negb (bool_decide (s = ""))
  | VArray items => negb (bool_decide (items = []))
  | VObject items => negb (bool_decide (items = []))
  end.

(** [a or b] *)
Definition py_or (a b : value) : value := if truthy a then a else b.

(** The attributes of the [argparse.Namespace] that the merge reads.  The
    text options are [None] when they are not given; [port] and [timeout]
    have the defaults 22 and 10.0. *)
Record Namespace := {
  host : option string;
  port : Z;
  username : option string;
  password : option string;
  private_key : option string;
  passphrase : option string;
  known_hosts : option string;
  timeout : float
}.

Definition of_option (o : option string) : value :=
  match o with
  | Some s => VStr s
  | None => VNone
  end.

(** [config.get(key)] and [config.get(key, fallback)] on the object read
    from the file; [config] is empty when there is no file. *)
Definition get (config : gmap string value) (key : string) : value :=
  default VNone (config !! key).

Definition get_or (config : gmap string value) (key : string)
  (fallback : value) : value :=
  default fallback (config !! key).

(** The dictionary display [merged = {...}] of [parse_args]. *)
Definition merged (args : Namespace) (config : gmap string value)
  : gmap string value :=
  list_to_map [
    ("host", py_or (of_option (host args)) (get config "host"));
    ("port",
     if truthy (of_option (host args))
        || negb (bool_decide (is_Some (config !! "port")))
     then VInt (port args)
     else get_or config "port" (VInt (port args)));
    ("username", py_or (of_option (username args)) (get config "username"));
    ("password", py_or (of_option (password args)) (get config "password"));
    ("private_key",
     py_or (of_option (private_key args)) (get config "private_key"));
    ("passphrase",
     py_or (of_option (passphrase args)) (get config "passphrase"));
    ("known_hosts",
     py_or (of_option (known_hosts args)) (get config "known_hosts"));
    ("timeout",
     if truthy (of_option (host args))
        || negb (bool_decide (is_Some (config !! "timeout")))
     then VFloat (timeout args)
     else get_or config "timeout" (VFloat (timeout args)))
  ].

End Config.

(** ** Part III: properties of the quicksorts *)

Module QuicksortProofs.
Import Quicksort.

#[export] Instance Z_PyTotalOrd : PyTotalOrd Z.
Proof.
  split; simpl; intros.
  - apply Z.eqb_eq.
  - apply Z.ltb_irrefl.
  - lia.
  - lia.
  - rewrite Z.gtb_ltb. reflexivity.
  - destruct (Z.leb_spec x y), (Z.ltb_spec x y), (Z.eqb_spec x y); simpl; lia.
Qed.

(** Normalises nested appends on both sides of a list equation. *)
Ltac reassoc := repeat first [rewrite <- app_assoc | progress simpl]; done.

Section Run.
Context {A : Type} `{PyOrd A}.

Lemma py_index_in_range (arr : list A) i :
  0 ≤ i < Z.of_nat (length arr) → py_index arr i = Ok (Z.to_nat i).
Proof. intros Hi. unfold py_index. by rewrite bool_decide_true. Qed.

Lemma py_getitem_in_range (arr : list A) i :
  0 ≤ i < Z.of_nat (length arr) →
  ∃ x, py_getitem arr i = Ok x ∧ arr !! Z.to_nat i = Some x.
Proof.
  intros Hi. unfold py_getitem. rewrite py_index_in_range by done. simpl.
  destruct (lookup_lt_is_Some_2 arr (Z.to_nat i)) as [x Hx]; [lia|].
  exists x. by rewrite Hx.
Qed.

Lemma py_setitem_in_range (arr : list A) i x :
  0 ≤ i < Z.of_nat (length arr) →
  py_setitem arr i x = Ok (<[Z.to_nat i := x]> arr).
Proof. intros Hi. unfold py_setitem. by rewrite py_index_in_range. Qed.

Lemma swap_same (arr : list A) i :
  0 ≤ i < Z.of_nat (length arr) → swap arr i i = Ok arr.
Proof.
  intros Hi. unfold swap.
  destruct (py_getitem_in_range arr i Hi) as (x & -> & Hx). simpl.
  rewrite py_setitem_in_range by done. simpl.
  rewrite py_setitem_in_range by (rewrite length_insert; done).
  rewrite list_insert_insert_eq, list_insert_id; done.
Qed.

Lemma swap_apart (a c e : list A) (b d : A) i j :
  i = Z.of_nat (length a) →
  j = Z.of_nat (length a + 1 + length c) →
  swap (a ++ b :: c ++ d :: e) i j = Ok (a ++ d :: c ++ b :: e).
Proof.
  intros -> ->. unfold swap.
  set (arr := a ++ b :: c ++ d :: e).
  assert (Hlen : length arr = (length a + 1 + length c + 1 + length e)%nat).
  { unfold arr. rewrite length_app. simpl. rewrite length_app. simpl. lia. }
  destruct (py_getitem_in_range arr (Z.of_nat (length a + 1 + length c)))
    as (x & -> & Hx); [lia|].
  destruct (py_getitem_in_range arr (Z.of_nat (length a)))
    as (y & -> & Hy); [lia|].
  simpl. rewrite py_setitem_in_range by lia. simpl.
  rewrite py_setitem_in_range by (rewrite length_insert; lia). simpl.
  rewrite !Nat2Z.id in *. unfold arr in *.
  rewrite lookup_app_r in Hx, Hy by lia.
  replace (length a - length a)%nat with O in Hy by lia.
  replace (length a + 1 + length c - length a)%nat with (S (length c)) in Hx by lia.
  simpl in Hx, Hy. rewrite lookup_app_r in Hx by lia.
  replace (length c - length c)%nat with O in Hx by lia.
  simpl in Hx. simplify_eq.
  rewrite insert_app_r_alt by lia.
  replace (length a - length a)%nat with O by lia. simpl.
  rewrite insert_app_r_alt by lia.
  replace (length a + 1 + length c - length a)%nat with (S (length c)) by lia.
  simpl. rewrite insert_app_r_alt by lia.
  replace (length c - length c)%nat with O by lia. done.
Qed.

Lemma py_getitem_at (a c : list A) (x : A) j :
  j = Z.of_nat (length a) → py_getitem (a ++ x :: c) j = Ok x.
Proof.
  intros ->.
  destruct (py_getitem_in_range (a ++ x :: c) (Z.of_nat (length a)))
    as (y & -> & Hy).
  { rewrite length_app. simpl. lia. }
  rewrite Nat2Z.id, list_lookup_middle in Hy by done. by simplify_eq.
Qed.

(** Loop invariant of [_partition]: the slice being partitioned reads
    [small ++ big ++ rest], with [i] on the last element of [small] and
    [j] on the first element of [rest]. *)
Lemma partition_loop_spec pivot (pre suf rest : list A) :
  ∀ (small big : list A) j i n,
  j = Z.of_nat (length pre + length small + length big) →
  i = Z.of_nat (length pre + length small) - 1 →
  n = Z.of_nat (length rest) →
  Forall (λ x, py_le x pivot = true) small →
  Forall (λ x, py_le x pivot = false) big →
  ∃ small' big',
    partition_loop pivot (seqZ j n) (pre ++ small ++ big ++ rest ++ suf) i
    = Ok (pre ++ small' ++ big' ++ suf,
          Z.of_nat (length pre + length small') - 1) ∧
    small' ++ big' ≡ₚ small ++ big ++ rest ∧
    Forall (λ x, py_le x pivot = true) small' ∧
    Forall (λ x, py_le x pivot = false) big'.
Proof.
  induction rest as [|x rest IH]; intros small big j i n -> -> -> Hs Hb.
  { exists small, big. simpl. rewrite app_nil_r. done. }
  assert (Hget : py_getitem (pre ++ small ++ big ++ x :: rest ++ suf)
                   (Z.of_nat (length pre + length small + length big)) = Ok x).
  { replace (pre ++ small ++ big ++ x :: rest ++ suf)
      with ((pre ++ small ++ big) ++ x :: rest ++ suf)
      by (by rewrite <- !app_assoc).
    apply py_getitem_at. rewrite !length_app. lia. }
  destruct (py_le x pivot) eqn:Hx; [destruct big as [|b big]|].
  - destruct (IH (small ++ [x]) [] _ _ _ eq_refl eq_refl eq_refl)
      as (small' & big' & Hrun & Hperm & Hs' & Hb').
    { apply Forall_app. split; [done|]. by constructor. }
    { constructor. }
    exists small', big'. split; [|split; [|done]].
    + rewrite seqZ_cons by (simpl; lia). simpl partition_loop.
      simpl in Hget. rewrite Hget. simpl. rewrite Hx.
      replace (Z.of_nat (length pre + length small) - 1 + 1)
        with (Z.of_nat (length pre + length small + 0)) by lia.
      rewrite swap_same by (rewrite !length_app; simpl; lia). simpl.
      rewrite <- Hrun.
      f_equal; try (rewrite ?length_app; simpl; lia).
      * f_equal; rewrite ?length_app; simpl; lia.
      * reassoc.
    + rewrite Hperm. simpl. by rewrite <- !app_assoc.
  - destruct (IH (small ++ [x]) (big ++ [b]) _ _ _ eq_refl eq_refl eq_refl)
      as (small' & big' & Hrun & Hperm & Hs' & Hb').
    { apply Forall_app. split; [done|]. by constructor. }
    { apply Forall_cons in Hb as [Hb1 Hb2].
      apply Forall_app. split; [done|]. by constructor. }
    exists small', big'. split; [|split; [|done]].
    + rewrite seqZ_cons by (simpl; lia). simpl partition_loop.
      simpl in Hget. rewrite Hget. simpl. rewrite Hx.
      replace (pre ++ small ++ b :: big ++ x :: rest ++ suf)
        with ((pre ++ small) ++ b :: big ++ x :: rest ++ suf)
        by (by rewrite <- !app_assoc).
      rewrite swap_apart by (rewrite ?length_app; simpl; lia). simpl.
      rewrite <- Hrun.
      f_equal; try (rewrite ?length_app; simpl; lia).
      * f_equal; rewrite ?length_app; simpl; lia.
      * reassoc.
    + rewrite Hperm. solve_Permutation.
  - destruct (IH small (big ++ [x]) _ _ _ eq_refl eq_refl eq_refl)
      as (small' & big' & Hrun & Hperm & Hs' & Hb'); [done| |].
    { apply Forall_app. split; [done|]. by constructor. }
    exists small', big'. split; [|split; [|done]].
    + rewrite seqZ_cons by (simpl; lia). simpl partition_loop.
      rewrite Hget. simpl. rewrite Hx.
      rewrite <- Hrun.
      f_equal; try (rewrite ?length_app; simpl; lia).
      * f_equal; rewrite ?length_app; simpl; lia.
      * reassoc.
    + rewrite Hperm. by rewrite <- !app_assoc.
Qed.

Lemma partition_spec (pre seg suf : list A) (pivot : A) low high :
  low = Z.of_nat (length pre) →
  high = Z.of_nat (length pre + length seg) →
  ∃ small big,
    _partition (pre ++ seg ++ pivot :: suf) low high
    = Ok (pre ++ small ++ pivot :: big ++ suf,
          Z.of_nat (length pre + length small)) ∧
    small ++ big ≡ₚ seg ∧
    Forall (λ x, py_le x pivot = true) small ∧
    Forall (λ x, py_le x pivot = false) big.
Proof.
  intros -> ->. unfold _partition.
  replace (pre ++ seg ++ pivot :: suf) with ((pre ++ seg) ++ pivot :: suf)
    by reassoc.
  rewrite py_getitem_at by (rewrite length_app; lia). simpl.
  destruct (partition_loop_spec pivot pre (pivot :: suf) seg [] []
              (Z.of_nat (length pre))
              (Z.of_nat (length pre) - 1)
              (Z.of_nat (length pre + length seg) - Z.of_nat (length pre)))
    as (small & big & Hrun & Hperm & Hs & Hb);
    [simpl; lia..|constructor|constructor|].
  simpl in Hrun, Hperm.
  replace ((pre ++ seg) ++ pivot :: suf) with (pre ++ seg ++ pivot :: suf)
    by reassoc.
  rewrite Hrun. simpl.
  assert (Hlen : length seg = (length small + length big)%nat).
  { by rewrite <- Hperm, length_app. }
  replace (Z.of_nat (length pre + length small) - 1 + 1)
    with (Z.of_nat (length pre + length small)) by lia.
  rewrite Hlen.
  destruct big as [|b big].
  - exists small, [].
    replace (length small + length (@nil A))%nat with (length small)
      by (simpl; lia).
    rewrite swap_same by (rewrite !length_app; simpl; lia).
    simpl. split; [|done]. reassoc.
  - exists small, (big ++ [b]).
    replace (pre ++ small ++ (b :: big) ++ pivot :: suf)
      with ((pre ++ small) ++ b :: big ++ pivot :: suf) by reassoc.
    rewrite swap_apart by (rewrite ?length_app; simpl in *; lia). simpl.
    split; [|split; [|split; [done|]]].
    + reassoc.
    + rewrite <- Hperm. solve_Permutation.
    + apply Forall_cons in Hb as [Hb1 Hb2].
      apply Forall_app. split; [done|]. by constructor.
Qed.

Lemma quicksort_inplace_fuel_spec fuel :
  ∀ (pre seg suf : list A) low high,
  (length seg < fuel)%nat →
  low = Z.of_nat (length pre) →
  high = Z.of_nat (length pre + length seg) - 1 →
  ∃ seg',
    quicksort_inplace_fuel fuel (pre ++ seg ++ suf) low high
    = Ok (pre ++ seg' ++ suf) ∧
    seg' ≡ₚ seg ∧ pivot_ordered seg'.
Proof.
  induction fuel as [|fuel IH]; intros pre seg suf low high Hfuel -> ->;
    [lia|].
  simpl. case_bool_decide as Hlt.
  2: { exists seg. split; [done|]. split; [done|]. apply po_short. lia. }
  destruct (exists_last (l := seg)) as (seg0 & pivot & ->).
  { intros ->. simpl in Hlt. lia. }
  rewrite length_app in *. simpl in *.
  destruct (partition_spec pre seg0 suf pivot (Z.of_nat (length pre))
              (Z.of_nat (length pre + (length seg0 + 1)) - 1))
    as (small & big & Hrun & Hperm & Hs & Hb); [done|lia|].
  replace (pre ++ (seg0 ++ [pivot]) ++ suf) with (pre ++ seg0 ++ pivot :: suf)
    by reassoc.
  rewrite Hrun. simpl.
  assert (Hlen : length seg0 = (length small + length big)%nat).
  { by rewrite <- Hperm, length_app. }
  destruct (IH pre small (pivot :: big ++ suf) (Z.of_nat (length pre))
              (Z.of_nat (length pre + length small) - 1))
    as (small' & Hrun1 & Hperm1 & Hpo1); [lia|done|done|].
  rewrite Hrun1. simpl.
  assert (Hlen1 : length small' = length small) by (by rewrite Hperm1).
  destruct (IH (pre ++ small' ++ [pivot]) big suf
              (Z.of_nat (length pre + length small) + 1)
              (Z.of_nat (length pre + (length seg0 + 1)) - 1))
    as (big' & Hrun2 & Hperm2 & Hpo2).
  { lia. }
  { rewrite !length_app. simpl. lia. }
  { rewrite !length_app. simpl. lia. }
  replace (pre ++ small' ++ pivot :: big ++ suf)
    with ((pre ++ small' ++ [pivot]) ++ big ++ suf) by reassoc.
  rewrite Hrun2.
  exists (small' ++ pivot :: big'). split; [f_equal; reassoc|]. split.
  - rewrite Hperm1, Hperm2, <- Hperm. solve_Permutation.
  - apply po_split; [by rewrite Hperm1|by rewrite Hperm2|done..].
Qed.

(** The in-place sort runs to completion on every list, whatever the
    comparison operators answer, and rearranges its argument. *)
Lemma quicksort_inplace_runs fuel (arr : list A) :
  (length arr < fuel)%nat →
  ∃ out, quicksort_inplace fuel arr = Ok out ∧
         out ≡ₚ arr ∧ pivot_ordered out.
Proof.
  intros Hfuel. unfold quicksort_inplace.
  destruct (quicksort_inplace_fuel_spec fuel [] arr [] 0
              (Z.of_nat (length arr) - 1)) as (out & Hrun & Hperm & Hpo);
    [done|done|simpl; lia|].
  simpl in Hrun. rewrite !app_nil_r in Hrun. by exists out.
Qed.

Lemma deref_lookup (σ : gmap nat (list A)) r xs :
  σ !! r = Some xs → deref σ r = xs.
Proof. unfold deref. by intros ->. Qed.

Lemma new_list_spec (v : list A) (σ : gmap nat (list A)) :
  σ !! (new_list v σ).1 = None ∧
  (new_list v σ).2 !! (new_list v σ).1 = Some v ∧
  σ ⊆ (new_list v σ).2.
Proof.
  unfold new_list. simpl.
  assert (Hfresh : σ !! fresh (dom σ) = None).
  { apply not_elem_of_dom, is_fresh. }
  split; [done|]. split; [apply lookup_insert_eq|].
  by apply insert_subseteq.
Qed.

(** The object-level run follows the value-level one: the returned object
    holds the computed list, and the store only grows. *)
Lemma quicksort_store fuel :
  ∀ arr (σ : gmap nat (list A)) xs out,
  σ !! arr = Some xs →
  quicksort_fuel fuel xs = Ok out →
  ∃ r σ', quicksort fuel arr σ = Ok (r, σ') ∧ σ' !! r = Some out ∧ σ ⊆ σ'.
Proof.
  induction fuel as [|fuel IH]; intros arr σ xs out Harr Hrun; [done|].
  simpl in Hrun. cbn [quicksort]. rewrite (deref_lookup _ _ _ Harr).
  case_bool_decide as Hshort.
  { simplify_eq. by exists arr, σ. }
  destruct (py_getitem xs _) as [pivot|]; [|done].
  cbn [mbind res_bind] in *.
  destruct (quicksort_fuel fuel (filter (λ x, py_lt x pivot = true) xs))
    as [l|] eqn:Hl; [|done].
  destruct (quicksort_fuel fuel (filter (λ x, py_gt x pivot = true) xs))
    as [r|] eqn:Hr; [|done].
  cbn [mbind res_bind] in Hrun. simplify_eq.
  destruct (new_list_spec (filter (λ x, py_lt x pivot = true) xs) σ)
    as (_ & Hleft & Hsub1).
  destruct (new_list (filter (λ x, py_lt x pivot = true) xs) σ)
    as [left_ σ1]. cbn [fst snd] in *.
  destruct (new_list_spec (filter (λ x, py_eq x pivot = true) xs) σ1)
    as (_ & Hmiddle & Hsub2).
  destruct (new_list (filter (λ x, py_eq x pivot = true) xs) σ1)
    as [middle σ2]. cbn [fst snd] in *.
  destruct (new_list_spec (filter (λ x, py_gt x pivot = true) xs) σ2)
    as (_ & Hright & Hsub3).
  destruct (new_list (filter (λ x, py_gt x pivot = true) xs) σ2)
    as [right_ σ3]. cbn [fst snd] in *.
  destruct (IH left_ σ3 _ l (lookup_weaken _ _ _ _ (lookup_weaken _ _ _ _ Hleft Hsub2) Hsub3) Hl)
    as (rl & σ4 & -> & Hrl & Hsub4). cbn [mbind res_bind].
  destruct (new_list_spec (deref σ4 rl ++ deref σ4 middle) σ4)
    as (_ & Hlm & Hsub5).
  destruct (new_list (deref σ4 rl ++ deref σ4 middle) σ4) as [lm σ5].
  cbn [fst snd] in *.
  destruct (IH right_ σ5 _ r (lookup_weaken _ _ _ _ (lookup_weaken _ _ _ _ Hright Hsub4) Hsub5) Hr)
    as (rr & σ6 & -> & Hrr & Hsub6). cbn [mbind res_bind].
  destruct (new_list_spec (deref σ6 lm ++ deref σ6 rr) σ6)
    as (_ & Hout & Hsub7).
  destruct (new_list (deref σ6 lm ++ deref σ6 rr) σ6) as [ro σ7].
  cbn [fst snd] in *. exists ro, σ7. split; [done|]. split.
  - rewrite Hout. f_equal.
    rewrite (deref_lookup σ6 lm _ (lookup_weaken _ _ _ _ Hlm Hsub6)).
    rewrite (deref_lookup σ6 rr _ Hrr).
    rewrite (deref_lookup σ4 rl _ Hrl).
    rewrite (deref_lookup σ4 middle _
               (lookup_weaken _ _ _ _ (lookup_weaken _ _ _ _ Hmiddle Hsub3) Hsub4)).
    reassoc.
  - repeat (etrans; [eassumption|]). done.
Qed.

End Run.

Section Order.
Context {A : Type} `{PyTotalOrd A}.

Lemma le_iff x y : le x y ↔ py_lt x y = true ∨ x = y.
Proof.
  unfold le. rewrite py_le_lt, orb_true_iff, py_eq_true. reflexivity.
Qed.

Lemma le_refl x : le x x.
Proof. apply le_iff. by right. Qed.

Lemma lt_le x y : py_lt x y = true → le x y.
Proof. intros. apply le_iff. by left. Qed.

Lemma lt_asym x y : py_lt x y = true → py_lt y x = true → False.
Proof.
  intros Hxy Hyx. pose proof (py_lt_trans _ _ _ Hxy Hyx) as Hxx.
  rewrite py_lt_irrefl in Hxx. discriminate.
Qed.

Lemma not_le_lt x y : py_le x y = false → py_lt y x = true.
Proof.
  rewrite py_le_lt, orb_false_iff. intros [Hlt Heq].
  destruct (py_lt_total x y) as [Hc|[Hc|Hc]]; [congruence| |done].
  apply py_eq_true in Hc. congruence.
Qed.

#[export] Instance le_trans : Transitive (le (A := A)).
Proof.
  intros x y z. rewrite !le_iff. intros [Hxy| ->] [Hyz| ->]; eauto.
  left. eapply py_lt_trans; eauto.
Qed.

#[export] Instance le_antisym : AntiSymm (=) (le (A := A)).
Proof.
  intros x y. rewrite !le_iff. intros [Hxy| ->] [Hyx|Heq]; try done.
  destruct (lt_asym _ _ Hxy Hyx).
Qed.

(** Exactly one of the three comprehensions keeps a given element. *)
Lemma trichotomy x p :
  (py_lt x p = true ∧ py_eq x p = false ∧ py_gt x p = false) ∨
  (py_lt x p = false ∧ py_eq x p = true ∧ py_gt x p = false) ∨
  (py_lt x p = false ∧ py_eq x p = false ∧ py_gt x p = true).
Proof.
  rewrite py_gt_lt.
  destruct (py_lt_total x p) as [Hc|[->|Hc]].
  - left. split; [done|]. split.
    + apply not_true_iff_false. rewrite py_eq_true. intros ->.
      rewrite py_lt_irrefl in Hc. discriminate.
    + apply not_true_iff_false. intros Hc'. eapply lt_asym; eauto.
  - right; left. rewrite py_lt_irrefl. split; [done|]. split; [|done].
    by apply py_eq_true.
  - right; right. split; [|split; [|done]].
    + apply not_true_iff_false. intros Hc'. eapply lt_asym; eauto.
    + apply not_true_iff_false. rewrite py_eq_true. intros ->.
      rewrite py_lt_irrefl in Hc. discriminate.
Qed.

Lemma three_way_split (p : A) (arr : list A) :
  filter (λ x, py_lt x p = true) arr ++
  filter (λ x, py_eq x p = true) arr ++
  filter (λ x, py_gt x p = true) arr ≡ₚ arr.
Proof.
  induction arr as [|x arr IH]; [done|].
  rewrite !filter_cons.
  destruct (trichotomy x p) as [(-> & -> & ->)|[(-> & -> & ->)|(-> & -> & ->)]];
    simpl.
  - by rewrite IH.
  - rewrite <- Permutation_middle. by rewrite IH.
  - rewrite app_assoc, <- Permutation_middle, <- app_assoc. by rewrite IH.
Qed.

(** The functional quicksort returns a sorted rearrangement of its
    argument as soon as the fuel exceeds the length. *)
Lemma quicksort_fuel_spec fuel (arr : list A) :
  (length arr < fuel)%nat →
  ∃ out, quicksort_fuel fuel arr = Ok out ∧
         StronglySorted le out ∧ out ≡ₚ arr.
Proof.
  revert arr. induction fuel as [|fuel IH]; intros arr Hlen; [lia|].
  simpl. case_bool_decide as Hshort.
  { exists arr. split; [done|]. split; [|done].
    destruct arr as [|x [|y arr]]; simpl in *; try lia;
      repeat constructor. }
  destruct (py_getitem_in_range arr (Z.of_nat (length arr) `div` 2))
    as (pivot & -> & Hpivot).
  { split; [apply Z.div_pos; lia|]. apply Z.div_lt_upper_bound; lia. }
  simpl. apply list_elem_of_lookup_2 in Hpivot.
  set (left := filter (λ x, py_lt x pivot = true) arr).
  set (middle := filter (λ x, py_eq x pivot = true) arr).
  set (right := filter (λ x, py_gt x pivot = true) arr).
  destruct (IH left) as (l & -> & Hl & Hlp).
  { assert (length left < length arr)%nat; [|lia].
    apply (length_filter_lt _ _ pivot); [done|].
    by rewrite py_lt_irrefl. }
  destruct (IH right) as (r & -> & Hr & Hrp).
  { assert (length right < length arr)%nat; [|lia].
    apply (length_filter_lt _ _ pivot); [done|].
    by rewrite py_gt_lt, py_lt_irrefl. }
  simpl. exists (l ++ middle ++ r). split; [done|]. split.
  - assert (Hmid : ∀ x, x ∈ middle → x = pivot).
    { intros x [Hx _]%list_elem_of_filter. by apply py_eq_true. }
    assert (Hleft : ∀ x, x ∈ l → py_lt x pivot = true).
    { intros x Hx. rewrite Hlp in Hx.
      by apply list_elem_of_filter in Hx as [Hx _]. }
    assert (Hright : ∀ x, x ∈ r → py_lt pivot x = true).
    { intros x Hx. rewrite Hrp in Hx.
      apply list_elem_of_filter in Hx as [Hx _]. by rewrite py_gt_lt in Hx. }
    apply StronglySorted_app_2; [|done|apply StronglySorted_app_2; [| |done]].
    + intros x1 x2 Hx1 [Hx2|Hx2]%elem_of_app.
      * rewrite (Hmid _ Hx2). apply lt_le; auto.
      * apply lt_le. eapply py_lt_trans; eauto.
    + intros x1 x2 Hx1 Hx2. rewrite (Hmid _ Hx1). apply lt_le; auto.
    + induction middle as [|m middle IHm]; constructor.
      * apply IHm. intros x Hx. apply Hmid. by right.
      * apply Forall_forall. intros x Hx.
        rewrite (Hmid m), (Hmid x); [apply le_refl|by right|by left].
  - rewrite Hlp, Hrp. apply three_way_split.
Qed.

Lemma pivot_ordered_sorted (l : list A) :
  pivot_ordered l → StronglySorted le l.
Proof.
  induction 1 as [l Hl|small p big Hs Hb _ IHs _ IHb].
  - destruct l as [|x [|y l]]; simpl in *; try lia; repeat constructor.
  - apply StronglySorted_app_2; [|done|constructor; [done|]].
    + intros x1 x2 Hx1 Hx2.
      assert (le x1 p) by (by apply (proj1 (Forall_forall _ _) Hs)).
      apply elem_of_cons in Hx2 as [->|Hx2]; [done|].
      etrans; [done|]. apply lt_le, not_le_lt.
      by apply (proj1 (Forall_forall _ _) Hb).
    + eapply Forall_impl; [exact Hb|]. intros x Hx. simpl in Hx.
      by apply lt_le, not_le_lt.
Qed.

Lemma quicksort_inplace_spec fuel (arr : list A) :
  (length arr < fuel)%nat →
  ∃ out, quicksort_inplace fuel arr = Ok out ∧
         StronglySorted le out ∧ out ≡ₚ arr.
Proof.
  intros Hfuel.
  destruct (quicksort_inplace_runs fuel arr Hfuel) as (out & Hrun & Hp & Hpo).
  exists out. eauto using pivot_ordered_sorted.
Qed.

End Order.

(** The demonstration at the end of [quicksort.py]. *)
Example quicksort_demo :
  quicksort_fuel 8 [38; 27; 43; 3; 9; 82; 10] = Ok [3; 9; 10; 27; 38; 43; 82] ∧
  quicksort_inplace 8 [38; 27; 43; 3; 9; 82; 10] = Ok [3; 9; 10; 27; 38; 43; 82].
Proof. split; vm_compute; reflexivity. Qed.

(** C9. For a list of mutually comparable elements held by the object [arr],
    [quicksort(arr)] returns a list object whose contents are sorted in
    non-decreasing order and are a permutation of the contents of [arr];
    after the call [arr] holds what it held before, as does every other
    object that existed (the store only grows). *)
Theorem quicksort_sorted_permutation
  {A : Type} `{PyTotalOrd A} (fuel : nat) (arr : nat)
  (σ : gmap nat (list A)) (xs : list A) :
  σ !! arr = Some xs →
  (length xs < fuel)%nat →
  ∃ r σ' out,
    quicksort fuel arr σ = Ok (r, σ') ∧
    σ' !! r = Some out ∧
    StronglySorted le out ∧ out ≡ₚ xs ∧
    σ' !! arr = Some xs ∧ σ ⊆ σ'.
Proof.
  intros Harr Hfuel.
  destruct (quicksort_fuel_spec fuel xs Hfuel) as (out & Hrun & Hsorted & Hperm).
  destruct (quicksort_store fuel arr σ xs out Harr Hrun) as (r & σ' & Hobj & Hr & Hsub).
  exists r, σ', out. repeat split; try done.
  by eapply lookup_weaken.
Qed.

Lemma quicksort_sorted_permutation_witness :
  ∃ r σ' out,
    quicksort 8%nat 0%nat {[0%nat := [38; 27; 43; 3; 9; 82; 10]]} = Ok (r, σ') ∧
    σ' !! r = Some out ∧
    StronglySorted le out ∧ out ≡ₚ [38; 27; 43; 3; 9; 82; 10] ∧
    σ' !! 0%nat = Some [38; 27; 43; 3; 9; 82; 10] ∧
    ({[0%nat := [38; 27; 43; 3; 9; 82; 10]]} : gmap nat (list Z)) ⊆ σ'.
Proof.
  apply (quicksort_sorted_permutation (A := Z) 8 0
           {[0%nat := [38; 27; 43; 3; 9; 82; 10]]} [38; 27; 43; 3; 9; 82; 10]).
  - reflexivity.
  - simpl. lia.
Defined.

(** C10. [quicksort_inplace] runs to completion on every list, whatever the
    comparison operators answer; and on a list of mutually comparable
    elements the list it leaves behind is the list [quicksort] returns. *)
Theorem quicksort_variants_agree
  {A : Type} `{PyOrd A} (fuel1 fuel2 : nat) (arr : list A) :
  (length arr < fuel1)%nat →
  (length arr < fuel2)%nat →
  (∃ out, quicksort_inplace fuel2 arr = Ok out) ∧
  (PyTotalOrd A →
   ∃ out, quicksort_fuel fuel1 arr = Ok out ∧
          quicksort_inplace fuel2 arr = Ok out).
Proof.
  intros Hf1 Hf2. split.
  - destruct (quicksort_inplace_runs fuel2 arr Hf2) as (out & Hrun & _).
    by exists out.
  - intros Hlaws.
    destruct (quicksort_fuel_spec fuel1 arr Hf1) as (out1 & Hrun1 & Hs1 & Hp1).
    destruct (quicksort_inplace_spec fuel2 arr Hf2) as (out2 & Hrun2 & Hs2 & Hp2).
    exists out1. split; [done|]. rewrite Hrun2. f_equal.
    apply (StronglySorted_unique le); [done..|]. by rewrite Hp1, Hp2.
Qed.

Lemma quicksort_variants_agree_witness :
  (∃ out, quicksort_inplace 8 [38; 27; 43; 3; 9; 82; 10] = Ok out) ∧
  (∃ out, quicksort_fuel 8 [38; 27; 43; 3; 9; 82; 10] = Ok out ∧
          quicksort_inplace 8 [38; 27; 43; 3; 9; 82; 10] = Ok out).
Proof.
  destruct (quicksort_variants_agree (A := Z) 8 8 [38; 27; 43; 3; 9; 82; 10])
    as [Hruns Hagree]; [simpl; lia..|].
  split; [exact Hruns|exact (Hagree Z_PyTotalOrd)].
Defined.

End QuicksortProofs.

(** ** Part IV: properties of the SFTP engine *)

Module SftpProofs.
Import Sftp.

(** Closes [ev ∉ [e1; ...; en]] when [ev] differs from each by its
    constructor. *)
Ltac absent :=
  let Hin := fresh "Hin" in
  intros Hin;
  repeat (apply elem_of_cons in Hin as [Hin|Hin]; [discriminate Hin|]);
  by apply elem_of_nil in Hin.

(** *** The monad *)

Section Monad.
Context {S : Type}.

Lemma bind_ok {T U} (m : M S T) (k : T → M S U) s v s1 t1 :
  m s = (Ok v, s1, t1) →
  bind m k s = (let '(r, s2, t2) := k v s1 in (r, s2, t1 ++ t2)).
Proof. unfold bind. by intros ->. Qed.

Lemma bind_raise {T U} (m : M S T) (k : T → M S U) s e s1 t1 :
  m s = (Raise e, s1, t1) → bind m k s = (Raise e, s1, t1).
Proof. unfold bind. by intros ->. Qed.

Lemma for_each_nil {X} (body : X → M S unit) s :
  for_each [] body s = (Ok tt, s, []).
Proof. done. Qed.

Lemma for_each_cons {X} (x : X) xs (body : X → M S unit) :
  for_each (x :: xs) body = (body x;; for_each xs body).
Proof. done. Qed.

(** A loop that ends normally ran its body, normally, on every element;
    the events of each round are among those of the loop. *)
Lemma for_each_ok_elem {X} (xs : list X) (body : X → M S unit) x :
  ∀ s s' t,
  for_each xs body s = (Ok tt, s', t) →
  x ∈ xs →
  ∃ s1 s2 t1, body x s1 = (Ok tt, s2, t1) ∧ t1 ⊆ t.
Proof.
  induction xs as [|y xs IH]; intros s s' t Hrun Hx; [by inv Hx|].
  rewrite for_each_cons in Hrun. unfold bind in Hrun.
  destruct (body y s) as [[[[]|e] s1] t1] eqn:Hy; [|done].
  destruct (for_each xs body s1) as [[r s2] t2] eqn:Hrest.
  simplify_eq.
  apply elem_of_cons in Hx as [->|Hx].
  - exists s, s1, t1. split; [done|]. set_solver.
  - destruct (IH _ _ _ Hrest Hx) as (sa & sb & ta & Ha & Hsub).
    exists sa, sb, ta. split; [done|]. set_solver.
Qed.

End Monad.

(** *** Dispatch: [upload], [download] and [_is_remote_dir] *)

(** C5. When the local path does not exist, [upload] ends in the
    [SystemExit] that reports it, with the state untouched and an empty
    trace: no call reached the session. *)
Theorem upload_missing_local_path
  {S : Type} (sftp : Session S) (fs : LocalView)
  (local_path remote_path : string) (s : S) :
  local_lookup fs (expanduser fs local_path) = None →
  upload sftp fs local_path remote_path s
  = (Raise (SystemExit ("Local path does not exist: "
                        +:+ expanduser fs local_path)), s, []).
Proof.
  intros Hmissing. unfold upload, os_path_exists. rewrite Hmissing.
  rewrite bool_decide_false by (by intros [? ?]). done.
Qed.

Lemma upload_missing_local_path_witness :
  upload disk_session demo_view "missing" "/home/u/target" empty_disk
  = (Raise (SystemExit "Local path does not exist: missing"), empty_disk, []).
Proof.
  apply (upload_missing_local_path disk_session demo_view
           "missing" "/home/u/target" empty_disk).
  reflexivity.
Defined.

(** C6. [_is_remote_dir] makes one [stat] call and answers by it: not found
    becomes the [SystemExit] that reports the missing remote path, and
    nothing else does; any other error is raised as it came; a mode is
    classified by its directory bits.  [download] on a path whose [stat]
    reports not found ends in that same [SystemExit] after the one call. *)
Theorem is_remote_dir_classifies
  {S : Type} (sftp : Session S) (remote_path : string) (s : S) :
  _is_remote_dir sftp remote_path s
  = (match sftp_stat sftp remote_path s with
     | inl ENOENT =>
         Raise (SystemExit ("Remote path does not exist: " +:+ remote_path))
     | inl (EOTHER msg) => Raise (OSError (EOTHER msg))
     | inr st_mode => Ok (S_ISDIR st_mode)
     end, s, [EvStat remote_path (sftp_stat sftp remote_path s)])
  ∧ ((∃ msg, (_is_remote_dir sftp remote_path s).1.1 = Raise (SystemExit msg))
     ↔ sftp_stat sftp remote_path s = inl ENOENT)
  ∧ (∀ (fs : LocalView) (local_path : string),
       sftp_stat sftp remote_path s = inl ENOENT →
       download sftp fs remote_path local_path s
       = (Raise (SystemExit ("Remote path does not exist: " +:+ remote_path)),
          s, [EvStat remote_path (inl ENOENT)])).
Proof.
  assert (Hrun : _is_remote_dir sftp remote_path s
    = (match sftp_stat sftp remote_path s with
       | inl ENOENT =>
           Raise (SystemExit ("Remote path does not exist: " +:+ remote_path))
       | inl (EOTHER msg) => Raise (OSError (EOTHER msg))
       | inr st_mode => Ok (S_ISDIR st_mode)
       end, s, [EvStat remote_path (sftp_stat sftp remote_path s)])).
  { unfold _is_remote_dir, bind, except_FileNotFoundError, stat, raise, ret.
    destruct (sftp_stat sftp remote_path s) as [[|msg]|st_mode]; done. }
  split; [done|]. split.
  - rewrite Hrun. simpl.
    destruct (sftp_stat sftp remote_path s) as [[|msg]|st_mode];
      split; try done; try (by intros [? ?]). by eexists.
  - intros fs local_path Hstat. unfold download, bind.
    rewrite Hrun, Hstat. done.
Qed.

(** The run of [download] on a remote path that is there and is not a
    directory: one [stat], [Path.mkdir] on the parent of the resolved local
    path, one [get] to the local path as it was given, and no listing; a
    failing step ends the run where it fails. *)
Lemma download_single_file
  {S : Type} (sftp : Session S) (fs : LocalView)
  (remote_path local_path : string) (s : S) (st_mode : Z) :
  sftp_stat sftp remote_path s = inr st_mode →
  S_ISDIR st_mode = false →
  let local_parent := parent (resolve fs local_path) in
  let classified := EvStat remote_path (inr st_mode) in
  download sftp fs remote_path local_path s
  = match path_mkdir sftp local_parent s with
    | inl e =>
        (Raise (OSError e), s,
         [classified; EvPathMkdir local_parent (inl e)])
    | inr s1 =>
        match sftp_get sftp remote_path (Raw local_path) s1 with
        | inl e =>
            (Raise (OSError e), s1,
             [classified; EvPathMkdir local_parent (inr tt);
              EvGet remote_path (Raw local_path) (inl e)])
        | inr s2 =>
            (Ok tt, s2,
             [classified; EvPathMkdir local_parent (inr tt);
              EvGet remote_path (Raw local_path) (inr tt)])
        end
    end
  ∧ ∀ path r,
      EvListdirAttr path r ∉ (download sftp fs remote_path local_path s).2.
Proof.
  intros Hstat Hfile local_parent classified.
  assert (Hrun : download sftp fs remote_path local_path s
    = match path_mkdir sftp local_parent s with
      | inl e =>
          (Raise (OSError e), s,
           [classified; EvPathMkdir local_parent (inl e)])
      | inr s1 =>
          match sftp_get sftp remote_path (Raw local_path) s1 with
          | inl e =>
              (Raise (OSError e), s1,
               [classified; EvPathMkdir local_parent (inr tt);
                EvGet remote_path (Raw local_path) (inl e)])
          | inr s2 =>
              (Ok tt, s2,
               [classified; EvPathMkdir local_parent (inr tt);
                EvGet remote_path (Raw local_path) (inr tt)])
          end
      end).
  { unfold download, bind.
    destruct (is_remote_dir_classifies sftp remote_path s) as (-> & _).
    rewrite Hstat, Hfile. unfold Path_mkdir, get, effect.
    fold local_parent.
    destruct (path_mkdir sftp local_parent s) as [e|s1]; [done|].
    destruct (sftp_get sftp remote_path (Raw local_path) s1) as [e|s2]; done. }
  split; [done|]. intros path r. rewrite Hrun.
  destruct (path_mkdir sftp local_parent s) as [e|s1]; simpl;
    [absent|].
  destruct (sftp_get sftp remote_path (Raw local_path) s1) as [e|s2]; simpl;
    absent.
Qed.

Lemma download_single_file_witness :
  (download disk_session demo_view "/r/onefile.txt" "/local/out.txt"
            demo_remote_disk).2
  = [EvStat "/r/onefile.txt" (inr file_mode);
     EvPathMkdir ["local"] (inr tt);
     EvGet "/r/onefile.txt" (Raw "/local/out.txt") (inr tt)]
  ∧ ∀ path r, EvListdirAttr path r ∉
      (download disk_session demo_view "/r/onefile.txt" "/local/out.txt"
                demo_remote_disk).2.
Proof.
  assert (Hstat : sftp_stat disk_session "/r/onefile.txt" demo_remote_disk
                  = inr file_mode) by (vm_compute; reflexivity).
  assert (Hfile : S_ISDIR file_mode = false) by (vm_compute; reflexivity).
  destruct (download_single_file disk_session demo_view "/r/onefile.txt"
              "/local/out.txt" demo_remote_disk file_mode Hstat Hfile)
    as [Hrun Hnone].
  split; [|exact Hnone]. rewrite Hrun. vm_compute. reflexivity.
Defined.

(** *** Strings and [_join_remote] *)

Lemma chars_app (a b : string) : chars (a +:+ b) = chars a ++ chars b.
Proof.
  induction a as [|c a IH]; [done|].
  change (String c a +:+ b) with (String c (a +:+ b)).
  unfold chars in *. simpl. by rewrite IH.
Qed.

Lemma append_assoc (a b c : string) : (a +:+ b) +:+ c = a +:+ b +:+ c.
Proof.
  induction a as [|x a IH]; [done|].
  change (String x a +:+ b) with (String x (a +:+ b)).
  change (String x (a +:+ b) +:+ c) with (String x ((a +:+ b) +:+ c)).
  change (String x a +:+ b +:+ c) with (String x (a +:+ b +:+ c)).
  by rewrite IH.
Qed.

Lemma append_empty_r (a : string) : a +:+ "" = a.
Proof.
  induction a as [|x a IH]; [done|].
  change (String x a +:+ "") with (String x (a +:+ "")). by rewrite IH.
Qed.

Lemma chars_text (cs : list ascii) : chars (text cs) = cs.
Proof. apply list_ascii_of_string_of_list_ascii. Qed.

Lemma text_chars (s : string) : text (chars s) = s.
Proof. apply string_of_list_ascii_of_string. Qed.

Lemma chars_nil (s : string) : chars s = [] ↔ s = "".
Proof. destruct s; split; done. Qed.

Lemma endswith_sep_app (a b : string) :
  b ≠ "" → endswith_sep (a +:+ b) = endswith_sep b.
Proof.
  intros Hb. unfold endswith_sep. rewrite chars_app, reverse_app.
  destruct (reverse (chars b)) as [|c cs] eqn:Hrev; [|done].
  apply (f_equal reverse) in Hrev. rewrite reverse_involutive in Hrev.
  by apply chars_nil in Hrev.
Qed.

Lemma posixpath_join_plain (p : list string) :
  ∀ a, a ≠ "" → Forall (λ b, b ≠ "") p → plain_fragments (a :: p) = true →
  posixpath_join a p = String.concat "/" (a :: p).
Proof.
  unfold posixpath_join.
  induction p as [|b p IH]; intros a Ha Hne Hplain; [done|].
  apply Forall_cons in Hne as [Hb Hne].
  cbn [plain_fragments] in Hplain.
  apply andb_true_iff in Hplain as [Hab Hplain].
  apply andb_true_iff in Hab as [Hae Hbs].
  apply negb_true_iff in Hae, Hbs.
  cbn [fold_left]. unfold join_step at 2.
  rewrite Hbs, Hae, bool_decide_false by done. cbn [orb].
  rewrite IH; [| |done|].
  - cbn [String.concat]. destruct p as [|c p].
    + done.
    + by rewrite !append_assoc.
  - by destruct a.
  - destruct p as [|c p]; [done|].
    cbn [plain_fragments] in *.
    rewrite <- append_assoc, endswith_sep_app by done. done.
Qed.

Lemma replace_backslash_clean (s : string) :
  ascii_of_nat 92 ∉ chars (replace_backslash s).
Proof.
  unfold replace_backslash. rewrite chars_text.
  intros (c & Hc & _)%list_elem_of_fmap.
  destruct (Ascii.eqb_spec c (ascii_of_nat 92)); [discriminate|done].
Qed.

Lemma text_app (l k : list ascii) : text (l ++ k) = text l +:+ text k.
Proof. induction l as [|c l IH]; [done|]. simpl. by rewrite IH. Qed.

Lemma replace_backslash_chars (s : string) :
  chars (replace_backslash s)
  = (λ c, if Ascii.eqb c (ascii_of_nat 92) then "/"%char else c) <$> chars s.
Proof. unfold replace_backslash. by rewrite chars_text. Qed.

Lemma replace_backslash_app (a b : string) :
  replace_backslash (a +:+ b) = replace_backslash a +:+ replace_backslash b.
Proof. unfold replace_backslash. by rewrite chars_app, fmap_app, text_app. Qed.

Lemma filter_nonempty_id (l : list string) :
  Forall (λ b, b ≠ "") l → filter (λ part, part ≠ "") l = l.
Proof.
  induction 1 as [|b l Hb _ IH]; [done|].
  by rewrite filter_cons_True, IH.
Qed.

Lemma filter_nonempty (parts : list string) :
  Forall (λ b, b ≠ "") (filter (λ part, part ≠ "") parts).
Proof. apply Forall_forall. by intros x [Hx _]%list_elem_of_filter. Qed.

Lemma join_remote_nonempty (l : list string) :
  Forall (λ b, b ≠ "") l →
  _join_remote l = match l with
                   | [] => ""
                   | a :: p => replace_backslash (posixpath_join a p)
                   end.
Proof. intros Hl. unfold _join_remote. by rewrite filter_nonempty_id. Qed.

Lemma posixpath_join_snoc (a : string) (p : list string) (b : string) :
  posixpath_join a (p ++ [b]) = join_step (posixpath_join a p) b.
Proof. unfold posixpath_join. by rewrite fold_left_app. Qed.

(** A round of the loop on a non-empty fragment ends as the fragment
    does. *)
Lemma join_step_ends (path b : string) :
  b ≠ "" →
  join_step path b ≠ ""
  ∧ endswith_sep (join_step path b) = endswith_sep b.
Proof.
  intros Hb. unfold join_step. destruct (startswith_sep b); [done|].
  destruct (_ || _).
  - split; [by destruct path, b|by apply endswith_sep_app].
  - split; [by destruct path|].
    rewrite <-append_assoc. by apply endswith_sep_app.
Qed.

(** One more fragment, by the rule of [posixpath.join]. *)
Lemma join_remote_snoc (pre : list string) (a b : string) :
  Forall (λ b, b ≠ "") (pre ++ [a; b]) →
  _join_remote (pre ++ [a; b])
  = if startswith_sep b then replace_backslash b
    else if endswith_sep a
         then _join_remote (pre ++ [a]) +:+ replace_backslash b
         else _join_remote (pre ++ [a]) +:+ "/" +:+ replace_backslash b.
Proof.
  intros Hne.
  assert (Hpre : Forall (λ b, b ≠ "") (pre ++ [a]) ∧ b ≠ "").
  { apply Forall_app in Hne as [Hp Hab].
    apply Forall_cons in Hab as [Ha Hb]. apply Forall_cons in Hb as [Hb _].
    split; [|done]. apply Forall_app. split; [done|]. by constructor. }
  destruct Hpre as [Hpre Hb].
  rewrite (join_remote_nonempty _ Hne), (join_remote_nonempty _ Hpre).
  change (pre ++ [a; b]) with (pre ++ [a] ++ [b]). rewrite app_assoc.
  assert (Hends : ∀ x rest, pre ++ [a] = x :: rest →
                  posixpath_join x rest ≠ ""
                  ∧ endswith_sep (posixpath_join x rest) = endswith_sep a).
  { intros x rest Hcut. apply Forall_app in Hpre as [_ Ha].
    apply Forall_cons in Ha as [Ha _].
    destruct pre as [|y pre']; simplify_eq/=; [done|].
    rewrite posixpath_join_snoc. by apply join_step_ends. }
  destruct (pre ++ [a]) as [|x rest] eqn:Hcut; [by destruct pre|].
  destruct (Hends x rest eq_refl) as [Hsome Hend].
  cbn [app]. rewrite posixpath_join_snoc. unfold join_step.
  destruct (startswith_sep b); [done|].
  rewrite bool_decide_false by done. cbn [orb]. rewrite Hend.
  destruct (endswith_sep a); by rewrite !replace_backslash_app.
Qed.

(** A fragment that begins with a slash starts the path afresh. *)
Lemma join_remote_absolute (pre : list string) (b : string)
  (post : list string) :
  startswith_sep b = true →
  _join_remote (pre ++ b :: post) = _join_remote (b :: post).
Proof.
  intros Hb. assert (Hne : b ≠ "") by (by destruct b).
  unfold _join_remote.
  rewrite filter_app, !(filter_cons_True _ b) by done.
  destruct (filter _ pre) as [|x rest]; [done|].
  cbn [app]. f_equal. unfold posixpath_join.
  rewrite fold_left_app. cbn [fold_left]. f_equal.
  unfold join_step. by rewrite Hb.
Qed.

(** C7, as the code has it.  [_join_remote] looks at the non-empty
    fragments only and returns the empty string when none remains.  One
    fragment alone is returned with its backslashes turned into slashes.
    Each further fragment [b] is added by the rule of [posixpath.join]:
    when [b] begins with a slash the result is [b] alone, with its
    backslashes turned, and likewise a fragment that begins with a slash
    discards all that precedes it wherever it stands; otherwise [b] is
    appended to the result for the fragments before it, directly when the
    fragment before it ends with a slash and after one slash when it does
    not.  Turning backslashes keeps the length and changes no other
    character, so the result holds no backslash.  On fragments that
    neither begin (after the first) nor end (before the last) with a
    slash the result is the fragments joined by single slashes,
    backslashes turned into slashes. *)
Theorem join_remote_plain (parts : list string) :
  let cleaned := filter (λ part, part ≠ "") parts in
  _join_remote parts = _join_remote cleaned
  ∧ (cleaned = [] → _join_remote parts = "")
  ∧ (∀ a, cleaned = [a] → _join_remote parts = replace_backslash a)
  ∧ (∀ pre a b, cleaned = pre ++ [a; b] →
     _join_remote parts
     = if startswith_sep b then replace_backslash b
       else if endswith_sep a
            then _join_remote (pre ++ [a]) +:+ replace_backslash b
            else _join_remote (pre ++ [a]) +:+ "/" +:+ replace_backslash b)
  ∧ (∀ pre b post, parts = pre ++ b :: post → startswith_sep b = true →
     _join_remote parts = _join_remote (b :: post))
  ∧ (∀ s,
     length (chars (replace_backslash s)) = length (chars s)
     ∧ ∀ i c, chars s !! i = Some c →
         chars (replace_backslash s) !! i
         = Some (if Ascii.eqb c (ascii_of_nat 92) then "/"%char else c))
  ∧ (ascii_of_nat 92 ∉ chars (_join_remote parts))
  ∧ (plain_fragments cleaned = true →
     _join_remote parts = joinRemote_spec parts).
Proof.
  intros cleaned.
  assert (Hne : Forall (λ b, b ≠ "") cleaned) by apply filter_nonempty.
  assert (Hsame : _join_remote parts = _join_remote cleaned).
  { unfold _join_remote. fold cleaned. by rewrite (filter_nonempty_id cleaned). }
  split; [done|]. split; [|split; [|split; [|split; [|split; [|split]]]]].
  - intros Hnil. by rewrite Hsame, Hnil.
  - intros a Ha. by rewrite Hsame, (join_remote_nonempty _ Hne), Ha.
  - intros pre a b Hcut. rewrite Hsame, Hcut. apply join_remote_snoc.
    by rewrite <-Hcut.
  - intros pre b post -> Hb. by apply join_remote_absolute.
  - intros s. rewrite replace_backslash_chars. split; [apply length_fmap|].
    intros i c Hc. by rewrite list_lookup_fmap, Hc.
  - unfold _join_remote. destruct (filter _ parts) as [|a p].
    + by intros ?%elem_of_nil.
    + apply replace_backslash_clean.
  - unfold _join_remote, joinRemote_spec. fold cleaned.
    destruct cleaned as [|a p]; [done|].
    apply Forall_cons in Hne as [Ha Hp].
    intros Hplain. by rewrite posixpath_join_plain.
Qed.

Lemma join_remote_plain_witness :
  _join_remote ["/home/u/target"; ""; "sub"] = "/home/u/target/sub"
  ∧ _join_remote [""; ""] = ""
  ∧ _join_remote ["/a/"; "b"] = "/a/" +:+ "b"
  ∧ _join_remote ["a"; "/b"; "c"] = _join_remote ["/b"; "c"].
Proof.
  destruct (join_remote_plain ["/home/u/target"; ""; "sub"])
    as (_ & _ & _ & _ & _ & _ & _ & Heq).
  destruct (join_remote_plain [""; ""]) as (_ & Hempty & _).
  destruct (join_remote_plain ["/a/"; "b"]) as (_ & _ & _ & Hnext & _).
  destruct (join_remote_plain ["a"; "/b"; "c"])
    as (_ & _ & _ & _ & Habs & _).
  split; [|split; [|split]].
  - rewrite Heq by (vm_compute; reflexivity). vm_compute. reflexivity.
  - apply Hempty. vm_compute. reflexivity.
  - rewrite (Hnext [] "/a/" "b") by reflexivity. vm_compute. reflexivity.
  - apply (Habs ["a"] "/b" ["c"]); reflexivity.
Defined.

(** C7, as the spec words it, fails: a fragment that begins with a slash
    discards what came before it, and no slash is added after a fragment
    that ends with one. *)
Lemma join_remote_not_plain_join :
  _join_remote ["a"; "/b"] = "/b"
  ∧ joinRemote_spec ["a"; "/b"] = "a//b"
  ∧ _join_remote ["/a/"; "b"] = "/a/b"
  ∧ joinRemote_spec ["/a/"; "b"] = "/a//b"
  ∧ ¬ (∀ parts, _join_remote parts = joinRemote_spec parts).
Proof.
  repeat split; try (vm_compute; reflexivity).
  intros Hall. specialize (Hall ["a"; "/b"]). vm_compute in Hall. discriminate.
Qed.

(** *** [_ensure_remote_dir] *)

Lemma length_chars (s : string) : String.length s = length (chars s).
Proof. induction s as [|c s IH]; [done|]. simpl. by rewrite IH. Qed.

Lemma drop_while_length f cs : (length (drop_while f cs) ≤ length cs)%nat.
Proof.
  induction cs as [|c cs IH]; [done|]. simpl. destruct (f c); simpl; lia.
Qed.

Lemma drop_while_head f c cs :
  f c = true → (length (drop_while f (c :: cs)) < length (c :: cs))%nat.
Proof.
  intros Hc. simpl. rewrite Hc. pose proof (drop_while_length f cs). lia.
Qed.

Lemma drop_while_stops f cs c cs' :
  drop_while f cs = c :: cs' → f c = false.
Proof.
  induction cs as [|x cs IH]; [done|]. simpl.
  destruct (f x) eqn:Hx; [done|]. by intros [= -> ->].
Qed.

(** [dirname] never lengthens a path, and a path it does not shorten is a
    path it returns unchanged. *)
Lemma dirname_length (p : string) :
  (String.length (dirname p) ≤ String.length p)%nat
  ∧ (String.length (dirname p) = String.length p → dirname p = p).
Proof.
  unfold dirname. rewrite !length_chars.
  set (rhead := drop_while (λ c, negb (is_sep c)) (reverse (chars p))).
  assert (Hrhead : (length rhead ≤ length (chars p))%nat).
  { unfold rhead. etrans; [apply drop_while_length|]. by rewrite length_reverse. }
  destruct (negb (bool_decide (rhead = [])) && negb (forallb is_sep rhead))
    eqn:Hstrip; rewrite chars_text, length_reverse.
  - apply andb_true_iff in Hstrip as [Hne _].
    apply negb_true_iff, bool_decide_eq_false in Hne.
    destruct rhead as [|c cs] eqn:Hr; [done|].
    assert (Hc : is_sep c = true).
    { apply drop_while_stops in Hr. by apply negb_false_iff in Hr. }
    pose proof (drop_while_head is_sep c cs Hc). split; lia.
  - split; [done|]. intros Hlen.
    assert (Hall : rhead = reverse (chars p)).
    { unfold rhead in *. clear Hstrip Hrhead.
      rewrite <- (length_reverse (chars p)) in Hlen.
      destruct (reverse (chars p)) as [|c cs]; [done|]. simpl in *.
      destruct (negb (is_sep c)); [|done].
      pose proof (drop_while_length (λ c, negb (is_sep c)) cs). lia. }
    by rewrite Hall, reverse_involutive, text_chars.
Qed.

Lemma collect_parts_mono fuel :
  ∀ fuel' p parts, collect_parts fuel p = Some parts → (fuel ≤ fuel')%nat →
  collect_parts fuel' p = Some parts.
Proof.
  induction fuel as [|fuel IH]; intros fuel' p parts Hrun Hle.
  - destruct fuel'; simpl in *; case_bool_decide; done.
  - destruct fuel' as [|fuel']; [lia|]. simpl in *.
    case_bool_decide; [done|].
    destruct (collect_parts fuel (dirname p)) as [l|] eqn:Hl; [|done].
    by rewrite (IH fuel' _ l Hl) by lia.
Qed.

Lemma collect_parts_stuck fuel p :
  p ∉ [""; "/"] → dirname p = p → collect_parts fuel p = None.
Proof.
  intros Hp Hfix. induction fuel as [|fuel IH]; simpl;
    rewrite bool_decide_false by done; [done|].
  by rewrite Hfix, IH.
Qed.

(** The fuel [_ensure_remote_dir] gives its loop, the length of the path,
    is enough whenever any fuel is: when the model says [Hang], the loop
    of the code does not end. *)
Lemma collect_parts_hang fuel :
  ∀ p parts, collect_parts fuel p = Some parts →
  collect_parts (String.length p) p = Some parts.
Proof.
  induction fuel as [|fuel IH]; intros p parts Hrun.
  - simpl in Hrun. case_bool_decide as Hp; [|done].
    destruct (String.length p); simpl; by rewrite bool_decide_true.
  - simpl in Hrun. case_bool_decide as Hp.
    { destruct (String.length p); simpl; by rewrite bool_decide_true. }
    destruct (collect_parts fuel (dirname p)) as [l|] eqn:Hl; [|done].
    destruct (dirname_length p) as [Hle Hfix].
    destruct (decide (String.length (dirname p) = String.length p)) as [Heq|Hlt].
    { rewrite (Hfix Heq) in Hl.
      by rewrite (collect_parts_stuck fuel p Hp (Hfix Heq)) in Hl. }
    destruct (String.length p) as [|n] eqn:Hn; [lia|].
    simpl. rewrite bool_decide_false by done.
    rewrite (collect_parts_mono _ n _ l (IH _ _ Hl)) by lia. done.
Qed.

Section Ensure.
Context {S : Type} (sftp : Session S).

Lemma level_run directory s :
  level sftp directory s
  = match sftp_stat sftp directory s with
    | inr st_mode => (Ok tt, s, [EvStat directory (inr st_mode)])
    | inl ENOENT =>
        match sftp_mkdir sftp directory s with
        | inr s' => (Ok tt, s', [EvStat directory (inl ENOENT);
                                 EvMkdir directory (inr tt)])
        | inl e => (Raise (OSError e), s,
                    [EvStat directory (inl ENOENT);
                     EvMkdir directory (inl e)])
        end
    | inl (EOTHER msg) =>
        (Raise (OSError (EOTHER msg)), s,
         [EvStat directory (inl (EOTHER msg))])
    end.
Proof.
  unfold level, except_FileNotFoundError, bind, stat, mkdir, effect, ret.
  destruct (sftp_stat sftp directory s) as [[|msg]|st_mode]; simpl; [|done..].
  destruct (sftp_mkdir sftp directory s); done.
Qed.

Lemma ensure_run remote_dir s :
  _ensure_remote_dir sftp remote_dir s
  = if bool_decide (remote_dir ∈ [""; "."]) then
      (Ok tt, s, [EvEnsureRemoteDir remote_dir])
    else
      match collect_parts (String.length remote_dir) remote_dir with
      | None => (Raise Hang, s, [EvEnsureRemoteDir remote_dir])
      | Some parts =>
          let '(r, s', t) := for_each (reverse parts) (level sftp) s in
          (r, s', EvEnsureRemoteDir remote_dir :: t)
      end.
Proof.
  unfold _ensure_remote_dir, bind, emit. case_bool_decide; [done|].
  destruct (collect_parts _ _); done.
Qed.

End Ensure.

Section Idempotence.
Context {S : Type} (sftp : Session S) `{!KeepsDirectories sftp}.

Lemma level_keeps directory s s' t q m :
  level sftp directory s = (Ok tt, s', t) →
  sftp_stat sftp q s = inr m → ∃ m', sftp_stat sftp q s' = inr m'.
Proof.
  rewrite level_run. intros Hrun Hq.
  destruct (sftp_stat sftp directory s) as [[|msg]|st_mode];
    [|done|simplify_eq; eauto].
  destruct (sftp_mkdir sftp directory s) as [e|s1] eqn:Hmk; [done|].
  simplify_eq. eapply mkdir_keeps; eauto.
Qed.

Lemma level_exists directory s s' t :
  level sftp directory s = (Ok tt, s', t) →
  ∃ m, sftp_stat sftp directory s' = inr m.
Proof.
  rewrite level_run. intros Hrun.
  destruct (sftp_stat sftp directory s) as [[|msg]|st_mode] eqn:Hst;
    [|done|simplify_eq; eauto].
  destruct (sftp_mkdir sftp directory s) as [e|s1] eqn:Hmk; [done|].
  simplify_eq. eapply mkdir_then_stat; eauto.
Qed.

(** After the loop ran to its end, every level it went through is there,
    and so is whatever was there before. *)
Lemma levels_exist (dirs : list string) :
  ∀ s s' t,
  for_each dirs (level sftp) s = (Ok tt, s', t) →
  (∀ q m, sftp_stat sftp q s = inr m → ∃ m', sftp_stat sftp q s' = inr m')
  ∧ (∀ d, d ∈ dirs → ∃ m, sftp_stat sftp d s' = inr m).
Proof.
  induction dirs as [|d dirs IH]; intros s s' t Hrun.
  { rewrite for_each_nil in Hrun. simplify_eq.
    split; [eauto|]. by intros d ?%elem_of_nil. }
  rewrite for_each_cons in Hrun. unfold bind in Hrun.
  destruct (level sftp d s) as [[[[]|e] s1] t1] eqn:Hd; [|done].
  destruct (for_each dirs (level sftp) s1) as [[r s2] t2] eqn:Hrest.
  simplify_eq. destruct (IH _ _ _ Hrest) as [Hkeep Hall]. split.
  - intros q m Hq.
    destruct (level_keeps _ _ _ _ _ _ Hd Hq) as [m1 Hq1]. eauto.
  - intros d' [->|Hd']%elem_of_cons; [|eauto].
    destruct (level_exists _ _ _ _ Hd) as [m1 Hd1]. eauto.
Qed.

(** A loop over levels that are all there only [stat]s them. *)
Lemma levels_present (dirs : list string) s :
  (∀ d, d ∈ dirs → ∃ m, sftp_stat sftp d s = inr m) →
  ∃ t, for_each dirs (level sftp) s = (Ok tt, s, t) ∧ mkdir_calls t = [].
Proof.
  induction dirs as [|d dirs IH]; intros Hall.
  { by exists []. }
  destruct (Hall d) as [m Hd]; [by left|].
  destruct IH as (t & Hrun & Hnone).
  { intros d' Hd'. apply Hall. by right. }
  exists (EvStat d (inr m) :: t). split; [|done].
  rewrite for_each_cons. unfold bind. by rewrite level_run, Hd, Hrun.
Qed.

End Idempotence.

(** C3. On a server that keeps what it has, a call of [_ensure_remote_dir]
    that follows a call which ended normally, for the same path, ends
    normally as well, leaves the state as it found it, and issues no
    [mkdir]. *)
Theorem ensure_remote_dir_idempotent
  {S : Type} (sftp : Session S) `{!KeepsDirectories sftp}
  (remote_dir : string) (s s1 : S) (t1 : list event) :
  _ensure_remote_dir sftp remote_dir s = (Ok tt, s1, t1) →
  ∃ t2, _ensure_remote_dir sftp remote_dir s1 = (Ok tt, s1, t2)
        ∧ mkdir_calls t2 = [].
Proof.
  rewrite !ensure_run. case_bool_decide as Hskip.
  { intros _. by eexists. }
  destruct (collect_parts _ _) as [parts|]; [|done].
  destruct (for_each (reverse parts) (level sftp) s) as [[r s'] t] eqn:Hrun.
  intros [= -> -> <-].
  destruct (levels_exist sftp _ _ _ _ Hrun) as [_ Hall].
  destruct (levels_present sftp _ s1 Hall) as (t2 & -> & Hnone).
  by exists (EvEnsureRemoteDir remote_dir :: t2).
Qed.

(** The reference world keeps what it has, and its [mkdir] touches one
    path only. *)
Lemma disk_mkdir_inv p d d' :
  disk_mkdir p d = inr d' →
  remote_fs d !! p = None ∧ remote_fs d' = <[p := dir_mode]> (remote_fs d).
Proof.
  unfold disk_mkdir. case_bool_decide as Hthere; [done|].
  destruct (remote_is_dir _ _); [|done]. intros [= <-]. simpl.
  split; [|done]. by apply eq_None_not_Some.
Qed.

#[export] Instance disk_keeps_directories : KeepsDirectories disk_session.
Proof.
  split; simpl; unfold disk_stat.
  - intros p d d' [_ ->]%disk_mkdir_inv. rewrite lookup_insert_eq. eauto.
  - intros p q d d' m [Hp ->]%disk_mkdir_inv Hq.
    destruct (decide (p = q)) as [->|Hne].
    + by rewrite Hp in Hq.
    + rewrite lookup_insert_ne by done. eauto.
Qed.

Lemma disk_mkdir_frame p q d d' :
  disk_mkdir p d = inr d' → q ≠ p →
  sftp_stat disk_session q d' = sftp_stat disk_session q d.
Proof.
  intros [_ Hfs]%disk_mkdir_inv Hne. simpl. unfold disk_stat.
  by rewrite Hfs, lookup_insert_ne.
Qed.

Lemma ensure_remote_dir_idempotent_witness :
  ∃ t2,
    _ensure_remote_dir disk_session "/a/b/c"
      (_ensure_remote_dir disk_session "/a/b/c" empty_disk).1.2
    = (Ok tt, (_ensure_remote_dir disk_session "/a/b/c" empty_disk).1.2, t2)
    ∧ mkdir_calls t2 = [].
Proof.
  apply (ensure_remote_dir_idempotent disk_session "/a/b/c" empty_disk
           (_ensure_remote_dir disk_session "/a/b/c" empty_disk).1.2
           (_ensure_remote_dir disk_session "/a/b/c" empty_disk).2).
  vm_compute. reflexivity.
Defined.

(** C4. On a server where none of [/a], [/a/b] and [/a/b/c] is found, and
    whose [mkdir] changes what [stat] answers for the path made only,
    [_ensure_remote_dir("/a/b/c")] goes through [/a], [/a/b], [/a/b/c] in
    that order, [stat] then [mkdir] at each, and stops at the first [mkdir]
    that fails: the creation calls are [/a], [/a/b], [/a/b/c] when it ends
    normally, and the first ones of these when it does not. *)
Theorem ensure_remote_dir_root_to_leaf
  {S : Type} (sftp : Session S) (s : S) :
  (∀ p q s0 s1, sftp_mkdir sftp p s0 = inr s1 → q ≠ p →
                sftp_stat sftp q s1 = sftp_stat sftp q s0) →
  sftp_stat sftp "/a" s = inl ENOENT →
  sftp_stat sftp "/a/b" s = inl ENOENT →
  sftp_stat sftp "/a/b/c" s = inl ENOENT →
  let absent p := EvStat p (inl ENOENT) in
  let run := _ensure_remote_dir sftp "/a/b/c" s in
  run = match sftp_mkdir sftp "/a" s with
        | inl e =>
            (Raise (OSError e), s,
             [EvEnsureRemoteDir "/a/b/c"; absent "/a"; EvMkdir "/a" (inl e)])
        | inr s1 =>
            match sftp_mkdir sftp "/a/b" s1 with
            | inl e =>
                (Raise (OSError e), s1,
                 [EvEnsureRemoteDir "/a/b/c";
                  absent "/a"; EvMkdir "/a" (inr tt);
                  absent "/a/b"; EvMkdir "/a/b" (inl e)])
            | inr s2 =>
                match sftp_mkdir sftp "/a/b/c" s2 with
                | inl e =>
                    (Raise (OSError e), s2,
                     [EvEnsureRemoteDir "/a/b/c";
                      absent "/a"; EvMkdir "/a" (inr tt);
                      absent "/a/b"; EvMkdir "/a/b" (inr tt);
                      absent "/a/b/c"; EvMkdir "/a/b/c" (inl e)])
                | inr s3 =>
                    (Ok tt, s3,
                     [EvEnsureRemoteDir "/a/b/c";
                      absent "/a"; EvMkdir "/a" (inr tt);
                      absent "/a/b"; EvMkdir "/a/b" (inr tt);
                      absent "/a/b/c"; EvMkdir "/a/b/c" (inr tt)])
                end
            end
        end
  ∧ mkdir_calls run.2 `prefix_of` ["/a"; "/a/b"; "/a/b/c"]
  ∧ (run.1.1 = Ok tt → mkdir_calls run.2 = ["/a"; "/a/b"; "/a/b/c"]).
Proof.
  intros Hframe Ha Hab Habc absent run.
  assert (Hrun : run = match sftp_mkdir sftp "/a" s with
        | inl e =>
            (Raise (OSError e), s,
             [EvEnsureRemoteDir "/a/b/c"; absent "/a"; EvMkdir "/a" (inl e)])
        | inr s1 =>
            match sftp_mkdir sftp "/a/b" s1 with
            | inl e =>
                (Raise (OSError e), s1,
                 [EvEnsureRemoteDir "/a/b/c";
                  absent "/a"; EvMkdir "/a" (inr tt);
                  absent "/a/b"; EvMkdir "/a/b" (inl e)])
            | inr s2 =>
                match sftp_mkdir sftp "/a/b/c" s2 with
                | inl e =>
                    (Raise (OSError e), s2,
                     [EvEnsureRemoteDir "/a/b/c";
                      absent "/a"; EvMkdir "/a" (inr tt);
                      absent "/a/b"; EvMkdir "/a/b" (inr tt);
                      absent "/a/b/c"; EvMkdir "/a/b/c" (inl e)])
                | inr s3 =>
                    (Ok tt, s3,
                     [EvEnsureRemoteDir "/a/b/c";
                      absent "/a"; EvMkdir "/a" (inr tt);
                      absent "/a/b"; EvMkdir "/a/b" (inr tt);
                      absent "/a/b/c"; EvMkdir "/a/b/c" (inr tt)])
                end
            end
        end).
  { unfold run. rewrite ensure_run.
    assert (Hparts : collect_parts (String.length "/a/b/c") "/a/b/c"
                     = Some ["/a/b/c"; "/a/b"; "/a"]) by (vm_compute; reflexivity).
    rewrite bool_decide_false by absent. rewrite Hparts.
    change (reverse ["/a/b/c"; "/a/b"; "/a"]) with ["/a"; "/a/b"; "/a/b/c"].
    rewrite !for_each_cons. unfold bind.
    rewrite level_run, Ha.
    destruct (sftp_mkdir sftp "/a" s) as [e|s1] eqn:Hmk1; [done|].
    rewrite level_run, (Hframe _ _ _ _ Hmk1), Hab by done.
    destruct (sftp_mkdir sftp "/a/b" s1) as [e|s2] eqn:Hmk2; [done|].
    rewrite level_run, (Hframe _ _ _ _ Hmk2), (Hframe _ _ _ _ Hmk1), Habc
      by done.
    destruct (sftp_mkdir sftp "/a/b/c" s2) as [e|s3] eqn:Hmk3; done. }
  split; [done|]. rewrite Hrun.
  destruct (sftp_mkdir sftp "/a" s) as [e|s1].
  { split; [by exists ["/a/b"; "/a/b/c"]|done]. }
  destruct (sftp_mkdir sftp "/a/b" s1) as [e|s2].
  { split; [by exists ["/a/b/c"]|done]. }
  destruct (sftp_mkdir sftp "/a/b/c" s2) as [e|s3].
  { split; [by exists []|done]. }
  split; [by exists []|done].
Qed.

Lemma ensure_remote_dir_root_to_leaf_witness :
  (_ensure_remote_dir disk_session "/a/b/c" empty_disk).1.1 = Ok tt
  ∧ mkdir_calls (_ensure_remote_dir disk_session "/a/b/c" empty_disk).2
    = ["/a"; "/a/b"; "/a/b/c"].
Proof.
  destruct (ensure_remote_dir_root_to_leaf disk_session empty_disk)
    as (_ & _ & Hcalls).
  - intros p q s0 s1. apply disk_mkdir_frame.
  - reflexivity.
  - reflexivity.
  - reflexivity.
  - assert (Hok : (_ensure_remote_dir disk_session "/a/b/c" empty_disk).1.1
                  = Ok tt) by (vm_compute; reflexivity).
    split; [exact Hok|]. exact (Hcalls Hok).
Defined.

(** *** Schedules

    What a run does to the destination, step by step, without the answers:
    the directories it materialises and the files it transfers. *)

Lemma steps_app t1 t2 : steps (t1 ++ t2) = steps t1 ++ steps t2.
Proof. apply omap_app. Qed.

Section Follows.
Context {S : Type}.

Lemma follows_ret {T} (v : T) : follows (S := S) (ret v) [].
Proof. intros s. by split. Qed.

Lemma follows_bind {T U} (m : M S T) (k : T → M S U) p1 p2 :
  follows m p1 → (∀ v, follows (k v) p2) → follows (bind m k) (p1 ++ p2).
Proof.
  intros Hm Hk s. unfold bind. specialize (Hm s).
  destruct (m s) as [[[v|e] s1] t1]; simpl in *.
  - destruct Hm as [_ Hm]. specialize (Hm v eq_refl).
    specialize (Hk v s1). destruct (k v s1) as [[r s2] t2]. simpl in *.
    rewrite steps_app, Hm. destruct Hk as [Hpre Hall]. split.
    + by apply prefix_app.
    + intros u Hu. by rewrite (Hall u Hu).
  - destruct Hm as [Hpre _]. split; [|done]. by apply prefix_app_r.
Qed.

Lemma follows_for_each {X} (xs : list X) (body : X → M S unit)
  (plan : X → list step) :
  (∀ x, x ∈ xs → follows (body x) (plan x)) →
  follows (for_each xs body) (flat_map plan xs).
Proof.
  induction xs as [|x xs IH]; intros Hbody.
  { apply follows_ret. }
  rewrite for_each_cons. simpl. apply follows_bind.
  - apply Hbody. by left.
  - intros _. apply IH. intros y Hy. apply Hbody. by right.
Qed.

Lemma follows_effect call ev st :
  (∀ r, shape (ev r) = Some st) → follows (effect (S := S) call ev) [st].
Proof.
  intros Hev s. unfold effect.
  destruct (call s) as [e|s']; simpl; unfold steps; simpl; rewrite Hev;
    by split.
Qed.

End Follows.

Section Plans.
Context {S : Type} (sftp : Session S) (fs : LocalView).

Lemma levels_silent (dirs : list string) s :
  steps (for_each dirs (level sftp) s).2 = [].
Proof.
  revert s. induction dirs as [|d dirs IH]; intros s; [done|].
  rewrite for_each_cons. unfold bind.
  pose proof (level_run sftp d s) as Hd.
  destruct (level sftp d s) as [[[[]|e] s1] t1].
  - specialize (IH s1).
    destruct (for_each dirs (level sftp) s1) as [[r s2] t2]. simpl in *.
    rewrite steps_app, IH, app_nil_r.
    destruct (sftp_stat sftp d s) as [[|msg]|m]; [|done|by simplify_eq].
    destruct (sftp_mkdir sftp d s); by simplify_eq.
  - simpl. destruct (sftp_stat sftp d s) as [[|msg]|m]; [|by simplify_eq..].
    destruct (sftp_mkdir sftp d s); by simplify_eq.
Qed.

(** Whatever the server answers, a call of [_ensure_remote_dir] is one
    step. *)
Lemma follows_ensure remote_dir :
  follows (_ensure_remote_dir sftp remote_dir) [EnsureRemote remote_dir].
Proof.
  intros s. rewrite ensure_run. case_bool_decide; [by split|].
  destruct (collect_parts _ _) as [parts|]; [|by split].
  pose proof (levels_silent (reverse parts) s) as Hsilent.
  destruct (for_each (reverse parts) (level sftp) s) as [[r s'] t].
  simpl in *. unfold steps in *. simpl. rewrite Hsilent. by split.
Qed.

Lemma follows_put l r : follows (put sftp l r) [PutFile l r].
Proof. by apply follows_effect. Qed.

Lemma follows_get r l : follows (get sftp r l) [GetFile r l].
Proof. by apply follows_effect. Qed.

Lemma follows_Path_mkdir p : follows (Path_mkdir sftp p) [MakeLocal p].
Proof. by apply follows_effect. Qed.

End Plans.

(** *** Upload *)

Lemma flat_map_singleton {X Y} (f : X → Y) (xs : list X) :
  flat_map (λ x, [f x]) xs = f <$> xs.
Proof. induction xs as [|x xs IH]; [done|]. simpl. by rewrite IH. Qed.

Lemma follows_upload_directory
  {S : Type} (sftp : Session S) (fs : LocalView) local_dir remote_dir :
  follows (_upload_directory sftp fs local_dir remote_dir)
          (flat_map (upload_block remote_dir (abspath fs local_dir))
                    (walked fs local_dir)).
Proof.
  unfold _upload_directory. fold (walked fs local_dir).
  apply follows_for_each. intros [[root dirs] files] _.
  unfold upload_block. simpl.
  apply (follows_bind _ _ [_]).
  - apply follows_ensure.
  - intros _. rewrite <- flat_map_singleton. apply follows_for_each.
    intros filename _. apply follows_put.
Qed.

(** [os.walk] unfolded once, on a directory that can be listed. *)
Lemma os_walk_unfold top n b l entries :
  os_walk top (LEntry n b l false entries)
  = (top,
     lname <$> filter (λ e, lis_dir e = true) entries,
     lname <$> filter (λ e, lis_dir e = false) entries)
    :: flat_map (λ e, if walks_into e then os_walk (top ++ [lname e]) e
                      else [])
                entries.
Proof.
  reflexivity.
Qed.

Lemma lentry_induction (P : lentry → Prop) :
  (∀ n b l u entries, Forall P entries → P (LEntry n b l u entries)) →
  ∀ d, P d.
Proof.
  intros Hstep. fix IH 1. intros [n b l u entries]. apply Hstep.
  induction entries as [|e entries IHentries]; constructor; [apply IH|done].
Qed.

Lemma flat_map_split {X Y} (f : X → list Y) (xs : list X) pre y post :
  flat_map f xs = pre ++ y :: post →
  ∃ xs1 x xs2 p1 p2,
    xs = xs1 ++ x :: xs2 ∧ f x = p1 ++ y :: p2 ∧
    pre = flat_map f xs1 ++ p1 ∧ post = p2 ++ flat_map f xs2.
Proof.
  revert pre. induction xs as [|x xs IH]; intros pre Heq.
  { by destruct pre. }
  simpl in Heq.
  apply app_eq_inv in Heq as [(k & Hfx & Hrest)|(k & Hpre & Hrest)].
  - destruct k as [|y' k]; simpl in Hrest.
    + rewrite app_nil_r in Hfx. subst pre.
      destruct (IH [] (eq_sym Hrest))
        as (xs1 & x' & xs2 & p1 & p2 & -> & Hx' & Hp & ->).
      exists (x :: xs1), x', xs2, p1, p2. simpl.
      rewrite <- app_assoc, <- Hp, app_nil_r. done.
    + simplify_eq. by exists [], x, xs, pre, k.
  - subst pre.
    destruct (IH k Hrest) as (xs1 & x' & xs2 & p1 & p2 & -> & Hx' & -> & ->).
    exists (x :: xs1), x', xs2, p1, p2. simpl. by rewrite app_assoc.
Qed.

(** Every directory the walk yields lies at or below its top. *)
Lemma os_walk_below d :
  ∀ top t, t ∈ os_walk top d → ∃ ds, t.1.1 = top ++ ds.
Proof.
  induction d as [n b l [|] entries IH] using lentry_induction.
  { intros top t Ht. by apply elem_of_nil in Ht. }
  intros top t. rewrite os_walk_unfold.
  intros [->|Hsub]%elem_of_cons.
  { exists []. by rewrite app_nil_r. }
  apply list_elem_of_In, in_flat_map in Hsub as (e & He & Ht).
  destruct (walks_into e); [|done].
  apply list_elem_of_In in He, Ht.
  destruct (proj1 (Forall_forall _ _) IH e He _ _ Ht) as [ds ->].
  exists (lname e :: ds). by rewrite <- app_assoc.
Qed.

Lemma os_walk_topdown d : ∀ top, topdown top (os_walk top d).
Proof.
  induction d as [n b l [|] entries IH] using lentry_induction.
  { intros top pre t post ds c Hsplit. by destruct pre. }
  intros top pre t post ds c. rewrite os_walk_unfold. intros Hsplit Hroot.
  destruct pre as [|t0 pre].
  { simpl in Hsplit. injection Hsplit as <- _. simpl in Hroot.
    apply (f_equal length) in Hroot. rewrite !length_app in Hroot.
    simpl in Hroot. lia. }
  simpl in Hsplit. injection Hsplit as <- Hsub.
  apply flat_map_split in Hsub
    as (es1 & e & es2 & p1 & p2 & -> & He & -> & ->).
  destruct (walks_into e) eqn:Hdir; [|by destruct p1].
  assert (Hin : t ∈ os_walk (top ++ [lname e]) e).
  { rewrite He. apply elem_of_app. right. by left. }
  destruct (os_walk_below _ _ _ Hin) as [ds' Hds'].
  rewrite Hroot, <- app_assoc in Hds'. apply app_inv_head in Hds'.
  destruct ds as [|x ds].
  - exists (top, lname <$> filter (λ e, lis_dir e = true) (es1 ++ e :: es2),
            lname <$> filter (λ e, lis_dir e = false) (es1 ++ e :: es2)).
    split; [by left|]. simpl. by rewrite app_nil_r.
  - simpl in Hds'. injection Hds' as -> Hds'.
    apply Forall_app in IH as [_ IH]. apply Forall_cons in IH as [IHe _].
    destruct (IHe (top ++ [lname e]) p1 t p2 ds c He) as (t1 & Ht1 & Hroot1).
    { rewrite Hroot. by rewrite <- app_assoc. }
    exists t1. split.
    + right. apply elem_of_app. by right.
    + rewrite Hroot1. by rewrite <- app_assoc.
Qed.

(** *** Download *)

Lemma rentry_induction (P : rentry → Prop) :
  (∀ n m a listing, Forall P listing → P (REntry n m a listing)) →
  ∀ d, P d.
Proof.
  intros Hstep. fix IH 1. intros [n m a listing]. apply Hstep.
  induction listing as [|e listing IHlisting]; constructor; [apply IH|done].
Qed.

Lemma parent_child (p : list string) (n : string) : parent (p ++ [n]) = p.
Proof. apply removelast_last. Qed.

(** [_download_directory] unfolded once. *)
Lemma download_directory_unfold
  {S : Type} (sftp : Session S) (fs : LocalView) remote_dir local_dir
  n m a listing :
  _download_directory sftp fs remote_dir local_dir (REntry n m a listing)
  = (Path_mkdir sftp (resolve_local fs local_dir);;
     listdir_attr remote_dir a;;
     for_each listing (λ entry,
       if S_ISDIR (rst_mode entry) then
         _download_directory sftp fs
           (_join_remote [remote_dir; rfilename entry])
           (Abs (Path_div (resolve_local fs local_dir) (rfilename entry)))
           entry
       else
         Path_mkdir sftp
           (parent (Path_div (resolve_local fs local_dir)
                             (rfilename entry)));;
         get sftp (_join_remote [remote_dir; rfilename entry])
             (Abs (Path_div (resolve_local fs local_dir)
                            (rfilename entry))))).
Proof. reflexivity. Qed.

Lemma follows_download_directory
  {S : Type} (sftp : Session S) (fs : LocalView) (d : rentry) :
  ∀ remote_dir local_dir,
  follows (_download_directory sftp fs remote_dir local_dir d)
          (download_plan fs remote_dir local_dir d).
Proof.
  induction d as [n m a listing IH] using rentry_induction.
  intros remote_dir local_dir.
  change (_download_directory sftp fs remote_dir local_dir
            (REntry n m a listing))
    with (Path_mkdir sftp (resolve_local fs local_dir);;
          listdir_attr remote_dir a;;
          for_each listing (λ entry,
            if S_ISDIR (rst_mode entry) then
              _download_directory sftp fs
                (_join_remote [remote_dir; rfilename entry])
                (Abs (Path_div (resolve_local fs local_dir) (rfilename entry)))
                entry
            else
              Path_mkdir sftp
                (parent (Path_div (resolve_local fs local_dir)
                                  (rfilename entry)));;
              get sftp (_join_remote [remote_dir; rfilename entry])
                  (Abs (Path_div (resolve_local fs local_dir)
                                 (rfilename entry))))).
  cbn [download_plan].
  apply (follows_bind _ _ [_]); [apply follows_Path_mkdir|]. intros _.
  apply (follows_bind _ _ []); [intros s; by destruct a|]. intros _.
  apply follows_for_each. intros entry Hentry. simpl.
  destruct (S_ISDIR (rst_mode entry)).
  - apply (proj1 (Forall_forall _ _) IH entry Hentry).
  - apply (follows_bind _ _ [_] [_]); [apply follows_Path_mkdir|].
    intros _. apply follows_get.
Qed.

Lemma download_plan_plain_below (d : rentry) :
  ∀ remote_dir lp st, st ∈ download_plan_plain remote_dir lp d →
  ∃ ds, st = MakeLocal (lp ++ ds)
        ∨ (∃ r f, st = GetFile r (Abs (lp ++ ds ++ [f]))).
Proof.
  induction d as [n m ans listing IH] using rentry_induction.
  intros remote_dir lp st. cbn [download_plan_plain].
  intros [->|Hsub]%elem_of_cons.
  { exists []. left. by rewrite app_nil_r. }
  apply list_elem_of_In, in_flat_map in Hsub as (e & He & Hst).
  apply list_elem_of_In in He, Hst. simpl in Hst.
  destruct (S_ISDIR (rst_mode e)).
  - destruct (proj1 (Forall_forall _ _) IH e He _ _ _ Hst)
      as [ds [->|(r & f & ->)]]; exists (rfilename e :: ds).
    + left. by rewrite <- app_assoc.
    + right. exists r, f. by rewrite <- app_assoc.
  - rewrite parent_child in Hst.
    apply elem_of_cons in Hst as [->|Hst].
    { exists []. left. by rewrite app_nil_r. }
    apply list_elem_of_singleton in Hst as ->.
    exists []. right. by exists (_join_remote [remote_dir; rfilename e]), (rfilename e).
Qed.

Lemma download_plan_plain_parents_first (d : rentry) :
  ∀ remote_dir lp, parents_first lp (download_plan_plain remote_dir lp d).
Proof.
  induction d as [n m ans listing IH] using rentry_induction.
  intros remote_dir lp pre st post ds c. cbn [download_plan_plain].
  intros Hsplit Hst.
  assert (Hlong : ∀ l : list string, l ++ ds ++ [c] ≠ l).
  { intros l Heq. apply (f_equal length) in Heq.
    rewrite !length_app in Heq. simpl in Heq. lia. }
  destruct pre as [|st0 pre].
  { simpl in Hsplit. injection Hsplit as <- _.
    destruct Hst as [[= Heq]|[r [=]]]. by destruct (Hlong lp). }
  simpl in Hsplit. injection Hsplit as <- Hsub.
  apply flat_map_split in Hsub
    as (es1 & e & es2 & p1 & p2 & -> & He & -> & ->).
  apply Forall_app in IH as [_ IH]. apply Forall_cons in IH as [IHe _].
  simpl in He. destruct (S_ISDIR (rst_mode e)).
  - assert (Hin : st ∈ download_plan_plain (_join_remote [remote_dir; rfilename e])
                         (lp ++ [rfilename e]) e).
    { rewrite He. apply elem_of_app. right. by left. }
    apply download_plan_plain_below in Hin as [ds' Hbelow].
    assert (Hds : ds = [] ∧ st = MakeLocal (lp ++ [c])
                  ∨ ∃ ds0, ds = rfilename e :: ds0).
    { destruct Hst as [->|[r ->]];
        destruct Hbelow as [Heq|(r' & f & Heq)]; try discriminate Heq.
      - injection Heq as Heq. rewrite <- app_assoc in Heq.
        apply app_inv_head in Heq. simpl in Heq.
        destruct ds as [|x ds]; simpl in Heq; injection Heq as -> Heq.
        + by left.
        + right. by exists ds.
      - injection Heq as _ Heq. rewrite <- app_assoc in Heq.
        apply app_inv_head in Heq. simpl in Heq.
        destruct ds as [|x ds]; simpl in Heq; injection Heq as -> Heq.
        + by destruct ds'.
        + right. by exists ds. }
    destruct Hds as [[-> ->]|[ds0 ->]].
    + rewrite app_nil_r. by left.
    + right. apply elem_of_app. right.
      replace (lp ++ rfilename e :: ds0) with ((lp ++ [rfilename e]) ++ ds0)
        by (by rewrite <- app_assoc).
      apply (IHe _ _ p1 st p2 ds0 c He).
      rewrite <- !app_assoc. exact Hst.
  - rewrite parent_child in He.
    destruct p1 as [|a [|b p1]]; simpl in He; simplify_eq.
    + destruct Hst as [[= Heq]|[r [=]]]. by destruct (Hlong lp).
    + destruct Hst as [[=]|[r [= _ Heq]]].
      apply app_inv_head in Heq. destruct ds as [|x [|y ds]]; simplify_eq.
      rewrite app_nil_r. by left.
    + by destruct p1.
Qed.

(** *** Parent before child *)

Lemma prefix_split {X} (l plan pre post : list X) (x : X) :
  l `prefix_of` plan → l = pre ++ x :: post →
  ∃ post', plan = pre ++ x :: post'.
Proof.
  intros [k ->] ->. exists (post ++ k). by rewrite <- app_assoc.
Qed.

Lemma upload_plan_put remote_dir top walk pre root f r post :
  flat_map (upload_block remote_dir top) walk
  = pre ++ PutFile (Abs (root ++ [f])) r :: post →
  EnsureRemote (mapped remote_dir top root) ∈ pre.
Proof.
  intros (w1 & t & w2 & p1 & p2 & -> & Ht & -> & ->)%flat_map_split.
  unfold upload_block in Ht. destruct p1 as [|st p1]; [done|].
  simpl in Ht. injection Ht as <- Hputs.
  assert (Hin : PutFile (Abs (root ++ [f])) r ∈
                (λ filename,
                   PutFile (Abs (t.1.1 ++ [filename]))
                     (_join_remote [mapped remote_dir top t.1.1; filename]))
                <$> t.2).
  { rewrite Hputs. apply elem_of_app. right. by left. }
  apply list_elem_of_fmap in Hin as (f' & [= Hroot _] & _).
  apply app_inj_tail in Hroot as [-> _].
  apply elem_of_app. right. by left.
Qed.

Lemma parents_first_prefix base (l plan : list step) :
  l `prefix_of` plan → parents_first base plan → parents_first base l.
Proof.
  intros Hpre Hplan pre st post ds c Hsplit Hst.
  destruct (prefix_split _ _ _ _ _ Hpre Hsplit) as [post' Hplan'].
  by eapply Hplan.
Qed.

Lemma walked_topdown fs local_dir :
  topdown (abspath fs local_dir) (walked fs local_dir).
Proof.
  unfold walked. destruct (local_lookup fs local_dir) as [d|].
  - destruct (lis_dir d); [apply os_walk_topdown|].
    intros pre t post ds c Hsplit. by destruct pre.
  - intros pre t post ds c Hsplit. by destruct pre.
Qed.

(** The scenario of the spec: [root/a.txt] and [root/sub/b.txt], uploaded
    to [/home/u/target] on an empty server. *)
Example upload_scenario :
  let run := upload disk_session demo_view "root" "/home/u/target" empty_disk in
  run.1.1 = Ok tt
  ∧ steps run.2
    = [EnsureRemote "/home/u/target";
       PutFile (Abs ["work"; "root"; "a.txt"]) "/home/u/target/a.txt";
       EnsureRemote "/home/u/target/sub";
       PutFile (Abs ["work"; "root"; "sub"; "b.txt"])
               "/home/u/target/sub/b.txt"].
Proof. vm_compute. done. Qed.

(** *** Every directory, empty or not *)

(** The walk yields every directory of the tree. *)
Lemma os_walk_complete (d : lentry) :
  ∀ top ds, ds ∈ local_dirs d → ∃ t, t ∈ os_walk top d ∧ t.1.1 = top ++ ds.
Proof.
  induction d as [n b l [|] entries IH] using lentry_induction.
  { intros top ds Hds. by apply elem_of_nil in Hds. }
  intros top ds. rewrite os_walk_unfold. cbn [local_dirs].
  intros [->|Hsub]%elem_of_cons.
  { eexists. split; [by left|]. simpl. by rewrite app_nil_r. }
  apply list_elem_of_In, in_flat_map in Hsub as (e & He & Hds).
  apply list_elem_of_In in He, Hds.
  destruct (walks_into e) eqn:Hdir; [|by apply elem_of_nil in Hds].
  apply list_elem_of_fmap in Hds as (ds' & -> & Hds').
  destruct (proj1 (Forall_forall _ _) IH e He (top ++ [lname e]) ds' Hds')
    as (t & Ht & Hroot).
  exists t. split.
  - right. apply list_elem_of_In, in_flat_map. exists e.
    split; [by apply list_elem_of_In|]. rewrite Hdir. by apply list_elem_of_In.
  - by rewrite Hroot, <- app_assoc.
Qed.

Section Created.
Context {S : Type} (sftp : Session S) (fs : LocalView).

Lemma bind_ok_inv {T U} (m : M S T) (k : T → M S U) s v s' t :
  bind m k s = (Ok v, s', t) →
  ∃ u s1 t1 t2, m s = (Ok u, s1, t1) ∧ k u s1 = (Ok v, s', t2)
                ∧ t = t1 ++ t2.
Proof.
  unfold bind. destruct (m s) as [[[u|e] s1] t1]; [|done].
  destruct (k u s1) as [[r s2] t2] eqn:Hk. intros [= -> -> <-].
  by exists u, s1, t1, t2.
Qed.

Lemma ensure_materialises remote_dir s s' t :
  _ensure_remote_dir sftp remote_dir s = (Ok tt, s', t) →
  EvEnsureRemoteDir remote_dir ∈ t
  ∧ (remote_dir ∈ [""; "."; "/"] ∨ materialised remote_dir t).
Proof.
  rewrite ensure_run. case_bool_decide as Hskip.
  { intros [= <- <-]. split; [by left|]. left.
    apply elem_of_cons in Hskip as [->|Hskip]; [by left|].
    apply list_elem_of_singleton in Hskip as ->. right. by left. }
  destruct (collect_parts _ _) as [parts|] eqn:Hparts; [|done].
  destruct (for_each (reverse parts) (level sftp) s) as [[r s1] t1] eqn:Hrun.
  intros [= -> -> <-]. split; [by left|].
  destruct (decide (remote_dir = "/")) as [->|Hroot].
  { left. right. right. by left. }
  right.
  assert (Hin : remote_dir ∈ reverse parts).
  { apply elem_of_reverse.
    destruct remote_dir as [|c rest]; [by destruct Hskip; left|].
    simpl in Hparts. rewrite bool_decide_false in Hparts.
    - destruct (collect_parts _ _); simplify_eq/=. by left.
    - intros [?|[?|?%elem_of_nil]%elem_of_cons]%elem_of_cons; done. }
  destruct (for_each_ok_elem _ _ _ _ _ _ Hrun Hin)
    as (sa & sb & ta & Hlevel & Hsub).
  rewrite level_run in Hlevel.
  destruct (sftp_stat sftp remote_dir sa) as [[|msg]|m]; [|done|].
  - destruct (sftp_mkdir sftp remote_dir sa); [done|]. simplify_eq.
    right. right. apply Hsub. right. by left.
  - simplify_eq. left. exists m. right. apply Hsub. by left.
Qed.

Lemma upload_directory_creates local_dir remote_dir s s' t triple :
  _upload_directory sftp fs local_dir remote_dir s = (Ok tt, s', t) →
  triple ∈ walked fs local_dir →
  let dst := mapped remote_dir (abspath fs local_dir) triple.1.1 in
  EvEnsureRemoteDir dst ∈ t
  ∧ (dst ∈ [""; "."; "/"] ∨ materialised dst t).
Proof.
  intros Hrun Hin dst. unfold dst. clear dst.
  unfold _upload_directory in Hrun. fold (walked fs local_dir) in Hrun.
  destruct (for_each_ok_elem _ _ _ _ _ _ Hrun Hin)
    as (sa & sb & ta & Hbody & Hsub).
  destruct triple as [[root dirs] files].
  apply bind_ok_inv in Hbody as ([] & s1 & t1 & t2 & Hens & _ & ->).
  apply ensure_materialises in Hens as [Hcall Hmat].
  split.
  - apply Hsub, elem_of_app. by left.
  - destruct Hmat as [Hskip|[[m Hstat]|Hmk]]; [by left|right; left|right; right].
    + exists m. apply Hsub, elem_of_app. by left.
    + apply Hsub, elem_of_app. by left.
Qed.

End Created.

(** An upload and a download with an empty directory in the source: the
    reference world ends with [/t/empty], and [/dest/void], as directories
    that hold nothing. *)
Example upload_empty_directory :
  let run := upload disk_session demo_view "project" "/t" empty_disk in
  run.1.1 = Ok tt
  ∧ remote_fs run.1.2
    = list_to_map [("/t", dir_mode); ("/t/empty", dir_mode);
                   ("/t/main.py", file_mode)].
Proof.
  split; [vm_compute; reflexivity|].
  apply (bool_decide_unpack _). vm_compute. exact I.
Qed.

Example download_empty_directory :
  let run := download disk_session demo_view "/r" "/dest" demo_remote_disk in
  run.1.1 = Ok tt
  ∧ local_fs run.1.2
    = list_to_map [(["dest"], true);
                   (["dest"; "onefile.txt"], false);
                   (["dest"; "void"], true);
                   (["dest"; "docs"], true);
                   (["dest"; "docs"; "readme.txt"], false)].
Proof.
  split; [vm_compute; reflexivity|].
  apply (bool_decide_unpack _). vm_compute. exact I.
Qed.

End SftpProofs.

(** ** Part V: further properties of the SFTP engine *)

Module SftpMoreProofs.
Import Sftp SftpMore SftpProofs.

(** *** Failing fast *)

Section FailFast.
Context {S : Type}.

Lemma fail_fast_ret {T} (v : T) : fail_fast (S := S) (ret v).
Proof. intros s pre ev post e Hsplit. by destruct pre. Qed.

Lemma fail_fast_raise {T} (x : exn) : fail_fast (S := S) (T := T) (raise x).
Proof. intros s pre ev post e Hsplit. by destruct pre. Qed.

Lemma fail_fast_emit ev0 : fatal ev0 = None → fail_fast (S := S) (emit ev0).
Proof.
  intros Hev s pre ev post e Hsplit Hfatal. simpl in Hsplit.
  destruct pre as [|x pre]; [|by destruct pre].
  injection Hsplit as <- <-. congruence.
Qed.

Lemma fail_fast_effect call ev0 :
  (∀ r e, fatal (ev0 r) = Some e → r = inl e) →
  fail_fast (effect (S := S) call ev0).
Proof.
  intros Hev s pre ev post e. unfold effect.
  destruct (call s) as [e0|s']; simpl; intros Hsplit Hfatal;
    (destruct pre as [|x pre]; [|by destruct pre]);
    injection Hsplit as <- <-; apply Hev in Hfatal; by simplify_eq.
Qed.

Lemma fail_fast_bind {T U} (m : M S T) (k : T → M S U) :
  fail_fast m → (∀ v, fail_fast (k v)) → fail_fast (bind m k).
Proof.
  intros Hm Hk s pre ev post e. unfold bind. specialize (Hm s).
  destruct (m s) as [[[v|x] s1] t1]; simpl in *.
  - specialize (Hk v s1). destruct (k v s1) as [[r s2] t2]. simpl in *.
    intros Hsplit Hfatal.
    apply app_eq_inv in Hsplit as [(l & Ht1 & Hrest)|(l & Hpre & Ht2)].
    + destruct l as [|ev' l]; simpl in Hrest.
      * apply (Hk [] ev post e); [done|done].
      * injection Hrest as -> ->.
        by destruct (Hm pre ev' l e Ht1 Hfatal) as [_ ?].
    + by apply (Hk l ev post e).
  - intros Hsplit Hfatal.
    destruct (Hm pre ev post e Hsplit Hfatal) as [-> [= ->]]. done.
Qed.

Lemma fail_fast_for_each {X} (xs : list X) (body : X → M S unit) :
  (∀ x, x ∈ xs → fail_fast (body x)) → fail_fast (for_each xs body).
Proof.
  induction xs as [|x xs IH]; intros Hbody; [apply fail_fast_ret|].
  rewrite for_each_cons. apply fail_fast_bind.
  - apply Hbody. by left.
  - intros _. apply IH. intros y Hy. apply Hbody. by right.
Qed.

End FailFast.

Section FailFastEngine.
Context {S : Type} (sftp : Session S) (fs : LocalView).

Lemma fail_fast_level directory : fail_fast (level sftp directory).
Proof.
  intros s pre ev post e. rewrite level_run.
  destruct (sftp_stat sftp directory s) as [[|msg]|m]; simpl.
  - destruct (sftp_mkdir sftp directory s) as [e0|s']; simpl;
      intros Hsplit Hfatal;
      (destruct pre as [|x [|y pre]]; [| |by destruct pre]);
      simplify_eq/=; done.
  - intros Hsplit Hfatal. destruct pre as [|x pre]; [|by destruct pre].
    by simplify_eq/=.
  - intros Hsplit Hfatal. destruct pre as [|x pre]; [|by destruct pre].
    by simplify_eq/=.
Qed.

Lemma fail_fast_ensure remote_dir : fail_fast (_ensure_remote_dir sftp remote_dir).
Proof.
  unfold _ensure_remote_dir. apply fail_fast_bind; [by apply fail_fast_emit|].
  intros _. case_bool_decide; [apply fail_fast_ret|].
  destruct (collect_parts _ _); [|apply fail_fast_raise].
  apply fail_fast_for_each. intros d _. apply fail_fast_level.
Qed.

Lemma fail_fast_put l r : fail_fast (put sftp l r).
Proof. apply fail_fast_effect. by intros [e0|[]] e [= ->]. Qed.

Lemma fail_fast_get r l : fail_fast (get sftp r l).
Proof. apply fail_fast_effect. by intros [e0|[]] e [= ->]. Qed.

Lemma fail_fast_Path_mkdir p : fail_fast (Path_mkdir sftp p).
Proof. apply fail_fast_effect. by intros [e0|[]] e [= ->]. Qed.

Lemma fail_fast_upload_directory local_dir remote_dir :
  fail_fast (_upload_directory sftp fs local_dir remote_dir).
Proof.
  unfold _upload_directory. apply fail_fast_for_each.
  intros [[root dirs] files] _.
  apply fail_fast_bind; [apply fail_fast_ensure|].
  intros _. apply fail_fast_for_each. intros filename _. apply fail_fast_put.
Qed.

Lemma fail_fast_is_remote_dir remote_path :
  fail_fast (_is_remote_dir sftp remote_path).
Proof.
  intros s pre ev post e.
  destruct (is_remote_dir_classifies sftp remote_path s) as (-> & _). simpl.
  intros Hsplit Hfatal. destruct pre as [|x pre]; [|by destruct pre].
  injection Hsplit as <- <-.
  destruct (sftp_stat sftp remote_path s) as [[|msg]|m]; by simplify_eq/=.
Qed.

Lemma fail_fast_listdir_attr path answer :
  fail_fast (listdir_attr (S := S) path answer).
Proof.
  intros s pre ev post e. unfold listdir_attr.
  destruct answer as [e0|]; simpl; intros Hsplit Hfatal;
    (destruct pre as [|x pre]; [|by destruct pre]);
    injection Hsplit as <- <-; by simplify_eq/=.
Qed.

Lemma fail_fast_download_directory (d : rentry) :
  ∀ remote_dir local_dir,
  fail_fast (_download_directory sftp fs remote_dir local_dir d).
Proof.
  induction d as [n m a listing IH] using rentry_induction.
  intros remote_dir local_dir.
  rewrite download_directory_unfold.
  apply fail_fast_bind; [apply fail_fast_Path_mkdir|]. intros _.
  apply fail_fast_bind; [apply fail_fast_listdir_attr|]. intros _.
  apply fail_fast_for_each. intros entry Hentry.
  destruct (S_ISDIR (rst_mode entry)).
  - apply (proj1 (Forall_forall _ _) IH entry Hentry).
  - apply fail_fast_bind; [apply fail_fast_Path_mkdir|]. intros _.
    apply fail_fast_get.
Qed.

End FailFastEngine.

(** X1. Fail-fast.  In [upload] and in [download], for every session and
    source tree, a call that fails in a way the engine does not handle (a
    failed [mkdir], [put], [get], [listdir_attr] or [Path.mkdir], or a
    [stat] failing with something other than not-found) is the last event
    of the run, and the run raises the error of that call. *)
Theorem transfers_fail_fast
  {S : Type} (sftp : Session S) (fs : LocalView) (a b : string) :
  fail_fast (upload sftp fs a b) ∧ fail_fast (download sftp fs a b).
Proof.
  split.
  - unfold upload. destruct (negb _); [apply fail_fast_raise|].
    destruct (os_path_isdir _ _); [apply fail_fast_upload_directory|].
    apply fail_fast_bind; [|intros _; apply fail_fast_put].
    case_bool_decide; [apply fail_fast_ensure|apply fail_fast_ret].
  - unfold download. apply fail_fast_bind; [apply fail_fast_is_remote_dir|].
    intros [|]; [apply fail_fast_download_directory|].
    apply fail_fast_bind; [apply fail_fast_Path_mkdir|]. intros _.
    apply fail_fast_get.
Qed.

(** *** What each direction never does *)

Section Only.
Context {S : Type}.

Lemma only_ret {T} P (v : T) : only (S := S) P (ret v).
Proof. intros s ev Hin. by apply elem_of_nil in Hin. Qed.

Lemma only_raise {T} P (x : exn) : only (S := S) (T := T) P (raise x).
Proof. intros s ev Hin. by apply elem_of_nil in Hin. Qed.

Lemma only_emit P ev0 : P ev0 = true → only (S := S) P (emit ev0).
Proof. intros Hev s ev Hin. simpl in Hin. by apply list_elem_of_singleton in Hin as ->. Qed.

Lemma only_effect P call ev0 :
  (∀ r, P (ev0 r) = true) → only P (effect (S := S) call ev0).
Proof.
  intros Hev s ev. unfold effect.
  destruct (call s); simpl; intros ->%list_elem_of_singleton; apply Hev.
Qed.

Lemma only_stat (sftp : Session S) P path :
  (∀ r, P (EvStat path r) = true) → only P (stat sftp path).
Proof.
  intros Hev s ev. unfold stat. simpl.
  intros ->%list_elem_of_singleton. apply Hev.
Qed.

Lemma only_bind {T U} P (m : M S T) (k : T → M S U) :
  only P m → (∀ v, only P (k v)) → only P (bind m k).
Proof.
  intros Hm Hk s ev. unfold bind. specialize (Hm s).
  destruct (m s) as [[[v|x] s1] t1]; simpl in *; [|apply Hm].
  specialize (Hk v s1). destruct (k v s1) as [[r s2] t2]. simpl in *.
  intros [?|?]%elem_of_app; auto.
Qed.

Lemma only_except P {T} (m h : M S T) :
  only P m → only P h → only P (except_FileNotFoundError m h).
Proof.
  intros Hm Hh s ev. unfold except_FileNotFoundError. specialize (Hm s).
  destruct (m s) as [[[v|[[|msg]|msg|]] s1] t1]; simpl in *; try apply Hm.
  specialize (Hh s1). destruct (h s1) as [[r s2] t2]. simpl in *.
  intros [?|?]%elem_of_app; auto.
Qed.

Lemma only_for_each {X} P (xs : list X) (body : X → M S unit) :
  (∀ x, x ∈ xs → only P (body x)) → only P (for_each xs body).
Proof.
  induction xs as [|x xs IH]; intros Hbody; [apply only_ret|].
  rewrite for_each_cons. apply only_bind.
  - apply Hbody. by left.
  - intros _. apply IH. intros y Hy. apply Hbody. by right.
Qed.

End Only.

Section OnlyEngine.
Context {S : Type} (sftp : Session S) (fs : LocalView).

Lemma only_ensure remote_dir :
  only remote_write_side (_ensure_remote_dir sftp remote_dir).
Proof.
  unfold _ensure_remote_dir. apply only_bind; [by apply only_emit|].
  intros _. case_bool_decide; [apply only_ret|].
  destruct (collect_parts _ _); [|apply only_raise].
  apply only_for_each. intros d _. apply only_except.
  - apply only_bind; [by apply only_stat|]. intros _. apply only_ret.
  - by apply only_effect.
Qed.

Lemma only_listdir_attr P path answer :
  (∀ r, P (EvListdirAttr path r) = true) →
  only P (listdir_attr (S := S) path answer).
Proof.
  intros Hev s ev. unfold listdir_attr.
  destruct answer; simpl; intros ->%list_elem_of_singleton; apply Hev.
Qed.

Lemma only_download_directory (d : rentry) :
  ∀ remote_dir local_dir,
  only remote_read_side (_download_directory sftp fs remote_dir local_dir d).
Proof.
  induction d as [n m a listing IH] using rentry_induction.
  intros remote_dir local_dir.
  rewrite download_directory_unfold.
  apply only_bind; [by apply only_effect|]. intros _.
  apply only_bind; [by apply only_listdir_attr|]. intros _.
  apply only_for_each. intros entry Hentry.
  destruct (S_ISDIR (rst_mode entry)).
  - apply (proj1 (Forall_forall _ _) IH entry Hentry).
  - apply only_bind; [by apply only_effect|]. intros _. by apply only_effect.
Qed.

End OnlyEngine.

(** X2. [upload] touches the remote side only, through
    [_ensure_remote_dir], [stat], [mkdir] and [put]: it never fetches,
    lists a remote directory or makes a local one.  [download] reads the
    remote side only, through [stat], [listdir_attr] and [get], and makes
    local directories: it never makes a remote directory and never puts. *)
Theorem directions_keep_to_their_side
  {S : Type} (sftp : Session S) (fs : LocalView) (a b : string) :
  only remote_write_side (upload sftp fs a b)
  ∧ only remote_read_side (download sftp fs a b).
Proof.
  split.
  - unfold upload. destruct (negb _); [apply only_raise|].
    destruct (os_path_isdir _ _).
    + unfold _upload_directory. apply only_for_each.
      intros [[root dirs] files] _. apply only_bind; [apply only_ensure|].
      intros _. apply only_for_each. intros f _. by apply only_effect.
    + apply only_bind; [|intros _; by apply only_effect].
      case_bool_decide; [apply only_ensure|apply only_ret].
  - unfold download. apply only_bind.
    + unfold _is_remote_dir. apply only_bind; [|intros v; apply only_ret].
      apply only_except; [by apply only_stat|apply only_raise].
    + intros [|]; [apply only_download_directory|].
      apply only_bind; [by apply only_effect|]. intros _. by apply only_effect.
Qed.

(** *** One file up *)

(** X3. [upload] of a local path that is there and is not a directory puts
    that one file, after materialising the directory part of the remote
    path when it has one; a remote path without directory part is put
    straight away, with no other call. *)
Theorem upload_single_file
  {S : Type} (sftp : Session S) (fs : LocalView)
  (local_path remote_path : string) (d : lentry) :
  local_lookup fs (expanduser fs local_path) = Some d →
  lis_dir d = false →
  follows (upload sftp fs local_path remote_path)
          ((if bool_decide (dirname remote_path ≠ "")
            then [EnsureRemote (dirname remote_path)] else [])
           ++ [PutFile (Raw (expanduser fs local_path)) remote_path])
  ∧ (dirname remote_path = "" →
     ∀ s, upload sftp fs local_path remote_path s
          = put sftp (Raw (expanduser fs local_path)) remote_path s).
Proof.
  intros Hthere Hfile.
  assert (Hrun : upload sftp fs local_path remote_path
    = ((if bool_decide (dirname remote_path ≠ "")
        then _ensure_remote_dir sftp (dirname remote_path) else ret tt);;
       put sftp (Raw (expanduser fs local_path)) remote_path)).
  { unfold upload, os_path_exists, os_path_isdir. rewrite Hthere, Hfile.
    by rewrite bool_decide_true by eauto. }
  rewrite Hrun. split.
  - apply follows_bind; [|intros _; apply follows_put].
    case_bool_decide; [apply follows_ensure|apply follows_ret].
  - intros Hnodir s. rewrite bool_decide_false by (by intros []).
    unfold bind, ret. simpl.
    by destruct (put sftp (Raw (expanduser fs local_path)) remote_path s)
      as [[r s'] t].
Qed.

Lemma upload_single_file_witness :
  steps (upload disk_session demo_file_view "notes.txt" "/srv/in/notes.txt"
                empty_disk).2
  = [EnsureRemote "/srv/in"; PutFile (Raw "notes.txt") "/srv/in/notes.txt"]
  ∧ (upload disk_session demo_file_view "notes.txt" "notes.txt" empty_disk).2
    = [EvPut (Raw "notes.txt") "notes.txt" (inr tt)].
Proof.
  destruct (upload_single_file disk_session demo_file_view "notes.txt"
              "/srv/in/notes.txt" (file_entry "notes.txt"))
    as [Hfollows _]; [reflexivity..|].
  destruct (upload_single_file disk_session demo_file_view "notes.txt"
              "notes.txt" (file_entry "notes.txt"))
    as [_ Hdirect]; [reflexivity..|].
  split.
  - rewrite (proj2 (Hfollows empty_disk) tt) by (vm_compute; reflexivity).
    vm_compute. reflexivity.
  - rewrite Hdirect by (vm_compute; reflexivity). vm_compute. reflexivity.
Defined.

(** *** The levels of [_ensure_remote_dir] *)

(** What the loop collects: the path, then the [dirname] of each entry in
    turn, none of them the empty path or [/], down to an entry whose
    [dirname] is one of these. *)
Lemma collect_parts_chain fuel :
  ∀ p parts, collect_parts fuel p = Some parts →
  (∀ x, x ∈ parts → x ∉ [""; "/"])
  ∧ (p ∉ [""; "/"] → head parts = Some p)
  ∧ (∀ i x y, parts !! i = Some x → parts !! S i = Some y → y = dirname x)
  ∧ (∀ x, last parts = Some x → dirname x ∈ [""; "/"]).
Proof.
  induction fuel as [|fuel IH]; intros p parts; simpl;
    case_bool_decide as Hp; try done.
  - intros [= <-]. repeat split; try done. by intros x ?%elem_of_nil.
  - intros [= <-]. repeat split; try done. by intros x ?%elem_of_nil.
  - destruct (collect_parts fuel (dirname p)) as [l|] eqn:Hl; [|done].
    intros [= <-]. destruct (IH _ _ Hl) as (Hne & Hhead & Hstep & Hlast).
    split; [|split; [done|split]].
    + intros x [->|Hx]%elem_of_cons; auto.
    + intros [|i] x y Hx Hy; simpl in *.
      * injection Hx as <-.
        destruct (decide (dirname p ∈ [""; "/"])) as [Hbase|Hbase].
        { destruct fuel; simpl in Hl; rewrite bool_decide_true in Hl by done;
            by simplify_eq. }
        specialize (Hhead Hbase). destruct l; simplify_eq/=. done.
      * eauto.
    + intros x. destruct l as [|y l'] eqn:Hlist.
      * intros [= <-].
        destruct (decide (dirname p ∈ [""; "/"])) as [Hbase|Hbase]; [done|].
        by specialize (Hhead Hbase).
      * rewrite last_cons_cons. apply Hlast.
Qed.

Section Levels.
Context {S : Type} (sftp : Session S).

(** The loop [stat]s the levels in the order given, and [mkdir]s a level
    only right after its [stat] reported not found. *)
Lemma levels_in_order (dirs : list string) :
  ∀ s,
  let run := for_each dirs (level sftp) s in
  stat_calls run.2 `prefix_of` dirs
  ∧ (run.1.1 = Ok tt → stat_calls run.2 = dirs)
  ∧ (∀ pre d r post, run.2 = pre ++ EvMkdir d r :: post →
       ∃ pre', pre = pre' ++ [EvStat d (inl ENOENT)]).
Proof.
  induction dirs as [|d dirs IH]; intros s; cbv zeta.
  { simpl. split; [done|]. split; [done|].
    intros pre d r post Hsplit. by destruct pre. }
  rewrite for_each_cons. unfold bind. rewrite level_run.
  cbv zeta in IH. pose proof (IH s) as IHs.
  destruct (sftp_stat sftp d s) as [[|msg]|m]; simpl.
  - destruct (sftp_mkdir sftp d s) as [e|s1]; simpl.
    + split; [by apply prefix_cons, prefix_nil|]. split; [done|].
      intros pre d' r post Hsplit.
      destruct pre as [|x [|y pre]]; simplify_eq/=.
      * by exists [].
      * by destruct pre.
    + specialize (IH s1). simpl in IH.
      destruct (for_each dirs (level sftp) s1) as [[r s2] t2]. simpl in *.
      destruct IH as (Hpre & Hall & Hmk).
      split; [by apply prefix_cons|]. split; [by intros ->%Hall|].
      intros pre d' r' post Hsplit.
      destruct pre as [|x [|y pre]]; simplify_eq/=.
      * by exists [].
      * destruct (Hmk _ _ _ _ eq_refl) as [pre' ->].
        by exists (EvStat d (inl ENOENT) :: EvMkdir d (inr ()) :: pre').
  - split; [by apply prefix_cons, prefix_nil|]. split; [done|].
    intros pre d' r post Hsplit. destruct pre as [|x pre]; simplify_eq/=.
    by destruct pre.
  - clear IHs. specialize (IH s). simpl in IH.
    destruct (for_each dirs (level sftp) s) as [[r s2] t2]. simpl in *.
    destruct IH as (Hpre & Hall & Hmk).
    split; [by apply prefix_cons|]. split; [by intros ->%Hall|].
    intros pre d' r' post Hsplit.
    destruct pre as [|x pre]; simplify_eq/=.
    destruct (Hmk _ _ _ _ eq_refl) as [pre' ->].
    by exists (EvStat d (inr m) :: pre').
Qed.

End Levels.

(** X4. For every remote path other than the empty path and [.] on which
    the ancestor loop ends, [_ensure_remote_dir] [stat]s the levels from
    root to leaf: the first level is one whose [dirname] is the empty path
    or [/], each next level has the one before as its [dirname], and the
    last is the path itself.  It stops inside this sequence when a call
    fails, and issues [mkdir] for a level only immediately after the
    [stat] of that level reported not found. *)
Theorem ensure_remote_dir_levels
  {W : Type} (sftp : Session W) (remote_dir : string) (parts : list string)
  (s : W) :
  remote_dir ∉ [""; "."] →
  collect_parts (String.length remote_dir) remote_dir = Some parts →
  let levels := reverse parts in
  let run := _ensure_remote_dir sftp remote_dir s in
  stat_calls run.2 `prefix_of` levels
  ∧ (run.1.1 = Ok tt → stat_calls run.2 = levels)
  ∧ (∀ pre d r post, run.2 = pre ++ EvMkdir d r :: post →
       ∃ pre', pre = pre' ++ [EvStat d (inl ENOENT)])
  ∧ (∀ x, head levels = Some x → dirname x ∈ [""; "/"])
  ∧ (∀ i x y, levels !! i = Some x → levels !! S i = Some y → x = dirname y)
  ∧ (remote_dir ≠ "/" → last levels = Some remote_dir).
Proof.
  intros Hskip Hparts levels run.
  destruct (collect_parts_chain _ _ _ Hparts) as (Hne & Hhead & Hstep & Hlast).
  assert (Hrun : run = let '(r, s', t) := for_each levels (level sftp) s in
                       (r, s', EvEnsureRemoteDir remote_dir :: t)).
  { unfold run. rewrite ensure_run, bool_decide_false, Hparts by done. done. }
  destruct (levels_in_order sftp levels s) as (Hpre & Hall & Hmk).
  destruct (for_each levels (level sftp) s) as [[r s'] t]. simpl in *.
  rewrite Hrun. simpl. split; [done|]. split; [done|]. split; [|split; [|split]].
  - intros pre d r' post Hsplit. destruct pre as [|x pre]; simplify_eq/=.
    destruct (Hmk _ _ _ _ eq_refl) as [pre' ->].
    by exists (EvEnsureRemoteDir remote_dir :: pre').
  - intros x Hx. apply Hlast. unfold levels in Hx.
    by rewrite head_reverse in Hx.
  - intros i x y Hx Hy. unfold levels in *.
    pose proof (lookup_lt_Some _ _ _ Hy) as Hlen. rewrite length_reverse in Hlen.
    rewrite reverse_lookup in Hx, Hy by lia.
    apply (Hstep (length parts - S (S i))%nat); [done|].
    by replace (S (length parts - S (S i)))%nat with (length parts - S i)%nat
      by lia.
  - intros Hroot. unfold levels. rewrite last_reverse. apply Hhead.
    intros [->|[->|[]%elem_of_nil]%elem_of_cons]%elem_of_cons; [|done].
    apply Hskip. by left.
Qed.

Lemma ensure_remote_dir_levels_witness :
  stat_calls (_ensure_remote_dir disk_session "srv/data/in" empty_disk).2
  = ["srv"; "srv/data"; "srv/data/in"].
Proof.
  destruct (ensure_remote_dir_levels disk_session "srv/data/in"
              ["srv/data/in"; "srv/data"; "srv"] empty_disk)
    as (_ & Hall & _).
  - intros Hin. repeat (apply elem_of_cons in Hin as [Hin|Hin]; [discriminate Hin|]).
    by apply elem_of_nil in Hin.
  - vm_compute. reflexivity.
  - apply Hall. vm_compute. reflexivity.
Defined.

(** *** Paths that begin with two slashes *)

Lemma drop_while_keeps_tail f (l k : list ascii) c k' :
  k = c :: k' → f c = false → ∃ l', drop_while f (l ++ k) = l' ++ k.
Proof.
  intros -> Hc. induction l as [|x l IH]; simpl.
  - exists []. by rewrite Hc.
  - destruct (f x); [done|]. by exists (x :: l).
Qed.

Lemma drop_while_keeps_after f (l k : list ascii) :
  (∃ x, x ∈ l ∧ f x = false) → ∃ l', drop_while f (l ++ k) = l' ++ k.
Proof.
  induction l as [|x l IH]; intros (y & Hy & Hfy); [by apply elem_of_nil in Hy|].
  simpl. destruct (f x) eqn:Hx; [|by exists (x :: l)].
  apply IH. exists y. split; [|done].
  apply elem_of_cons in Hy as [->|Hy]; [congruence|done].
Qed.

Lemma text_double_slash (l : list ascii) :
  text (reverse (l ++ ["/"; "/"]%char)) = "//" +:+ text (reverse l).
Proof. by rewrite reverse_app. Qed.

(** [dirname] of a path that begins with two slashes begins with two
    slashes. *)
Lemma dirname_double_slash (rest : string) :
  ∃ rest', dirname ("//" +:+ rest) = "//" +:+ rest'.
Proof.
  unfold dirname.
  assert (Hrev : reverse (chars ("//" +:+ rest))
                 = reverse (chars rest) ++ ["/"; "/"]%char).
  { rewrite chars_app. change (chars "//") with ["/"; "/"]%char.
    by rewrite reverse_app. }
  rewrite Hrev.
  destruct (drop_while_keeps_tail (λ c, negb (is_sep c)) (reverse (chars rest))
              ["/"; "/"]%char "/"%char ["/"%char] eq_refl eq_refl) as [l' ->].
  destruct (negb (bool_decide (l' ++ ["/"; "/"]%char = []))
            && negb (forallb is_sep (l' ++ ["/"; "/"]%char))) eqn:Hstrip.
  - apply andb_true_iff in Hstrip as [_ Hnotall].
    apply negb_true_iff in Hnotall.
    rewrite forallb_app in Hnotall. simpl in Hnotall.
    rewrite andb_true_r in Hnotall.
    destruct (drop_while_keeps_after is_sep l' ["/"; "/"]%char) as [l'' ->].
    { clear -Hnotall. induction l' as [|x l' IH]; [done|].
      simpl in Hnotall. destruct (is_sep x) eqn:Hx.
      - destruct (IH Hnotall) as (y & Hy & Hfy). exists y.
        split; [by apply elem_of_cons; right|done].
      - exists x. split; [by apply elem_of_cons; left|done]. }
    eexists. apply text_double_slash.
  - eexists. apply text_double_slash.
Qed.

Lemma collect_parts_double_slash fuel :
  ∀ rest, collect_parts fuel ("//" +:+ rest) = None.
Proof.
  induction fuel as [|fuel IH]; intros rest; cbn [collect_parts];
    rewrite bool_decide_false
      by (intros [?|[?|[]%elem_of_nil]%elem_of_cons]%elem_of_cons;
          discriminate); [done|].
  destruct (dirname_double_slash rest) as [rest' ->]. by rewrite IH.
Qed.

(** X5. On a remote path that begins with two slashes the ancestor loop of
    [_ensure_remote_dir] never ends: [dirname] keeps the two slashes, so
    the path never becomes the empty path or [/].  No fuel is enough, and
    the call makes no call on the session. *)
Theorem ensure_remote_dir_hangs_on_double_slash
  {S : Type} (sftp : Session S) (rest : string) (s : S) :
  (∀ fuel, collect_parts fuel ("//" +:+ rest) = None)
  ∧ _ensure_remote_dir sftp ("//" +:+ rest) s
    = (Raise Hang, s, [EvEnsureRemoteDir ("//" +:+ rest)]).
Proof.
  split; [intros fuel; apply collect_parts_double_slash|].
  rewrite ensure_run, collect_parts_double_slash.
  rewrite bool_decide_false; [done|].
  intros [?|[?|[]%elem_of_nil]%elem_of_cons]%elem_of_cons; discriminate.
Qed.

(** *** Levels that are already there *)

(** X6. When every level of the path answers [stat], whatever mode it
    reports, [_ensure_remote_dir] ends normally without a [mkdir] and
    leaves the state as it was.  The mode is not looked at: a regular file
    standing at the path is accepted as if it were the directory. *)
Theorem ensure_remote_dir_accepts_what_is_there
  {S : Type} (sftp : Session S) (remote_dir : string) (parts : list string)
  (s : S) :
  collect_parts (String.length remote_dir) remote_dir = Some parts →
  (∀ d, d ∈ parts → ∃ st_mode, sftp_stat sftp d s = inr st_mode) →
  ∃ t, _ensure_remote_dir sftp remote_dir s = (Ok tt, s, t)
       ∧ mkdir_calls t = [].
Proof.
  intros Hparts Hthere. rewrite ensure_run, Hparts.
  case_bool_decide; [by exists [EvEnsureRemoteDir remote_dir]|].
  destruct (levels_present sftp (reverse parts) s) as (t & -> & Hnone).
  { intros d Hd. apply Hthere. by apply elem_of_reverse. }
  by exists (EvEnsureRemoteDir remote_dir :: t).
Qed.

Lemma ensure_remote_dir_accepts_what_is_there_witness :
  ∃ t, _ensure_remote_dir disk_session "/r/onefile.txt" demo_remote_disk
       = (Ok tt, demo_remote_disk, t)
       ∧ mkdir_calls t = [].
Proof.
  apply (ensure_remote_dir_accepts_what_is_there disk_session "/r/onefile.txt"
           ["/r/onefile.txt"; "/r"] demo_remote_disk).
  - vm_compute. reflexivity.
  - intros d Hd.
    apply elem_of_cons in Hd as [->|Hd]; [by exists file_mode|].
    apply list_elem_of_singleton in Hd as ->. by exists dir_mode.
Defined.

(** *** [_join_remote] and [dirname] *)

Lemma replace_backslash_id (s : string) :
  lacks (ascii_of_nat 92) s → replace_backslash s = s.
Proof.
  unfold lacks, replace_backslash. intros Hs.
  rewrite <-(text_chars s) at 2. f_equal.
  revert Hs. generalize (chars s). intros cs.
  induction cs as [|c cs IH]; intros Hs; [done|].
  apply not_elem_of_cons in Hs as [Hc Hs]. cbn [fmap list_fmap].
  f_equal; [|by apply IH].
  destruct (Ascii.eqb_spec c (ascii_of_nat 92)); [by subst|done].
Qed.

Lemma drop_while_all f (l k : list ascii) :
  (∀ c, c ∈ l → f c = true) → drop_while f (l ++ k) = drop_while f k.
Proof.
  induction l as [|x l IH]; intros Hall; [done|].
  simpl. rewrite (Hall x) by (by left). apply IH. intros c Hc. apply Hall.
  by right.
Qed.

(** [dirname] of [d], a slash and a name without slash is [d], when [d]
    is not empty and does not end with a slash. *)
Lemma dirname_child (d f : string) :
  d ≠ "" → endswith_sep d = false → lacks "/" f →
  dirname (d +:+ "/" +:+ f) = d.
Proof.
  intros Hd Hend Hf. unfold dirname, endswith_sep, lacks in *.
  rewrite !chars_app, !reverse_app.
  change (reverse (chars "/")) with ["/"%char].
  rewrite <-app_assoc, drop_while_all.
  2:{ intros c Hc. rewrite elem_of_reverse in Hc. unfold is_sep.
      destruct (Ascii.eqb_spec c "/") as [->|]; [|done]. by destruct Hf. }
  destruct (reverse (chars d)) as [|c cs] eqn:Hrev.
  { apply (f_equal reverse) in Hrev. rewrite reverse_involutive in Hrev.
    by apply chars_nil in Hrev. }
  cbn [app drop_while].
  change (is_sep "/") with true. cbn [negb forallb drop_while].
  rewrite Hend, bool_decide_false by done.
  change (is_sep "/") with true. cbn [negb andb].
  rewrite <-Hrev, reverse_involutive. apply text_chars.
Qed.

(** X7. A name joined to a directory has that directory as its [dirname]:
    the remote file of [_upload_directory] lies in the directory that was
    ensured just before, and the child of [_download_directory] in the
    directory that was listed.  The directory is not empty, does not end
    with a slash, and neither part holds a backslash; the name is not empty
    and holds no slash. *)
Theorem dirname_join_remote (remote_root filename : string) :
  remote_root ≠ "" → endswith_sep remote_root = false →
  lacks (ascii_of_nat 92) remote_root →
  filename ≠ "" → lacks "/" filename → lacks (ascii_of_nat 92) filename →
  _join_remote [remote_root; filename] = remote_root +:+ "/" +:+ filename
  ∧ dirname (_join_remote [remote_root; filename]) = remote_root.
Proof.
  intros Hd Hend Hdb Hf Hfs Hfb.
  assert (Hjoin : _join_remote [remote_root; filename]
                  = remote_root +:+ "/" +:+ filename).
  { unfold _join_remote.
    rewrite filter_cons_True, filter_cons_True, filter_nil by done.
    unfold posixpath_join. cbn [fold_left]. unfold join_step.
    assert (Hstart : startswith_sep filename = false).
    { destruct filename as [|c f]; [done|]. cbn [startswith_sep].
      unfold is_sep. destruct (Ascii.eqb_spec c "/") as [->|]; [|done].
      destruct Hfs. unfold chars. simpl. by left. }
    rewrite Hstart, Hend, bool_decide_false by done. cbn [orb].
    apply replace_backslash_id. unfold lacks in *.
    rewrite !chars_app. change (chars "/") with ["/"%char].
    intros [?|[Hc|?]%elem_of_app]%elem_of_app; [done| |done].
    apply list_elem_of_singleton in Hc. discriminate. }
  split; [done|]. rewrite Hjoin. by apply dirname_child.
Qed.

Lemma dirname_join_remote_witness :
  _join_remote ["/srv/data"; "report.txt"] = "/srv/data/report.txt"
  ∧ dirname (_join_remote ["/srv/data"; "report.txt"]) = "/srv/data".
Proof.
  apply (dirname_join_remote "/srv/data" "report.txt");
    try done; unfold lacks; vm_compute;
    repeat (intros [?|H]%elem_of_cons; [discriminate|revert H]);
    by intros ?%elem_of_nil.
Defined.

End SftpMoreProofs.

(** ** Part VI: further properties of the quicksorts *)

Module QuicksortMoreProofs.
Import Quicksort QuicksortProofs.

Section Slices.
Context {A : Type} `{PyOrd A}.

(** A list cut at the positions [lo ≤ hi] below its length. *)
Lemma cut_at (arr : list A) (lo hi : nat) :
  (lo ≤ hi < length arr)%nat →
  ∃ pivot,
    arr !! hi = Some pivot ∧
    arr = take lo arr ++ take (hi - lo) (drop lo arr)
          ++ pivot :: drop (S hi) arr.
Proof.
  intros Hbounds.
  destruct (lookup_lt_is_Some_2 arr hi) as [pivot Hpivot]; [lia|].
  exists pivot. split; [done|].
  rewrite <-(take_drop lo arr) at 1. f_equal.
  rewrite <-(take_drop (hi - lo) (drop lo arr)) at 1. f_equal.
  rewrite drop_drop. replace (lo + (hi - lo))%nat with hi by lia.
  by apply drop_S.
Qed.

Lemma cut_lengths (arr : list A) (lo hi : nat) :
  (lo ≤ hi < length arr)%nat →
  length (take lo arr) = lo
  ∧ length (take (hi - lo) (drop lo arr)) = (hi - lo)%nat.
Proof.
  intros Hbounds. rewrite !length_take, length_drop. lia.
Qed.

End Slices.

(** X8. [_partition(arr, low, high)] on bounds [0 <= low <= high < len(arr)]
    returns a position [p] between [low] and [high] and leaves the pivot,
    the element that stood at [high], at [p]; from [low] up to [p] stand
    elements [<=] the pivot, after [p] up to [high] elements that are not;
    nothing outside [low..high] is touched, and the list is rearranged,
    not changed in content. *)
Theorem partition_postcondition
  {A : Type} `{PyOrd A} (arr : list A) (low high : Z) :
  0 ≤ low ≤ high → high < Z.of_nat (length arr) →
  ∃ arr' p pivot,
    _partition arr low high = Ok (arr', p)
    ∧ arr !! Z.to_nat high = Some pivot
    ∧ low ≤ p ≤ high
    ∧ arr' !! Z.to_nat p = Some pivot
    ∧ arr' ≡ₚ arr
    ∧ (∀ k, (k < Z.to_nat low ∨ Z.to_nat high < k)%nat →
            arr' !! k = arr !! k)
    ∧ (∀ k x, (Z.to_nat low ≤ k < Z.to_nat p)%nat →
              arr' !! k = Some x → py_le x pivot = true)
    ∧ (∀ k x, (Z.to_nat p < k ≤ Z.to_nat high)%nat →
              arr' !! k = Some x → py_le x pivot = false).
Proof.
  intros Hlow Hhigh.
  set (lo := Z.to_nat low). set (hi := Z.to_nat high).
  assert (Hbounds : (lo ≤ hi < length arr)%nat) by lia.
  destruct (cut_at arr lo hi Hbounds) as (pivot & Hpivot & Hcut).
  destruct (cut_lengths arr lo hi Hbounds) as [Hpre Hseg].
  clear Hhigh. revert Hcut Hpre Hseg.
  generalize (take lo arr) (take (hi - lo) (drop lo arr)) (drop (S hi) arr).
  intros pre seg suf -> Hpre Hseg.
  destruct (partition_spec pre seg suf pivot low high)
    as (small & big & Hrun & Hperm & Hsmall & Hbig); [lia..|].
  assert (Hlen : (length small + length big = hi - lo)%nat).
  { by rewrite <-Hseg, <-Hperm, length_app. }
  exists (pre ++ small ++ pivot :: big ++ suf),
    (Z.of_nat (length pre + length small)), pivot.
  rewrite Nat2Z.id.
  split; [done|]. split; [done|]. split; [lia|].
  split; [|split; [|split; [|split]]].
  - rewrite app_assoc, lookup_app_r by (rewrite length_app; lia).
    rewrite length_app. by replace (_ - _)%nat with O by lia.
  - rewrite <-Hperm. solve_Permutation.
  - intros k [Hk|Hk].
    + rewrite !lookup_app_l by lia. done.
    + rewrite !(lookup_app_r pre) by lia.
      rewrite (lookup_app_r small), (lookup_app_r seg) by lia.
      destruct (k - length pre - length small)%nat as [|n] eqn:Hn; [lia|].
      destruct (k - length pre - length seg)%nat as [|m] eqn:Hm; [lia|].
      simpl. rewrite lookup_app_r by lia. f_equal. lia.
  - intros k x Hk Hx.
    rewrite lookup_app_r, lookup_app_l in Hx by lia.
    by apply (Forall_lookup_1 _ _ _ _ Hsmall Hx).
  - intros k x Hk Hx.
    rewrite lookup_app_r, lookup_app_r in Hx by lia.
    destruct (k - length pre - length small)%nat as [|n] eqn:Hn; [lia|].
    simpl in Hx. rewrite lookup_app_l in Hx by lia.
    by apply (Forall_lookup_1 _ _ _ _ Hbig Hx).
Qed.

Lemma partition_postcondition_witness :
  ∃ arr' p pivot,
    _partition [38; 27; 43; 3; 9; 82; 10] 1 4 = Ok (arr', p)
    ∧ [38; 27; 43; 3; 9; 82; 10] !! Z.to_nat 4 = Some pivot
    ∧ 1 ≤ p ≤ 4
    ∧ arr' !! Z.to_nat p = Some pivot
    ∧ arr' ≡ₚ [38; 27; 43; 3; 9; 82; 10]
    ∧ (∀ k, (k < Z.to_nat 1 ∨ Z.to_nat 4 < k)%nat →
            arr' !! k = [38; 27; 43; 3; 9; 82; 10] !! k)
    ∧ (∀ k x, (Z.to_nat 1 ≤ k < Z.to_nat p)%nat →
              arr' !! k = Some x → py_le x pivot = true)
    ∧ (∀ k x, (Z.to_nat p < k ≤ Z.to_nat 4)%nat →
              arr' !! k = Some x → py_le x pivot = false).
Proof.
  apply (partition_postcondition (A := Z) [38; 27; 43; 3; 9; 82; 10] 1 4).
  - lia.
  - simpl. lia.
Defined.

(** X9. [quicksort_inplace(arr, low, high)] with both bounds given sorts
    the slice [arr[low..high]] and nothing else: what stands before [low]
    and after [high] stays where it was, and the slice ends as the sorted
    rearrangement of what it held. *)
Theorem quicksort_inplace_sorts_slice
  {A : Type} `{PyTotalOrd A} (fuel : nat) (arr : list A) (low high : Z) :
  0 ≤ low → high < Z.of_nat (length arr) →
  (Z.to_nat (high - low + 1) < fuel)%nat →
  ∃ arr',
    quicksort_inplace_fuel fuel arr low high = Ok arr'
    ∧ take (Z.to_nat low) arr' = take (Z.to_nat low) arr
    ∧ drop (Z.to_nat (high + 1)) arr' = drop (Z.to_nat (high + 1)) arr
    ∧ StronglySorted le
        (take (Z.to_nat (high + 1 - low)) (drop (Z.to_nat low) arr'))
    ∧ take (Z.to_nat (high + 1 - low)) (drop (Z.to_nat low) arr')
      ≡ₚ take (Z.to_nat (high + 1 - low)) (drop (Z.to_nat low) arr).
Proof.
  intros Hlow Hhigh Hfuel.
  destruct (decide (low < high)) as [Hlt|Hge].
  - remember (Z.to_nat low) as lo eqn:Hlo.
    remember (Z.to_nat (high + 1 - low)) as n eqn:Hn.
    assert (Hcut : arr = take lo arr ++ take n (drop lo arr)
                         ++ drop (Z.to_nat (high + 1)) arr).
    { rewrite <-(take_drop lo arr) at 1. f_equal.
      rewrite <-(take_drop n (drop lo arr)) at 1. f_equal.
      rewrite drop_drop. f_equal. lia. }
    assert (Hpre : length (take lo arr) = lo) by (rewrite length_take; lia).
    assert (Hseg : length (take n (drop lo arr)) = n).
    { rewrite length_take, length_drop. lia. }
    revert Hcut Hpre Hseg.
    generalize (take lo arr) (take n (drop lo arr))
      (drop (Z.to_nat (high + 1)) arr).
    intros pre seg suf -> Hpre Hseg.
    destruct (quicksort_inplace_fuel_spec fuel pre seg suf low high)
      as (seg' & Hrun & Hperm & Hpo); [lia..|].
    assert (Hseg' : length seg' = n) by (by rewrite Hperm).
    exists (pre ++ seg' ++ suf). split; [done|].
    replace (Z.to_nat (high + 1)) with (length pre + n)%nat by lia.
    rewrite <-Hpre.
    rewrite !take_app_length, !drop_app_length.
    rewrite <-Hseg'.
    rewrite <-drop_drop, !drop_app_length, !take_app_length.
    eauto using pivot_ordered_sorted.
  - destruct fuel as [|fuel]; [lia|]. exists arr. cbn [quicksort_inplace_fuel].
    rewrite bool_decide_false by done.
    split; [done|]. split; [done|]. split; [done|]. split; [|done].
    destruct (take _ _) as [|x [|y l]] eqn:Htake; [constructor|repeat constructor|].
    apply (f_equal length) in Htake. rewrite length_take in Htake.
    simpl in Htake. lia.
Qed.

Lemma quicksort_inplace_sorts_slice_witness :
  ∃ arr',
    quicksort_inplace_fuel 5 [38; 27; 43; 3; 9; 82; 10] 1 4 = Ok arr'
    ∧ take (Z.to_nat 1) arr' = take (Z.to_nat 1) [38; 27; 43; 3; 9; 82; 10]
    ∧ drop (Z.to_nat (4 + 1)) arr'
      = drop (Z.to_nat (4 + 1)) [38; 27; 43; 3; 9; 82; 10]
    ∧ StronglySorted le
        (take (Z.to_nat (4 + 1 - 1)) (drop (Z.to_nat 1) arr'))
    ∧ take (Z.to_nat (4 + 1 - 1)) (drop (Z.to_nat 1) arr')
      ≡ₚ take (Z.to_nat (4 + 1 - 1))
           (drop (Z.to_nat 1) [38; 27; 43; 3; 9; 82; 10]).
Proof.
  apply (quicksort_inplace_sorts_slice (A := Z) 5
           [38; 27; 43; 3; 9; 82; 10] 1 4).
  - lia.
  - simpl. lia.
  - simpl. lia.
Defined.

(** X10. [quicksort_inplace] reads the list only when [low < high].  With
    [low >= high] the call returns at once and the list stays as it is,
    whatever the bounds are; with [low < high] and [high] outside
    [-len(arr) .. len(arr) - 1] the first read, [arr[high]] in
    [_partition], raises [IndexError]. *)
Theorem quicksort_inplace_bounds
  {A : Type} `{PyOrd A} (fuel : nat) (arr : list A) (low high : Z) :
  (high ≤ low → quicksort_inplace_fuel (S fuel) arr low high = Ok arr)
  ∧ (low < high →
     ¬ (- Z.of_nat (length arr) ≤ high < Z.of_nat (length arr)) →
     _partition arr low high = Raise IndexError
     ∧ quicksort_inplace_fuel (S fuel) arr low high = Raise IndexError).
Proof.
  split.
  - intros Hge. cbn [quicksort_inplace_fuel].
    by rewrite bool_decide_false by lia.
  - intros Hlt Hout.
    assert (Hpart : _partition arr low high = Raise IndexError).
    { unfold _partition, py_getitem, py_index.
      rewrite !bool_decide_false by lia. done. }
    split; [done|]. cbn [quicksort_inplace_fuel].
    rewrite bool_decide_true by done. by rewrite Hpart.
Qed.

Section Objects.
Context {A : Type} `{PyOrd A}.

(** A run of [quicksort] only adds objects to the store. *)
Lemma quicksort_grows fuel :
  ∀ arr (σ σ' : gmap nat (list A)) r,
  quicksort fuel arr σ = Ok (r, σ') → σ ⊆ σ'.
Proof.
  induction fuel as [|fuel IH]; intros arr σ σ' r Hrun; [done|].
  cbn [quicksort] in Hrun. case_bool_decide as Hshort.
  { by simplify_eq. }
  destruct (py_getitem _ _) as [pivot|]; [|done].
  cbn [mbind res_bind] in Hrun.
  destruct (new_list_spec (filter (λ x, py_lt x pivot = true) (deref σ arr)) σ)
    as (_ & _ & Hsub1).
  destruct (new_list (filter (λ x, py_lt x pivot = true) (deref σ arr)) σ)
    as [left_ σ1]. cbn [fst snd] in *.
  destruct (new_list_spec (filter (λ x, py_eq x pivot = true) (deref σ arr)) σ1)
    as (_ & _ & Hsub2).
  destruct (new_list (filter (λ x, py_eq x pivot = true) (deref σ arr)) σ1)
    as [middle σ2]. cbn [fst snd] in *.
  destruct (new_list_spec (filter (λ x, py_gt x pivot = true) (deref σ arr)) σ2)
    as (_ & _ & Hsub3).
  destruct (new_list (filter (λ x, py_gt x pivot = true) (deref σ arr)) σ2)
    as [right_ σ3]. cbn [fst snd] in *.
  destruct (quicksort fuel left_ σ3) as [[l σ4]|] eqn:Hl; [|done].
  cbn [mbind res_bind] in Hrun. apply IH in Hl.
  destruct (new_list_spec (deref σ4 l ++ deref σ4 middle) σ4)
    as (_ & _ & Hsub5).
  destruct (new_list (deref σ4 l ++ deref σ4 middle) σ4) as [lm σ5].
  cbn [fst snd] in *.
  destruct (quicksort fuel right_ σ5) as [[rr σ6]|] eqn:Hr; [|done].
  cbn [mbind res_bind] in Hrun. apply IH in Hr.
  destruct (new_list_spec (deref σ6 lm ++ deref σ6 rr) σ6)
    as (Hfresh & _ & Hsub7).
  destruct (new_list (deref σ6 lm ++ deref σ6 rr) σ6) as [ro σ7].
  cbn [fst snd] in *. simplify_eq.
  repeat (etrans; [eassumption|]). done.
Qed.

(** The object a run on more than one element returns did not exist
    before. *)
Lemma quicksort_fresh fuel arr (σ σ' : gmap nat (list A)) r :
  ¬ (length (deref σ arr) ≤ 1)%nat →
  quicksort fuel arr σ = Ok (r, σ') → σ !! r = None.
Proof.
  intros Hlong Hrun. destruct fuel as [|fuel]; [done|].
  cbn [quicksort] in Hrun. rewrite bool_decide_false in Hrun by done.
  destruct (py_getitem _ _) as [pivot|]; [|done].
  cbn [mbind res_bind] in Hrun.
  destruct (new_list_spec (filter (λ x, py_lt x pivot = true) (deref σ arr)) σ)
    as (_ & _ & Hsub1).
  destruct (new_list (filter (λ x, py_lt x pivot = true) (deref σ arr)) σ)
    as [left_ σ1]. cbn [fst snd] in *.
  destruct (new_list_spec (filter (λ x, py_eq x pivot = true) (deref σ arr)) σ1)
    as (_ & _ & Hsub2).
  destruct (new_list (filter (λ x, py_eq x pivot = true) (deref σ arr)) σ1)
    as [middle σ2]. cbn [fst snd] in *.
  destruct (new_list_spec (filter (λ x, py_gt x pivot = true) (deref σ arr)) σ2)
    as (_ & _ & Hsub3).
  destruct (new_list (filter (λ x, py_gt x pivot = true) (deref σ arr)) σ2)
    as [right_ σ3]. cbn [fst snd] in *.
  destruct (quicksort fuel left_ σ3) as [[l σ4]|] eqn:Hl; [|done].
  cbn [mbind res_bind] in Hrun. apply quicksort_grows in Hl.
  destruct (new_list_spec (deref σ4 l ++ deref σ4 middle) σ4)
    as (_ & _ & Hsub5).
  destruct (new_list (deref σ4 l ++ deref σ4 middle) σ4) as [lm σ5].
  cbn [fst snd] in *.
  destruct (quicksort fuel right_ σ5) as [[rr σ6]|] eqn:Hr; [|done].
  cbn [mbind res_bind] in Hrun. apply quicksort_grows in Hr.
  destruct (new_list_spec (deref σ6 lm ++ deref σ6 rr) σ6)
    as (Hfresh & _ & _).
  destruct (new_list (deref σ6 lm ++ deref σ6 rr) σ6) as [ro σ7].
  cbn [fst snd] in *. simplify_eq.
  assert (Hsub : σ ⊆ σ6) by (repeat (etrans; [eassumption|]); done).
  destruct (σ !! r) as [v|] eqn:Hv; [|done].
  by rewrite (lookup_weaken _ _ _ _ Hv Hsub) in Hfresh.
Qed.

(** The recursion on values ends within the length of the list as soon
    as no element compares below or above itself. *)
Lemma quicksort_fuel_returns (fuel : nat) (arr : list A) :
  (∀ x, py_lt x x = false) → (∀ x, py_gt x x = false) →
  (length arr < fuel)%nat →
  ∃ out, quicksort_fuel fuel arr = Ok out.
Proof.
  intros Hlt Hgt. revert arr.
  induction fuel as [|fuel IH]; intros arr Hlen; [lia|].
  cbn [quicksort_fuel]. case_bool_decide as Hshort; [by exists arr|].
  destruct (py_getitem_in_range arr (Z.of_nat (length arr) `div` 2))
    as (pivot & -> & Hpivot).
  { split; [apply Z.div_pos; lia|]. apply Z.div_lt_upper_bound; lia. }
  cbn [mbind res_bind]. apply list_elem_of_lookup_2 in Hpivot.
  destruct (IH (filter (λ x, py_lt x pivot = true) arr)) as [l ->].
  { assert (length (filter (λ x, py_lt x pivot = true) arr)
            < length arr)%nat; [|lia].
    apply (length_filter_lt _ _ pivot); [done|]. by rewrite Hlt. }
  destruct (IH (filter (λ x, py_gt x pivot = true) arr)) as [r ->].
  { assert (length (filter (λ x, py_gt x pivot = true) arr)
            < length arr)%nat; [|lia].
    apply (length_filter_lt _ _ pivot); [done|]. by rewrite Hgt. }
  by eexists.
Qed.

(** So does the run on objects, whether or not the name is bound. *)
Lemma quicksort_returns (fuel : nat) (arr : nat) (σ : gmap nat (list A)) :
  (∀ x, py_lt x x = false) → (∀ x, py_gt x x = false) →
  (length (deref σ arr) < fuel)%nat →
  ∃ r σ', quicksort fuel arr σ = Ok (r, σ').
Proof.
  intros Hlt Hgt Hfuel. destruct (σ !! arr) as [xs|] eqn:Harr.
  - rewrite (deref_lookup _ _ _ Harr) in Hfuel.
    destruct (quicksort_fuel_returns fuel xs Hlt Hgt Hfuel) as [out Hout].
    destruct (quicksort_store fuel arr σ xs out Harr Hout)
      as (r & σ' & Hrun & _ & _).
    by exists r, σ'.
  - destruct fuel as [|fuel]; [lia|]. exists arr, σ. cbn [quicksort].
    unfold deref. rewrite Harr. simpl. done.
Qed.

End Objects.

(** X11. Which object [quicksort] returns.  The call ends with a result
    once no element compares below or above itself, within a recursion
    depth of the length of the list.  On a list of at most one element
    the result is the list object that was given, nothing new, and the
    store is as before: caller and callee then share one list.  On a longer
    list the object returned did not exist before the call, so it is
    neither the argument nor any other list the caller holds. *)
Theorem quicksort_result_object
  {A : Type} `{PyOrd A} (fuel : nat) (arr : nat) (σ : gmap nat (list A)) :
  ((∀ x, py_lt x x = false) → (∀ x, py_gt x x = false) →
   (length (deref σ arr) < fuel)%nat →
   ∃ r σ', quicksort fuel arr σ = Ok (r, σ'))
  ∧ (∀ r σ', quicksort fuel arr σ = Ok (r, σ') →
     if bool_decide (length (deref σ arr) ≤ 1)%nat
     then r = arr ∧ σ' = σ
     else r ≠ arr ∧ σ !! r = None ∧ σ ⊆ σ').
Proof.
  split; [apply quicksort_returns|].
  intros r σ' Hrun. case_bool_decide as Hshort.
  - destruct fuel as [|fuel]; [done|]. cbn [quicksort] in Hrun.
    rewrite bool_decide_true in Hrun by done. by simplify_eq.
  - pose proof (quicksort_fresh fuel arr σ σ' r Hshort Hrun) as Hfresh.
    split; [|split; [done|by eapply quicksort_grows]].
    intros ->. unfold deref in Hshort. rewrite Hfresh in Hshort.
    simpl in Hshort. lia.
Qed.

Lemma quicksort_result_object_witness :
  (∃ r σ', quicksort 3 0%nat {[0%nat := [7]]} = Ok (r, σ')
           ∧ r = 0%nat ∧ σ' = ({[0%nat := [7]]} : gmap nat (list Z)))
  ∧ (∃ r σ', quicksort 3 0%nat {[0%nat := [7; 5]]} = Ok (r, σ')
             ∧ r ≠ 0%nat
             ∧ ({[0%nat := [7; 5]]} : gmap nat (list Z)) !! r = None).
Proof.
  assert (Hlt : ∀ x : Z, py_lt x x = false) by (intros x; apply Z.ltb_irrefl).
  assert (Hgt : ∀ x : Z, py_gt x x = false).
  { intros x. simpl. rewrite Z.gtb_ltb. apply Z.ltb_irrefl. }
  split.
  - destruct (quicksort_result_object (A := Z) 3 0 {[0%nat := [7]]})
      as [Hends Hobj].
    destruct (Hends Hlt Hgt) as (r & σ' & Hrun); [vm_compute; lia|].
    exists r, σ'. split; [done|]. exact (Hobj r σ' Hrun).
  - destruct (quicksort_result_object (A := Z) 3 0 {[0%nat := [7; 5]]})
      as [Hends Hobj].
    destruct (Hends Hlt Hgt) as (r & σ' & Hrun); [vm_compute; lia|].
    exists r, σ'. split; [done|].
    destruct (Hobj r σ' Hrun) as (Hne & Hfresh & _). done.
Defined.

(** X12. [quicksort] ends on every list as soon as no element compares
    below or above itself; the operators need not describe an order.  The
    depth of the recursion stays within the length of the list. *)
Theorem quicksort_terminates
  {A : Type} `{PyOrd A} (fuel : nat) (arr : list A) :
  (∀ x, py_lt x x = false) → (∀ x, py_gt x x = false) →
  (length arr < fuel)%nat →
  ∃ out, quicksort_fuel fuel arr = Ok out.
Proof.
  intros Hlt Hgt. revert arr.
  induction fuel as [|fuel IH]; intros arr Hlen; [lia|].
  cbn [quicksort_fuel]. case_bool_decide as Hshort; [by exists arr|].
  destruct (py_getitem_in_range arr (Z.of_nat (length arr) `div` 2))
    as (pivot & -> & Hpivot).
  { split; [apply Z.div_pos; lia|]. apply Z.div_lt_upper_bound; lia. }
  cbn [mbind res_bind]. apply list_elem_of_lookup_2 in Hpivot.
  destruct (IH (filter (λ x, py_lt x pivot = true) arr)) as [l ->].
  { assert (length (filter (λ x, py_lt x pivot = true) arr)
            < length arr)%nat; [|lia].
    apply (length_filter_lt _ _ pivot); [done|]. by rewrite Hlt. }
  destruct (IH (filter (λ x, py_gt x pivot = true) arr)) as [r ->].
  { assert (length (filter (λ x, py_gt x pivot = true) arr)
            < length arr)%nat; [|lia].
    apply (length_filter_lt _ _ pivot); [done|]. by rewrite Hgt. }
  by eexists.
Qed.

Lemma quicksort_terminates_witness :
  ∃ out, quicksort_fuel 8 [38; 27; 43; 3; 9; 82; 10] = Ok out.
Proof.
  apply (quicksort_terminates (A := Z) 8 [38; 27; 43; 3; 9; 82; 10]).
  - intros x. apply Z.ltb_irrefl.
  - intros x. simpl. rewrite Z.gtb_ltb. apply Z.ltb_irrefl.
  - simpl. lia.
Defined.

End QuicksortMoreProofs.

(** ** Part VII: properties of the client *)

Module ClientProofs.
Import Sftp Client.

(** Runs every library call of [connect] down to its answer. *)
Ltac run_connect :=
  unfold connect, cbind, new_SSHClient, set_ssh, set_sftp,
    call_load_host_keys, set_missing_host_key_policy, load_key, cret,
    call_connect, call_open_sftp, __init__;
  cbn [_ssh _sftp];
  repeat match goal with
    | |- context [truthy ?o] => destruct (truthy o)
    | |- context [load_host_keys ?l ?f ?s] => destruct (load_host_keys l f s)
    | |- context [from_private_key_file ?l ?k ?p ?s] =>
        destruct (from_private_key_file l k p s)
    | |- context [ssh_connect ?l ?h ?p ?u ?w ?k ?t ?s] =>
        destruct (ssh_connect l h p u w k t s) as [[] ?]
    | |- context [open_sftp ?l ?s] => destruct (open_sftp l s) as [[] ?]
    end;
  cbn [_ssh _sftp app].

Section Connection.
Context {S : Type} (lib : Paramiko S) (fs : LocalView)
  (config : ConnectionConfig).

(** [connect] on a new client: [_ssh] is set whatever happens, [_sftp]
    exactly when the call returns; nothing is closed. *)
Lemma connect_new (s : S) :
  ∃ r c' s' t,
    connect lib fs config (__init__, s) = (r, (c', s'), t)
    ∧ _ssh c' = Some tt
    ∧ match r with
      | Ok _ => _sftp c' = Some tt
      | Raise e => _sftp c' = None ∧ e ≠ Uncovered
      end
    ∧ filter (λ ev, is_close ev = true) t = []
    ∧ filter (λ ev, is_transfer ev = true) t = [].
Proof.
  run_connect; do 4 eexists; (split; [reflexivity|]); cbn [_ssh _sftp];
    repeat split; done.
Qed.

Lemma close_run (c : client) (s : S) :
  ∃ s', close lib (c, s)
        = (Ok tt, (__init__, s'),
           match _sftp c with Some _ => [EvSftpClose] | None => [] end
           ++ match _ssh c with Some _ => [EvSshClose] | None => [] end).
Proof.
  unfold close, __init__. destruct c as [[[]|] [[]|]]; cbn [_ssh _sftp];
    by eexists.
Qed.

End Connection.

(** X13. [close] leaves both fields [None] from whatever state it starts
    in; it closes the SFTP channel before the SSH client, each only when
    it is there.  After it a second [close] does nothing at all, and the
    [sftp] property raises [RuntimeError]. *)
Theorem close_releases_everything
  {S : Type} (lib : Paramiko S) (c : client) (s : S) :
  ∃ s',
    close lib (c, s)
    = (Ok tt, (__init__, s'),
       match _sftp c with Some _ => [EvSftpClose] | None => [] end
       ++ match _ssh c with Some _ => [EvSshClose] | None => [] end)
    ∧ close lib (__init__, s') = (Ok tt, (__init__, s'), [])
    ∧ sftp_property (__init__, s')
      = (Raise (RuntimeError "SFTP client is not connected"),
         (__init__, s'), []).
Proof.
  destruct (close_run lib c s) as [s' Hrun]. exists s'. done.
Qed.

(** X14. [connect] acts once per client.  When a first [connect] on a new
    client raised, whether at the host keys, the private key, the
    connection or the SFTP channel, [_ssh] is set all the same and [_sftp]
    is not: a second [connect] returns at once without a call on the
    library, and the [sftp] property goes on raising [RuntimeError]. *)
Theorem connect_after_failure
  {S : Type} (lib : Paramiko S) (fs : LocalView) (config : ConnectionConfig)
  (s s' : S) (c' : client) (e : exn) (t : list event) :
  connect lib fs config (__init__, s) = (Raise e, (c', s'), t) →
  c' = {| _ssh := Some tt; _sftp := None |}
  ∧ connect lib fs config (c', s') = (Ok tt, (c', s'), [])
  ∧ sftp_property (c', s')
    = (Raise (RuntimeError "SFTP client is not connected"), (c', s'), []).
Proof.
  intros Hrun.
  destruct (connect_new lib fs config s)
    as (r & c1 & s1 & t1 & Hnew & Hssh & Hsftp & _).
  rewrite Hrun in Hnew. simplify_eq. destruct Hsftp as [Hsftp _].
  destruct c1 as [ssh1 sftp1]. cbn [_ssh _sftp] in *. subst.
  done.
Qed.

Lemma connect_after_failure_witness :
  connect refusing_lib demo_view demo_config
    ({| _ssh := Some tt; _sftp := None |}, empty_disk)
  = (Ok tt, ({| _ssh := Some tt; _sftp := None |}, empty_disk), [])
  ∧ sftp_property ({| _ssh := Some tt; _sftp := None |}, empty_disk)
    = (Raise (RuntimeError "SFTP client is not connected"),
       ({| _ssh := Some tt; _sftp := None |}, empty_disk), []).
Proof.
  destruct (connect_after_failure refusing_lib demo_view demo_config
              empty_disk empty_disk {| _ssh := Some tt; _sftp := None |}
              (SystemExit "Unable to connect to example.org:22 - Authentication failed.")
              [EvSSHClient; EvSetMissingHostKeyPolicy;
               EvConnect "example.org" 22 (Some "u") (Some "secret") None None
                 (SSHException "Authentication failed.")])
    as (_ & Hagain & Hprop).
  - vm_compute. reflexivity.
  - split; [exact Hagain|exact Hprop].
Defined.

(** X15. A private key that cannot be loaded stops [connect] before the
    network is touched: when a key is configured and loading it does not
    give a key, the call raises, the state is as before, and neither the
    connection nor the SFTP channel was asked for.  Only the two answers
    that have a handler become [SystemExit]. *)
Theorem connect_key_first
  {S : Type} (lib : Paramiko S) (fs : LocalView) (config : ConnectionConfig)
  (s : S) (key_path : string) :
  private_key config = Some key_path → key_path ≠ "" →
  (∀ fn, load_host_keys lib fn s = None) →
  (∀ pkey, from_private_key_file lib (expanduser fs key_path)
             (passphrase config) s ≠ KeyLoaded pkey) →
  ∃ e c' t,
    connect lib fs config (__init__, s) = (Raise e, (c', s), t)
    ∧ filter (λ ev, is_network ev = true) t = []
    ∧ last t = Some (EvFromPrivateKeyFile (expanduser fs key_path)
                       (passphrase config)
                       (from_private_key_file lib (expanduser fs key_path)
                          (passphrase config) s))
    ∧ e = match from_private_key_file lib (expanduser fs key_path)
                  (passphrase config) s with
          | PasswordRequiredException =>
              SystemExit "Private key requires a passphrase. Supply --passphrase or set it in the config file."
          | KeyFileNotFound =>
              SystemExit ("Private key not found: " +:+ expanduser fs key_path)
          | KeyOtherError exc => LibraryError exc
          | KeyLoaded _ => e
          end.
Proof.
  intros Hkey Hne Hhosts Hload.
  unfold connect, cbind, new_SSHClient, set_ssh, set_sftp,
    call_load_host_keys, set_missing_host_key_policy, load_key, cret,
    call_connect, call_open_sftp, __init__.
  cbn [_ssh _sftp]. rewrite Hkey. cbn [truthy default from_option id].
  rewrite bool_decide_true by done.
  destruct (truthy (known_hosts config)); rewrite ?Hhosts;
    destruct (from_private_key_file lib (expanduser fs key_path)
                (passphrase config) s) as [pkey| | |exc] eqn:Hanswer;
    try (by destruct (Hload pkey));
    do 3 eexists; (split; [reflexivity|]); cbn [app]; done.
Qed.

Lemma connect_key_first_witness :
  ∃ e c' t,
    connect refusing_lib demo_view demo_key_config (__init__, empty_disk)
    = (Raise e, (c', empty_disk), t)
    ∧ filter (λ ev, is_network ev = true) t = []
    ∧ e = SystemExit "Private key requires a passphrase. Supply --passphrase or set it in the config file.".
Proof.
  destruct (connect_key_first refusing_lib demo_view demo_key_config
              empty_disk "~/.ssh/id_rsa")
    as (e & c' & t & Hrun & Hnet & _ & He); [done..|].
  exists e, c', t. split; [exact Hrun|]. split; [exact Hnet|exact He].
Defined.

(** X16. The [with] block of [main].  When [connect] raises, [main] ends
    in that exception; no transfer was started and nothing is closed, so
    the SSH client that [connect] created stays open.  When [connect]
    returns, the transfer runs on a connected client, and however it ends
    the SFTP channel and then the SSH client are closed as the last two
    calls; [main] returns 0 when the transfer returned and ends in the
    transfer's exception otherwise. *)
Theorem main_closes_after_transfer
  {S : Type} (lib : Paramiko S) (sftp : Session S) (fs : LocalView)
  (config : ConnectionConfig) (act : action) (local_path remote_path : string)
  (s : S) :
  ∃ r0 c0 s0 t0,
    connect lib fs config (__init__, s) = (r0, (c0, s0), t0)
    ∧ match r0 with
      | Raise e =>
          main lib sftp fs config act local_path remote_path s
          = (Raise e, (c0, s0), t0)
          ∧ _ssh c0 = Some tt
          ∧ filter (λ ev, is_close ev = true) t0 = []
          ∧ filter (λ ev, is_transfer ev = true) t0 = []
      | Ok _ =>
          ∃ r1 s1 t1,
            match act with
            | Upload => upload sftp fs local_path remote_path s0
            | Download => download sftp fs remote_path local_path s0
            end = (r1, s1, t1)
            ∧ main lib sftp fs config act local_path remote_path s
              = (match r1 with
                 | Sftp.Ok _ => Ok 0
                 | Sftp.Raise e => Raise (Transfer e)
                 end,
                 (__init__, ssh_close lib (sftp_close lib s1)),
                 t0 ++ (EvTransfer <$> t1) ++ [EvSftpClose; EvSshClose])
      end.
Proof.
  destruct (connect_new lib fs config s)
    as (r0 & c0 & s0 & t0 & Hnew & Hssh & Hsftp & Hclose & Htransfer).
  exists r0, c0, s0, t0. split; [done|].
  unfold main, cbind, with_client, __enter__, __exit__. rewrite Hnew.
  destruct r0 as [[]|e]; [|done].
  destruct c0 as [ssh0 sftp0]. cbn [_ssh _sftp] in *. subst.
  destruct act.
  - destruct (upload sftp fs local_path remote_path s0) as [[r1 s1] t1] eqn:Hrun.
    exists r1, s1, t1. split; [done|].
    unfold transfer. cbn [_sftp]. rewrite Hrun.
    unfold close, cret. cbn [_ssh _sftp].
    destruct r1; cbn [app]; by rewrite ?app_nil_r, <-?app_assoc.
  - destruct (download sftp fs remote_path local_path s0)
      as [[r1 s1] t1] eqn:Hrun.
    exists r1, s1, t1. split; [done|].
    unfold transfer. cbn [_sftp]. rewrite Hrun.
    unfold close, cret. cbn [_ssh _sftp].
    destruct r1; cbn [app]; by rewrite ?app_nil_r, <-?app_assoc.
Qed.

End ClientProofs.

(** ** Part VIII: properties of the merge of the connection settings *)

Module ConfigProofs.
Import Config.

Lemma merged_port (args : Namespace) (config : gmap string value) :
  merged args config !! "port"
  = Some (if truthy (of_option (host args))
             || negb (bool_decide (is_Some (config !! "port")))
          then VInt (port args)
          else get_or config "port" (VInt (port args))).
Proof. reflexivity. Qed.

Lemma merged_timeout (args : Namespace) (config : gmap string value) :
  merged args config !! "timeout"
  = Some (if truthy (of_option (host args))
             || negb (bool_decide (is_Some (config !! "timeout")))
          then VFloat (timeout args)
          else get_or config "timeout" (VFloat (timeout args))).
Proof. reflexivity. Qed.

Lemma merged_username (args : Namespace) (config : gmap string value) :
  merged args config !! "username"
  = Some (py_or (of_option (username args)) (get config "username")).
Proof. reflexivity. Qed.

(** X17. Where the port and the timeout come from.  With a host on the
    command line the port and the timeout of the configuration file are
    dropped, also when [--port] and [--timeout] are not given and only
    their defaults stand, while a user name missing on the command line is
    still taken from the file.  Without a host on the command line it is
    the other way round: a port or timeout that the file names wins, and
    what [--port] or [--timeout] say has no effect. *)
Theorem host_option_decides_port_and_timeout
  (args : Namespace) (config : gmap string value) :
  (truthy (of_option (host args)) = true →
   merged args config !! "port" = Some (VInt (port args))
   ∧ merged args config !! "timeout" = Some (VFloat (timeout args))
   ∧ (username args = None →
      merged args config !! "username" = Some (get config "username")))
  ∧ (truthy (of_option (host args)) = false →
     (∀ v, config !! "port" = Some v →
           merged args config !! "port" = Some v)
     ∧ (∀ v, config !! "timeout" = Some v →
             merged args config !! "timeout" = Some v)).
Proof.
  rewrite merged_port, merged_timeout, merged_username. split.
  - intros ->. cbn [orb]. split; [done|]. split; [done|].
    by intros ->.
  - intros ->. cbn [orb]. split; intros v Hv; unfold get_or; rewrite Hv;
      by rewrite bool_decide_true by done.
Qed.

End ConfigProofs.

(** ** Part IX: whole trees *)

Module SftpTreeProofs.
Import Sftp SftpMore SftpProofs SftpMoreProofs.

(** *** Single path names *)

Lemma split_names_no_sep (cs : list ascii) :
  ∀ cur, forallb (λ c, negb (is_sep c)) cs = true →
  split_names cur cs
  = if bool_decide (reverse cs ++ cur = []) then []
    else [text (reverse (reverse cs ++ cur))].
Proof.
  induction cs as [|c cs IH]; intros cur Hcs.
  { simpl. by case_bool_decide. }
  simpl in Hcs. apply andb_true_iff in Hcs as [Hc Hcs].
  apply negb_true_iff in Hc. cbn [split_names]. rewrite Hc.
  rewrite (IH _ Hcs), reverse_cons, <-app_assoc. done.
Qed.

Lemma plain_name_parts (n : string) :
  plain_name n = true →
  n ≠ "" ∧ n ≠ "." ∧ n ≠ ".." ∧ startswith_sep n = false
  ∧ endswith_sep n = false ∧ lacks "/" n ∧ split_path n = [n].
Proof.
  unfold plain_name. intros [Hne Hsep]%andb_true_iff.
  apply negb_true_iff, bool_decide_eq_false in Hne.
  assert (H1 : n ≠ "") by (intros ->; apply Hne; by left).
  assert (H2 : n ≠ ".") by (intros ->; apply Hne; right; by left).
  assert (H3 : n ≠ "..") by (intros ->; apply Hne; right; right; by left).
  assert (Hall : ∀ c, c ∈ chars n → is_sep c = false).
  { intros c Hc. apply negb_true_iff.
    by apply (proj1 (forallb_forall _ _) Hsep), list_elem_of_In. }
  split; [done|]. split; [done|]. split; [done|]. split; [|split; [|split]].
  - destruct n as [|c n]; [done|]. apply Hall. unfold chars. simpl. by left.
  - unfold endswith_sep. destruct (reverse (chars n)) as [|c cs] eqn:Hrev;
      [done|].
    apply Hall. apply elem_of_reverse. rewrite Hrev. by left.
  - intros Hin. apply Hall in Hin. done.
  - unfold split_path. rewrite split_names_no_sep by done.
    rewrite app_nil_r, reverse_involutive, text_chars.
    rewrite bool_decide_false; [done|].
    intros Hnil%(f_equal reverse). rewrite reverse_involutive in Hnil.
    by apply chars_nil in Hnil.
Qed.

Lemma Path_div_plain (base : list string) (n : string) :
  plain_name n = true → Path_div base n = base ++ [n].
Proof.
  intros (_ & Hdot & _ & Hstart & _ & _ & Hsplit)%plain_name_parts.
  unfold Path_div, pure_parts. rewrite Hstart, Hsplit.
  by rewrite filter_cons_True, filter_nil by done.
Qed.

Lemma resolves_to_itself_child fs base n :
  plain_name n = true →
  resolves_to_itself fs base → resolves_to_itself fs (base ++ [n]).
Proof.
  intros Hn Hres q Hq. rewrite <-app_assoc. apply Hres. by constructor.
Qed.

Lemma resolves_to_itself_base fs base :
  resolves_to_itself fs base → resolve fs (path_str base) = base.
Proof.
  intros Hres. specialize (Hres []). rewrite app_nil_r in Hres.
  apply Hres. constructor.
Qed.

(** With single path names and a local side that resolves to itself, the
    plan of a download is the plain one. *)
Lemma download_plan_plain_eq fs (d : rentry) :
  ∀ remote_dir local_dir,
  plain_listing d = true →
  resolves_to_itself fs (resolve_local fs local_dir) →
  download_plan fs remote_dir local_dir d
  = download_plan_plain remote_dir (resolve_local fs local_dir) d.
Proof.
  induction d as [n m a listing IH] using rentry_induction.
  intros remote_dir local_dir Hplain Hres.
  cbn [download_plan download_plan_plain]. f_equal.
  cbn [plain_listing] in Hplain.
  pose proof (proj1 (forallb_forall _ _) Hplain) as Hall.
  clear Hplain. revert IH Hall.
  generalize (resolve_local fs local_dir) Hres. clear Hres.
  intros base Hres IH Hall.
  induction listing as [|e listing IHl]; [done|].
  apply Forall_cons in IH as [IHe IH]. cbn [flat_map].
  rewrite IHl by (try done; intros x Hx; apply Hall; by right).
  f_equal.
  destruct (proj1 (andb_true_iff _ _) (Hall e (or_introl eq_refl)))
    as [Hname Hsub].
  rewrite (Path_div_plain _ _ Hname).
  destruct (S_ISDIR (rst_mode e)); [|done].
  assert (Hchild : resolve_local fs (Abs (base ++ [rfilename e]))
                   = base ++ [rfilename e]).
  { simpl. apply resolves_to_itself_base. by apply resolves_to_itself_child. }
  rewrite IHe; [by rewrite Hchild|done|].
  rewrite Hchild. by apply resolves_to_itself_child.
Qed.

Lemma split_names_sep (cs rest : list ascii) :
  ∀ cur, forallb (λ c, negb (is_sep c)) cs = true →
  split_names cur (cs ++ "/"%char :: rest)
  = (if bool_decide (reverse cs ++ cur = []) then []
     else [text (reverse (reverse cs ++ cur))])
    ++ split_names [] rest.
Proof.
  induction cs as [|c cs IH]; intros cur Hcs.
  { simpl. by case_bool_decide. }
  simpl in Hcs. apply andb_true_iff in Hcs as [Hc Hcs].
  apply negb_true_iff in Hc. cbn [app split_names]. rewrite Hc.
  rewrite (IH _ Hcs), reverse_cons, <-app_assoc. done.
Qed.

Lemma split_path_concat (p : list string) :
  Forall (λ n, plain_name n = true) p →
  split_names [] (chars (String.concat "/" p)) = p.
Proof.
  induction p as [|a p IH]; intros Hp; [done|].
  apply Forall_cons in Hp as [Ha Hp].
  destruct (plain_name_parts _ Ha) as (Hne & _ & _ & _ & _ & Hsep & Hsplit).
  destruct p as [|b p]; [exact Hsplit|].
  change (String.concat "/" (a :: b :: p))
    with (a +:+ "/" +:+ String.concat "/" (b :: p)).
  rewrite !chars_app. change (chars "/") with ["/"%char]. cbn [app].
  rewrite split_names_sep.
  2: { apply forallb_forall. intros c Hc%list_elem_of_In. unfold is_sep.
       destruct (Ascii.eqb_spec c "/") as [->|]; [by destruct Hsep|done]. }
  rewrite IH by done. rewrite app_nil_r, reverse_involutive, text_chars.
  rewrite bool_decide_false; [done|].
  intros Hnil%(f_equal reverse). rewrite reverse_involutive in Hnil.
  by apply chars_nil in Hnil.
Qed.

(** On the local disk of the examples paths of single names resolve to
    themselves. *)
Lemma demo_view_resolves (base : list string) :
  Forall (λ n, plain_name n = true) base →
  resolves_to_itself demo_view base.
Proof.
  intros Hbase q Hq. cbn [resolve demo_view]. unfold path_str.
  change (startswith_sep ("/" +:+ ?x)) with true. cbv iota.
  unfold split_path. rewrite chars_app. change (chars "/") with ["/"%char].
  cbn [app split_names]. change (is_sep "/") with true. cbv iota.
  rewrite bool_decide_true by done. cbn [app].
  apply split_path_concat. by apply Forall_app.
Qed.

(** *** Remote paths of an upload *)

Lemma replace_backslash_empty (a : string) :
  replace_backslash a = "" → a = "".
Proof.
  unfold replace_backslash. intros Ha%(f_equal chars).
  rewrite chars_text in Ha. destruct a; [done|]. discriminate Ha.
Qed.

Lemma lacks_app c (a b : string) :
  lacks c a → lacks c b → lacks c (a +:+ b).
Proof.
  unfold lacks. rewrite chars_app. intros Ha Hb [?|?]%elem_of_app; done.
Qed.

Lemma portable_name_parts (n : string) :
  portable_name n = true →
  plain_name n = true ∧ lacks (ascii_of_nat 92) n.
Proof.
  unfold portable_name. intros [Hplain Hbs]%andb_true_iff.
  split; [done|]. intros Hin.
  apply list_elem_of_In in Hin.
  apply (proj1 (forallb_forall _ _) Hbs) in Hin.
  by rewrite Ascii.eqb_refl in Hin.
Qed.

Lemma startswith_sep_app (a b : string) :
  a ≠ "" → startswith_sep (a +:+ b) = startswith_sep a.
Proof. by destruct a. Qed.

Lemma dirname_no_sep (f : string) : lacks "/" f → dirname f = "".
Proof.
  intros Hf. unfold dirname, lacks in *.
  rewrite <-(app_nil_r (reverse (chars f))), drop_while_all; [done|].
  intros c Hc. rewrite elem_of_reverse in Hc. unfold is_sep.
  destruct (Ascii.eqb_spec c "/") as [->|]; [|done]. by destruct Hf.
Qed.

Section ChildPath.
Context (m c : string).
Hypothesis Hclean : lacks (ascii_of_nat 92) m.
Hypothesis Hend : endswith_sep m = false.
Hypothesis Hname : portable_name c = true.

Lemma join_child : _join_remote [m; c] = child_path m c.
Proof.
  destruct (portable_name_parts _ Hname) as [Hplain Hbs].
  destruct (plain_name_parts _ Hplain)
    as (Hne & _ & _ & Hstart & _ & _ & _).
  unfold _join_remote, child_path. case_bool_decide as Hm.
  - subst m. rewrite filter_cons_False by (by intros []).
    rewrite filter_cons_True, filter_nil by done.
    by apply replace_backslash_id.
  - rewrite !filter_cons_True, filter_nil by done.
    unfold posixpath_join. cbn [fold_left]. unfold join_step.
    rewrite Hstart, Hend, bool_decide_false by done. cbn [orb].
    apply replace_backslash_id. apply lacks_app; [done|].
    apply lacks_app; [|done]. unfold lacks.
    intros Hin. apply list_elem_of_singleton in Hin. discriminate.
Qed.

Lemma child_path_clean :
  child_path m c ≠ ""
  ∧ lacks (ascii_of_nat 92) (child_path m c)
  ∧ endswith_sep (child_path m c) = false.
Proof.
  destruct (portable_name_parts _ Hname) as [Hplain Hbs].
  destruct (plain_name_parts _ Hplain)
    as (Hne & _ & _ & Hstart & Hcend & _ & _).
  unfold child_path. case_bool_decide as Hm; [done|].
  split; [by destruct m|]. split.
  - apply lacks_app; [done|]. apply lacks_app; [|done]. unfold lacks.
    intros Hin. apply list_elem_of_singleton in Hin. discriminate.
  - rewrite <-append_assoc. by rewrite endswith_sep_app.
Qed.

Lemma dirname_child_path : dirname (child_path m c) = m.
Proof.
  destruct (portable_name_parts _ Hname) as [Hplain Hbs].
  destruct (plain_name_parts _ Hplain) as (_ & _ & _ & _ & _ & Hsep & _).
  unfold child_path. case_bool_decide as Hm.
  - subst m. by apply dirname_no_sep.
  - by apply dirname_child.
Qed.

End ChildPath.

Lemma common_prefix_len_app (top ds : list string) :
  common_prefix_len top (top ++ ds) = length top.
Proof.
  induction top as [|x top IH]; [by destruct ds|].
  simpl. by rewrite bool_decide_true, IH.
Qed.

Lemma endswith_sep_replace (a : string) :
  endswith_sep (replace_backslash a) = false → endswith_sep a = false.
Proof.
  unfold endswith_sep, replace_backslash. rewrite chars_text, <-fmap_reverse.
  destruct (reverse (chars a)) as [|c cs]; [done|]. simpl.
  destruct (Ascii.eqb_spec c (ascii_of_nat 92)) as [->|]; [done|done].
Qed.

(** What a chain of single names below a directory looks like. *)
Lemma fold_child_shape (p : list string) :
  ∀ a,
  a ≠ "" → a ≠ "." → startswith_sep a = false →
  lacks (ascii_of_nat 92) a → endswith_sep a = false →
  Forall (λ n, portable_name n = true) p →
  let x := fold_left child_path p a in
  x ≠ "" ∧ x ≠ "." ∧ startswith_sep x = false
  ∧ lacks (ascii_of_nat 92) x ∧ endswith_sep x = false.
Proof.
  induction p as [|c p IH]; intros a Hne Hdot Hstart Hbs Hend Hp; [done|].
  apply Forall_cons in Hp as [Hc Hp]. cbn [fold_left].
  destruct (child_path_clean a c Hbs Hend Hc) as (Hne' & Hbs' & Hend').
  apply IH; try done.
  - unfold child_path. rewrite bool_decide_false by done.
    destruct a as [|x [|y a]]; try done.
  - unfold child_path. rewrite bool_decide_false by done.
    by rewrite startswith_sep_app.
Qed.

Lemma fold_child_clean (p : list string) :
  ∀ m,
  lacks (ascii_of_nat 92) m → endswith_sep m = false →
  Forall (λ n, portable_name n = true) p →
  lacks (ascii_of_nat 92) (fold_left child_path p m)
  ∧ endswith_sep (fold_left child_path p m) = false.
Proof.
  induction p as [|c p IH]; intros m Hbs Hend Hp; [done|].
  apply Forall_cons in Hp as [Hc Hp]. cbn [fold_left].
  destruct (child_path_clean m c Hbs Hend Hc) as (_ & Hbs' & Hend').
  by apply IH.
Qed.

Lemma fold_child_prefix (p : list string) :
  ∀ w y, y ≠ "" →
  fold_left child_path p (w +:+ y) = w +:+ fold_left child_path p y.
Proof.
  induction p as [|c p IH]; intros w y Hy; [done|]. cbn [fold_left].
  unfold child_path at 2 4. rewrite !bool_decide_false.
  - rewrite append_assoc. apply IH. by destruct y.
  - done.
  - destruct w; [done|discriminate].
Qed.

Lemma fold_join_step (p : list string) :
  ∀ a, a ≠ "" → lacks (ascii_of_nat 92) a → endswith_sep a = false →
  Forall (λ n, portable_name n = true) p →
  fold_left join_step p a = fold_left child_path p a.
Proof.
  induction p as [|c p IH]; intros a Hne Hbs Hend Hp; [done|].
  apply Forall_cons in Hp as [Hc Hp]. cbn [fold_left].
  destruct (portable_name_parts _ Hc) as [Hplain _].
  destruct (plain_name_parts _ Hplain) as (_ & _ & _ & Hstart & _).
  assert (Hstep : join_step a c = child_path a c).
  { unfold join_step, child_path.
    by rewrite Hstart, Hend, !bool_decide_false by done. }
  rewrite Hstep.
  destruct (child_path_clean a c Hbs Hend Hc) as (Hne' & Hbs' & Hend').
  by apply IH.
Qed.

(** The remote directory of a walked directory: its names, one after the
    other, below the remote directory of the top. *)
Lemma mapped_below (remote_dir : string) (top ds : list string) :
  endswith_sep (replace_backslash remote_dir) = false →
  Forall (λ n, portable_name n = true) ds →
  mapped remote_dir top (top ++ ds)
  = fold_left child_path ds (replace_backslash remote_dir).
Proof.
  intros Hend Hds. unfold mapped, os_path_relpath.
  rewrite common_prefix_len_app, Nat.sub_diag, drop_app_length.
  cbn [replicate app].
  destruct ds as [|a p].
  { rewrite bool_decide_true by done. cbn [fold_left].
    unfold _join_remote. destruct (decide (remote_dir = "")) as [->|Hne].
    - by rewrite !filter_cons_False, filter_nil by (by intros []).
    - rewrite filter_cons_True by done.
      by rewrite filter_cons_False, filter_nil by (by intros []). }
  apply Forall_cons in Hds as [Ha Hp].
  destruct (portable_name_parts _ Ha) as [Hplain Habs].
  destruct (plain_name_parts _ Hplain)
    as (Hane & Hadot & _ & Hastart & Haend & _ & _).
  unfold posixpath_join. rewrite fold_join_step by done.
  destruct (fold_child_shape p a Hane Hadot Hastart Habs Haend Hp)
    as (Hxne & Hxdot & Hxstart & Hxbs & Hxend).
  rewrite bool_decide_false by done.
  cbn [fold_left]. unfold _join_remote.
  destruct (decide (remote_dir = "")) as [->|Hne].
  - rewrite filter_cons_False by (by intros []).
    rewrite filter_cons_True, filter_nil by done.
    unfold posixpath_join. cbn [fold_left].
    by rewrite replace_backslash_id.
  - rewrite !filter_cons_True, filter_nil by done.
    unfold posixpath_join. cbn [fold_left]. unfold join_step.
    rewrite Hxstart, (endswith_sep_replace _ Hend), bool_decide_false by done.
    cbn [orb]. rewrite !replace_backslash_app.
    rewrite (replace_backslash_id (fold_left child_path p a)) by done.
    change (replace_backslash "/") with "/".
    assert (Hchild : child_path (replace_backslash remote_dir) a
                     = (replace_backslash remote_dir +:+ "/") +:+ a).
    { unfold child_path. rewrite bool_decide_false, append_assoc; [done|].
      intros Hempty. by apply replace_backslash_empty in Hempty. }
    rewrite Hchild, fold_child_prefix by done.
    by rewrite append_assoc.
Qed.

(** *** The walk of a tree with portable names *)

Lemma os_walk_portable (d : lentry) :
  portable_tree d = true →
  ∀ top tr, tr ∈ os_walk top d →
  ∃ ds, tr.1.1 = top ++ ds
        ∧ Forall (λ n, portable_name n = true) ds
        ∧ Forall (λ n, portable_name n = true) tr.2.
Proof.
  induction d as [n b l [|] entries IH] using lentry_induction.
  { intros _ top tr Htr. by apply elem_of_nil in Htr. }
  intros Htree top tr. rewrite os_walk_unfold. cbn [portable_tree] in Htree.
  pose proof (proj1 (forallb_forall _ _) Htree) as Hall.
  intros [->|Hsub]%elem_of_cons.
  { exists []. rewrite app_nil_r. split; [done|]. split; [done|].
    cbn [snd]. apply Forall_forall. intros x (e & -> & He)%list_elem_of_fmap.
    apply list_elem_of_filter in He as [_ He].
    apply list_elem_of_In, Hall, andb_true_iff in He. tauto. }
  apply list_elem_of_In, in_flat_map in Hsub as (e & He & Htr).
  destruct (walks_into e); [|done].
  destruct (proj1 (andb_true_iff _ _) (Hall e He)) as [Hname Hsub].
  apply list_elem_of_In in He, Htr.
  destruct (proj1 (Forall_forall _ _) IH e He Hsub _ _ Htr)
    as (ds & Hroot & Hds & Hfiles).
  exists (lname e :: ds). rewrite Hroot, <-app_assoc.
  split; [done|]. split; [by constructor|done].
Qed.

(** Only the first triple of a walk is the triple of the top. *)
Lemma os_walk_top (d : lentry) top w1 tr w2 :
  os_walk top d = w1 ++ tr :: w2 → tr.1.1 = top → w1 = [].
Proof.
  destruct d as [n b l [|] entries]; [by destruct w1|].
  rewrite os_walk_unfold. destruct w1 as [|t0 w1]; [done|].
  intros [= _ Hsub] Hroot. exfalso.
  assert (Hin : tr ∈ flat_map (λ e, if walks_into e
                                    then os_walk (top ++ [lname e]) e
                                    else []) entries).
  { rewrite Hsub. apply elem_of_app. right. by left. }
  apply list_elem_of_In, in_flat_map in Hin as (e & _ & Htr).
  destruct (walks_into e); [|done].
  apply list_elem_of_In, os_walk_below in Htr as [ds Hds].
  rewrite Hroot, <-app_assoc in Hds.
  apply (f_equal length) in Hds. rewrite !length_app in Hds.
  simpl in Hds. lia.
Qed.

Section UploadPlan.
Context (fs : LocalView) (local_dir remote_dir : string) (d : lentry).
Hypothesis Hthere : local_lookup fs local_dir = Some d.
Hypothesis Hnames : portable_tree d = true.
Hypothesis Hremote : endswith_sep (replace_backslash remote_dir) = false.

Lemma walked_portable tr :
  tr ∈ walked fs local_dir →
  ∃ ds, tr.1.1 = abspath fs local_dir ++ ds
        ∧ Forall (λ n, portable_name n = true) ds
        ∧ Forall (λ n, portable_name n = true) tr.2.
Proof.
  unfold walked. rewrite Hthere. destruct (lis_dir d).
  - by apply os_walk_portable.
  - by intros ?%elem_of_nil.
Qed.

Lemma mapped_clean tr :
  tr ∈ walked fs local_dir →
  lacks (ascii_of_nat 92) (mapped remote_dir (abspath fs local_dir) tr.1.1)
  ∧ endswith_sep (mapped remote_dir (abspath fs local_dir) tr.1.1) = false.
Proof.
  intros (ds & -> & Hds & _)%walked_portable.
  rewrite mapped_below by done.
  apply fold_child_clean; [apply replace_backslash_clean|done..].
Qed.

(** In the plan, a file is put into the directory whose [EnsureRemote]
    opened its block. *)
Lemma upload_plan_put_inside pre l r post :
  flat_map (upload_block remote_dir (abspath fs local_dir))
           (walked fs local_dir)
  = pre ++ PutFile l r :: post →
  EnsureRemote (dirname r) ∈ pre.
Proof.
  intros Hsplit.
  pose proof Hsplit
    as (w1 & tr & w2 & p1 & p2 & Hwalk & Hblock & -> & ->)%flat_map_split.
  assert (Htr : tr ∈ walked fs local_dir).
  { rewrite Hwalk. apply elem_of_app. right. by left. }
  unfold upload_block in Hblock. destruct p1 as [|st p1]; [done|].
  simpl in Hblock. injection Hblock as <- Hputs.
  assert (Hin : PutFile l r ∈
                (λ filename,
                   PutFile (Abs (tr.1.1 ++ [filename]))
                     (_join_remote
                        [mapped remote_dir (abspath fs local_dir) tr.1.1;
                         filename]))
                <$> tr.2).
  { rewrite Hputs. apply elem_of_app. right. by left. }
  apply list_elem_of_fmap in Hin as (f & [= _ ->] & Hf).
  destruct (walked_portable tr Htr) as (ds & _ & _ & Hfiles).
  destruct (mapped_clean tr Htr) as [Hbs Hend].
  pose proof (proj1 (Forall_forall _ _) Hfiles f Hf) as Hname.
  rewrite join_child, dirname_child_path by done.
  apply elem_of_app. right. by left.
Qed.

(** In the plan, the directory of a walked directory other than the top
    is ensured after the directory it lies in. *)
Lemma upload_plan_ensure_inside pre dst post :
  flat_map (upload_block remote_dir (abspath fs local_dir))
           (walked fs local_dir)
  = pre ++ EnsureRemote dst :: post →
  pre = [] ∨ EnsureRemote (dirname dst) ∈ pre.
Proof.
  intros (w1 & tr & w2 & p1 & p2 & Hwalk & Hblock & -> & ->)%flat_map_split.
  assert (Htr : tr ∈ walked fs local_dir).
  { rewrite Hwalk. apply elem_of_app. right. by left. }
  unfold upload_block in Hblock. destruct p1 as [|st p1].
  2: { exfalso. simpl in Hblock. injection Hblock as _ Hputs.
       assert (Hin : EnsureRemote dst ∈
                 (λ filename,
                    PutFile (Abs (tr.1.1 ++ [filename]))
                      (_join_remote
                         [mapped remote_dir (abspath fs local_dir) tr.1.1;
                          filename]))
                 <$> tr.2).
       { rewrite Hputs. apply elem_of_app. right. by left. }
       by apply list_elem_of_fmap in Hin as (f & [=] & _). }
  simpl in Hblock. injection Hblock as <- _. rewrite app_nil_r.
  destruct (walked_portable tr Htr) as (ds & Hroot & Hds & _).
  destruct (decide (ds = [])) as [->|Hlong].
  { left. rewrite app_nil_r in Hroot.
    assert (Hw1 : w1 = []); [|by subst w1].
    revert Hwalk Hroot. unfold walked. rewrite Hthere.
    destruct (lis_dir d); [apply os_walk_top|by destruct w1]. }
  right.
  destruct (exists_last Hlong) as (ds0 & c & ->).
  apply Forall_app in Hds as [Hds0 Hc]. apply Forall_cons in Hc as [Hc _].
  destruct (walked_topdown fs local_dir w1 tr w2 ds0 c Hwalk Hroot)
    as (t0 & Ht0 & Hroot0).
  assert (Ht0' : t0 ∈ walked fs local_dir).
  { rewrite Hwalk. apply elem_of_app. by left. }
  destruct (mapped_clean t0 Ht0') as [Hbs Hend].
  rewrite Hroot.
  assert (Hall : Forall (λ n, portable_name n = true) (ds0 ++ [c])).
  { apply Forall_app. split; [done|]. by constructor. }
  rewrite (mapped_below remote_dir _ (ds0 ++ [c]) Hremote Hall).
  rewrite fold_left_app. cbn [fold_left].
  rewrite <-(mapped_below remote_dir (abspath fs local_dir) ds0) by done.
  rewrite <-Hroot0, dirname_child_path by done.
  apply list_elem_of_In, in_flat_map. exists t0.
  split; [by apply list_elem_of_In|]. by left.
Qed.

End UploadPlan.

(** *** The plan of a download *)

(** In the plan, a file is fetched right after the parent of its local
    path is made. *)
Lemma download_plan_get_after_parent fs (d : rentry) :
  ∀ remote_dir local_dir pre r l post,
  download_plan fs remote_dir local_dir d = pre ++ GetFile r l :: post →
  ∃ pre' p, l = Abs p ∧ pre = pre' ++ [MakeLocal (parent p)].
Proof.
  induction d as [n m a listing IH] using rentry_induction.
  intros remote_dir local_dir pre r l post. cbn [download_plan].
  destruct pre as [|st0 pre]; [done|].
  simpl. intros [= <- Hsub].
  apply flat_map_split in Hsub
    as (es1 & e & es2 & p1 & p2 & -> & He & -> & ->).
  apply Forall_app in IH as [_ IH]. apply Forall_cons in IH as [IHe _].
  simpl in He. destruct (S_ISDIR (rst_mode e)).
  - destruct (IHe _ _ _ _ _ _ He) as (pre' & p & -> & ->).
    eexists (MakeLocal (resolve_local fs local_dir) :: _ ++ pre'), p.
    split; [done|]. simpl. by rewrite app_assoc.
  - destruct p1 as [|x [|y p1]]; simplify_eq/=; [|by destruct p1].
    eexists (MakeLocal (resolve_local fs local_dir) :: _), _.
    split; [done|]. done.
Qed.




(** *** Every directory *)

Lemma steps_elem (t : list event) (st : step) :
  st ∈ steps t → ∃ ev, ev ∈ t ∧ shape ev = Some st.
Proof.
  unfold steps. intros (ev & Hev & Hshape)%list_elem_of_omap. by exists ev.
Qed.

Lemma download_plan_plain_dirs (d : rentry) :
  ∀ remote_dir base ds, ds ∈ remote_dirs d →
  MakeLocal (base ++ ds) ∈ download_plan_plain remote_dir base d.
Proof.
  induction d as [n m a listing IH] using rentry_induction.
  intros remote_dir base ds. cbn [remote_dirs download_plan_plain].
  intros [->|Hsub]%elem_of_cons.
  { rewrite app_nil_r. by left. }
  right. apply list_elem_of_In, in_flat_map in Hsub as (e & He & Hds).
  apply list_elem_of_In, in_flat_map. exists e. split; [done|].
  apply list_elem_of_In in He, Hds.
  destruct (S_ISDIR (rst_mode e)); [|by apply elem_of_nil in Hds].
  apply list_elem_of_fmap in Hds as (ds' & -> & Hds').
  apply list_elem_of_In.
  replace (base ++ rfilename e :: ds') with ((base ++ [rfilename e]) ++ ds')
    by (by rewrite <-app_assoc).
  by apply (proj1 (Forall_forall _ _) IH e He).
Qed.

(** In a download that ends normally every [Path.mkdir] of the plan was
    called and succeeded. *)
Lemma download_directory_makes
  {S : Type} (sftp : Session S) (fs : LocalView) remote_dir local_dir d
  (s s' : S) t p :
  _download_directory sftp fs remote_dir local_dir d s = (Ok tt, s', t) →
  MakeLocal p ∈ download_plan fs remote_dir local_dir d →
  EvPathMkdir p (inr tt) ∈ t.
Proof.
  intros Hrun Hplan.
  destruct (follows_download_directory sftp fs d remote_dir local_dir s)
    as [_ Hall].
  rewrite Hrun in Hall. cbn [fst snd] in Hall.
  rewrite <-(Hall tt eq_refl) in Hplan.
  apply steps_elem in Hplan as (ev & Hev & Hshape).
  destruct ev as [| | | | | |p' r]; try discriminate Hshape.
  injection Hshape as ->. destruct r as [e|[]]; [|done].
  exfalso. apply list_elem_of_split in Hev as (pre & post & ->).
  destruct (fail_fast_download_directory sftp fs d remote_dir local_dir s
              pre (EvPathMkdir p (inl e)) post e) as [_ Hraise].
  - by rewrite Hrun.
  - done.
  - rewrite Hrun in Hraise. done.
Qed.

(** C2. A transfer that ends normally has dealt with the destination of
    every directory the walker visited, whether or not it holds files:
    - in [_upload_directory], [_ensure_remote_dir] was entered for the
      remote directory it is mapped to, which then was found by [stat],
      whatever [stat] found there, or was made by [mkdir]; the empty path,
      [.] and [/] are left alone;
    - the walker visits every directory of the local tree that can be
      listed and is reached without passing a symbolic link;
    - in [_download_directory], every [Path.mkdir] of the plan succeeded;
      when the listed names are single path names and paths below the
      local directory resolve to themselves, these are the local
      directories of all directories of the remote tree;
    and on the reference world an empty source directory ends as an empty
    directory on the other side, in both directions. *)
Theorem every_directory_created
  {S : Type} (sftp : Session S) (fs : LocalView) :
  (∀ local_dir remote_dir s s' t triple,
     _upload_directory sftp fs local_dir remote_dir s = (Ok tt, s', t) →
     triple ∈ walked fs local_dir →
     let dst := mapped remote_dir (abspath fs local_dir) triple.1.1 in
     EvEnsureRemoteDir dst ∈ t
     ∧ (dst ∈ [""; "."; "/"]
        ∨ (∃ st_mode, EvStat dst (inr st_mode) ∈ t)
        ∨ EvMkdir dst (inr tt) ∈ t))
  ∧ (∀ d top ds, ds ∈ local_dirs d →
       ∃ triple, triple ∈ os_walk top d ∧ triple.1.1 = top ++ ds)
  ∧ (∀ d remote_dir local_dir s s' t,
       _download_directory sftp fs remote_dir local_dir d s = (Ok tt, s', t) →
       (∀ p, MakeLocal p ∈ download_plan fs remote_dir local_dir d →
             EvPathMkdir p (inr tt) ∈ t)
       ∧ (plain_listing d = true →
          resolves_to_itself fs (resolve_local fs local_dir) →
          ∀ ds, ds ∈ remote_dirs d →
                EvPathMkdir (resolve_local fs local_dir ++ ds) (inr tt) ∈ t))
  ∧ (let run := upload disk_session demo_view "project" "/t" empty_disk in
     run.1.1 = Ok tt
     ∧ remote_fs run.1.2
       = list_to_map [("/t", dir_mode); ("/t/empty", dir_mode);
                      ("/t/main.py", file_mode)])
  ∧ (let run := download disk_session demo_view "/r" "/dest"
                         demo_remote_disk in
     run.1.1 = Ok tt
     ∧ local_fs run.1.2
       = list_to_map [(["dest"], true);
                      (["dest"; "onefile.txt"], false);
                      (["dest"; "void"], true);
                      (["dest"; "docs"], true);
                      (["dest"; "docs"; "readme.txt"], false)]).
Proof.
  split; [|split; [|split; [|split]]].
  - intros local_dir remote_dir s s' t triple Hrun Hin.
    apply (upload_directory_creates sftp fs local_dir remote_dir s s' t triple
             Hrun Hin).
  - apply os_walk_complete.
  - intros d remote_dir local_dir s s' t Hrun. split.
    + intros p.
      by apply (download_directory_makes sftp fs remote_dir local_dir d s s').
    + intros Hplain Hres ds Hds.
      apply (download_directory_makes sftp fs remote_dir local_dir d s s' t);
        [done|].
      rewrite download_plan_plain_eq by done.
      by apply download_plan_plain_dirs.
  - apply upload_empty_directory.
  - apply download_empty_directory.
Qed.

Lemma every_directory_created_witness :
  EvPathMkdir ["dest"; "void"] (inr tt)
  ∈ (_download_directory disk_session demo_view "/r" (Raw "/dest")
       demo_remote_tree demo_remote_disk).2.
Proof.
  destruct (_download_directory disk_session demo_view "/r" (Raw "/dest")
              demo_remote_tree demo_remote_disk) as [[r s'] t] eqn:Hrun.
  assert (Hok : r = Ok tt).
  { apply (f_equal (λ x, x.1.1)) in Hrun. vm_compute in Hrun. by subst r. }
  subst r.
  destruct (every_directory_created disk_session demo_view)
    as (_ & _ & Hdown & _).
  destruct (Hdown demo_remote_tree "/r" (Raw "/dest") demo_remote_disk s' t
              Hrun) as [_ Hplain].
  apply Hplain.
  - reflexivity.
  - apply demo_view_resolves. by constructor.
  - vm_compute. right. by left.
Defined.

(** C2 as the spec states it fails where something else stands at the
    destination.  With the regular file [/t/empty] on the server, the
    upload of [project], which holds the directory [empty], ends normally
    without a [mkdir], and [/t/empty] is the regular file it was: no
    directory was created for [empty]. *)
Lemma directory_not_created :
  let run := upload disk_session demo_view "project" "/t"
                    demo_occupied_disk in
  ["empty"] ∈ local_dirs demo_project_tree
  ∧ run.1.1 = Ok tt
  ∧ mkdir_calls run.2 = []
  ∧ remote_fs run.1.2 !! "/t/empty" = Some file_mode
  ∧ S_ISDIR file_mode = false.
Proof.
  split; [vm_compute; right; by left|].
  split; [vm_compute; reflexivity|].
  split; [vm_compute; reflexivity|].
  split; vm_compute; reflexivity.
Qed.

(** *** One file down, to a path with a tilde *)

(** C8, at the input where the code leaves it.  [download] of the regular
    file [/r/onefile.txt] to [~/out.txt] makes the parent of the expanded
    path, [/home/u], and then hands [get] the path as it was given,
    [~/out.txt], not [/home/u/out.txt]: the directory made is not the
    parent of the file fetched, and on the reference world the [get]
    fails with not-found. *)
Theorem download_target_not_expanded :
  let run := download disk_session demo_home_view "/r/onefile.txt" "~/out.txt"
                      demo_remote_disk in
  expanduser demo_home_view "~/out.txt" = "/home/u/out.txt"
  ∧ run.2 = [EvStat "/r/onefile.txt" (inr file_mode);
             EvPathMkdir ["home"; "u"] (inr tt);
             EvGet "/r/onefile.txt" (Raw "~/out.txt") (inl ENOENT)]
  ∧ run.1.1 = Raise (OSError ENOENT).
Proof. split; [|split]; vm_compute; reflexivity. Qed.

(** *** Every file once *)

Lemma put_calls_steps (t : list event) : put_calls t = omap put_of (steps t).
Proof.
  induction t as [|ev t IH]; [done|].
  unfold put_calls, steps in *. destruct ev; simpl; try done.
  f_equal. exact IH.
Qed.

Lemma get_calls_steps (t : list event) : get_calls t = omap get_of (steps t).
Proof.
  induction t as [|ev t IH]; [done|].
  unfold get_calls, steps in *. destruct ev; simpl; try done.
  f_equal. exact IH.
Qed.

Lemma omap_prefix {X Y} (f : X → option Y) (l k : list X) :
  l `prefix_of` k → omap f l `prefix_of` omap f k.
Proof. intros [rest ->]. rewrite omap_app. by eexists. Qed.

Lemma omap_flat_map {X Y Z} (f : Y → option Z) (g : X → list Y) (xs : list X) :
  omap f (flat_map g xs) = flat_map (λ x, omap f (g x)) xs.
Proof.
  induction xs as [|x xs IH]; [done|]. simpl. by rewrite omap_app, IH.
Qed.

Lemma fmap_flat_map {X Y Z} (f : Y → Z) (g : X → list Y) (xs : list X) :
  f <$> flat_map g xs = flat_map (λ x, f <$> g x) xs.
Proof.
  induction xs as [|x xs IH]; [done|]. simpl. by rewrite fmap_app, IH.
Qed.

Lemma flat_map_flat_map {X Y Z} (f : Y → list Z) (g : X → list Y)
  (xs : list X) :
  flat_map f (flat_map g xs) = flat_map (λ x, flat_map f (g x)) xs.
Proof.
  induction xs as [|x xs IH]; [done|]. simpl. by rewrite flat_map_app, IH.
Qed.

Lemma flat_map_ext_in {X Y} (f g : X → list Y) (xs : list X) :
  (∀ x, x ∈ xs → f x = g x) → flat_map f xs = flat_map g xs.
Proof.
  induction xs as [|x xs IH]; intros Hfg; [done|]. simpl.
  rewrite (Hfg x) by (by left). rewrite IH; [done|].
  intros y Hy. apply Hfg. by right.
Qed.

(** The files the walk lists, directory by directory, are the files of
    the tree that it meets. *)
Lemma os_walk_files (d : lentry) :
  ∀ top,
  flat_map (λ tr : list string * list string * list string,
              (λ f, (tr.1.1, f)) <$> tr.2) (os_walk top d)
  = (λ f, (top ++ f.1, f.2)) <$> local_files d.
Proof.
  induction d as [n b l [|] entries IH] using lentry_induction; [done|].
  intros top.
  rewrite os_walk_unfold. cbn [flat_map local_files fst snd].
  rewrite fmap_app, <-!list_fmap_compose. f_equal.
  { apply list_fmap_ext. intros i e _. simpl. by rewrite app_nil_r. }
  rewrite flat_map_flat_map, fmap_flat_map.
  apply flat_map_ext_in. intros e He.
  destruct (walks_into e); [|done].
  rewrite (proj1 (Forall_forall _ _) IH e He).
  rewrite <-list_fmap_compose. apply list_fmap_ext. intros i f _. simpl.
  by rewrite <-app_assoc.
Qed.

Lemma omap_puts {X} (a : X → lpath) (b : X → string) (l : list X) :
  omap put_of ((λ x, PutFile (a x) (b x)) <$> l) = (λ x, (a x, b x)) <$> l.
Proof.
  induction l as [|x l IH]; [done|].
  change (omap put_of ((λ x, PutFile (a x) (b x)) <$> x :: l))
    with ((a x, b x) :: omap put_of ((λ x, PutFile (a x) (b x)) <$> l)).
  by rewrite IH.
Qed.

(** X18. [_upload_directory] puts every file of the local tree that the
    walk meets once, in the order of the walk, and nothing else: the name
    [name] listed in the directory [ds] below the top goes from its
    absolute local path to [name] joined to the remote directory that [ds]
    is mapped to.  The walk goes into no symbolic link and into no
    directory that cannot be listed, so what lies below those is not put.
    A run that fails has put the first files of this list. *)
Theorem upload_puts_every_file
  {S : Type} (sftp : Session S) (fs : LocalView)
  (local_dir remote_dir : string) (d : lentry) (s : S) :
  local_lookup fs local_dir = Some d → lis_dir d = true →
  let top := abspath fs local_dir in
  let run := _upload_directory sftp fs local_dir remote_dir s in
  let expected :=
    (λ f : list string * string,
       (Abs (top ++ f.1 ++ [f.2]),
        _join_remote [mapped remote_dir top (top ++ f.1); f.2]))
    <$> local_files d in
  put_calls run.2 `prefix_of` expected
  ∧ (run.1.1 = Ok tt → put_calls run.2 = expected).
Proof.
  intros Hthere Hdir top run expected.
  assert (Hplan : omap put_of
                    (flat_map (upload_block remote_dir top) (walked fs local_dir))
                  = expected).
  { unfold walked. rewrite Hthere, Hdir. fold top.
    rewrite omap_flat_map.
    transitivity
      ((λ p : list string * string,
          (Abs (p.1 ++ [p.2]),
           _join_remote [mapped remote_dir top p.1; p.2]))
       <$> flat_map (λ tr : list string * list string * list string,
                       (λ f, (tr.1.1, f)) <$> tr.2) (os_walk top d)).
    - rewrite fmap_flat_map. apply flat_map_ext_in.
      intros [[root dirs] files] _. unfold upload_block.
      change (omap put_of (EnsureRemote ?x :: ?l)) with (omap put_of l).
      cbn [fst snd]. by rewrite omap_puts, <-list_fmap_compose.
    - rewrite os_walk_files, <-list_fmap_compose. unfold expected.
      apply list_fmap_ext. intros i f _. simpl. by rewrite <-app_assoc. }
  destruct (follows_upload_directory sftp fs local_dir remote_dir s)
    as [Hprefix Hall].
  fold run in Hprefix, Hall. rewrite put_calls_steps, <-Hplan. split.
  - by apply omap_prefix.
  - intros Hok. by rewrite (Hall tt Hok).
Qed.

Lemma upload_puts_every_file_witness :
  put_calls (_upload_directory disk_session demo_view "root" "/home/u/target"
               empty_disk).2
  = [(Abs ["work"; "root"; "a.txt"], "/home/u/target/a.txt");
     (Abs ["work"; "root"; "sub"; "b.txt"], "/home/u/target/sub/b.txt")].
Proof.
  destruct (upload_puts_every_file disk_session demo_view "root"
              "/home/u/target" demo_local_tree empty_disk)
    as [_ Hall]; [reflexivity..|].
  rewrite Hall by (vm_compute; reflexivity). vm_compute. reflexivity.
Defined.

Lemma descend_cons (remote_dir name : string) (names : list string) :
  descend remote_dir (name :: names)
  = descend (_join_remote [remote_dir; name]) names.
Proof. reflexivity. Qed.

Lemma download_plan_plain_files (d : rentry) :
  ∀ remote_dir base,
  omap get_of (download_plan_plain remote_dir base d)
  = (λ p, (descend remote_dir p, Abs (base ++ p))) <$> remote_files d.
Proof.
  induction d as [n m a listing IH] using rentry_induction.
  intros remote_dir base. cbn [download_plan_plain remote_files].
  change (omap get_of (MakeLocal ?x :: ?l)) with (omap get_of l).
  rewrite omap_flat_map, fmap_flat_map. apply flat_map_ext_in.
  intros e He. destruct (S_ISDIR (rst_mode e)).
  - rewrite (proj1 (Forall_forall _ _) IH e He).
    rewrite <-list_fmap_compose. apply list_fmap_ext. intros i p _.
    unfold compose. by rewrite descend_cons, <-app_assoc.
  - done.
Qed.

(** X19. When every listed name is a single path name and paths below
    the local directory resolve to themselves, [_download_directory]
    fetches every regular file of the remote tree once, in listing order
    and depth first, and nothing else: the file at the path [p] below the
    top comes from the remote path reached by joining the names of [p] one
    after the other, and goes to [p] below the resolved local directory.
    A run that fails has fetched the first files of this list. *)
Theorem download_gets_every_file
  {S : Type} (sftp : Session S) (fs : LocalView)
  (remote_dir : string) (local_dir : lpath) (d : rentry) (s : S) :
  plain_listing d = true →
  resolves_to_itself fs (resolve_local fs local_dir) →
  let run := _download_directory sftp fs remote_dir local_dir d s in
  let expected :=
    (λ p, (descend remote_dir p, Abs (resolve_local fs local_dir ++ p)))
    <$> remote_files d in
  get_calls run.2 `prefix_of` expected
  ∧ (run.1.1 = Ok tt → get_calls run.2 = expected).
Proof.
  intros Hplain Hres run expected.
  destruct (follows_download_directory sftp fs d remote_dir local_dir s)
    as [Hprefix Hall].
  fold run in Hprefix, Hall.
  rewrite download_plan_plain_eq in Hprefix, Hall by done.
  unfold expected. rewrite get_calls_steps, <-download_plan_plain_files.
  split.
  - by apply omap_prefix.
  - intros Hok. by rewrite (Hall tt Hok).
Qed.

Lemma download_gets_every_file_witness :
  get_calls (_download_directory disk_session demo_view "/r" (Raw "/dest")
               demo_remote_tree demo_remote_disk).2
  = [("/r/onefile.txt", Abs ["dest"; "onefile.txt"]);
     ("/r/docs/readme.txt", Abs ["dest"; "docs"; "readme.txt"])].
Proof.
  destruct (download_gets_every_file disk_session demo_view "/r" (Raw "/dest")
              demo_remote_tree demo_remote_disk) as [_ Hall].
  - reflexivity.
  - apply demo_view_resolves. by constructor.
  - rewrite Hall by (vm_compute; reflexivity). vm_compute. reflexivity.
Defined.

End SftpTreeProofs.
